(** * sjson-cpp: the SJSON pull parser ([includes/sjson/parser.h])

    A shallow embedding of [sjson::Parser] and the properties of its
    scanner.  The parser state is threaded explicitly; every [while] loop of
    the source is a recursion on an explicit iteration bound whose
    exhaustion is reported as [None], so an equation [f s = Some r] states
    that the call returns, and returns [r]. *)

From Stdlib Require Import ZArith Ascii String List Bool Lia.
From Stdlib Require Import Floats.SpecFloat.
From stdpp Require Import base list.
Import ListNotations.

Local Open Scope Z_scope.

(** ** Machine integers *)

(** [size_t] (64 bits) and [uint32_t] arithmetic wraps around. *)
Definition size_t_wrap (z : Z) : Z := z mod 2 ^ 64.
Definition uint32_wrap (z : Z) : Z := z mod 2 ^ 32.

(** ** <cctype> in the "C" locale

    [std::isspace] and [std::isdigit] on the byte under the cursor: space,
    tab, newline, vertical tab, form feed and carriage return; the ten
    digits.  No byte above 127 is either. *)

Definition isspace (c : ascii) : bool :=
  let n := Z.of_N (N_of_ascii c) in
  (n =? 32) || ((9 <=? n) && (n <=? 13)).

Definition isdigit (c : ascii) : bool :=
  let n := Z.of_N (N_of_ascii c) in
  (48 <=? n) && (n <=? 57).

Definition newline : ascii := "010".
Definition quotation_mark : ascii := "034".
Definition backslash : ascii := "092".

Fixpoint bytes_eqb (a b : list ascii) : bool :=
  match a, b with
  | [], [] => true
  | x :: a', y :: b' => (x =? y)%char && bytes_eqb a' b'
  | _, _ => false
  end.

(** ** parser_error.h *)

(** Modelled from the spec: [parser_error.h] is not among the sources.  The
    closed set of error kinds of section 7 of the specification, with the
    [None] kind a fresh state carries, and the record pairing a kind with
    the line and column at which it was set ([m_state.error.error],
    [.line], [.column] in [Parser::set_error]). *)
Inductive ErrorKind : Type :=
| None_
| InputTruncated
| OpeningBraceExpected
| ClosingBraceExpected
| OpeningBracketExpected
| ClosingBracketExpected
| EqualSignExpected
| CommaExpected
| QuotationMarkExpected
| KeyExpected
| IncorrectKey
| TrueOrFalseExpected
| NumberExpected
| InvalidNumber
| NumberIsTooLong
| NumberCouldNotBeConverted
| CommentBeginsIncorrectly
| UnexpectedContentAtEnd
| CannotUseQuotationMarkInUnquotedString.

(** Modelled from the spec: the [ParserError] of [parser_error.h]: the kind
    ([error]), and the [line] and [column] it was recorded at. *)
Record ParserError : Type := mkParserError {
  pe_error : ErrorKind;
  pe_line : Z;
  pe_column : Z
}.

(** ** parser_state.h *)

(** Modelled from the spec: [parser_state.h] is not among the sources.  The
    cursor of section 3 of the specification: byte offset ([size_t]), line and
    column ([uint32_t], 1-based), the current symbol and the embedded
    error. *)
Record ParserState : Type := mkParserState {
  offset : Z;
  line : Z;
  column : Z;
  symbol : ascii;
  error : ParserError
}.

(** ** string_view.h *)

(** Modelled from the spec: [string_view.h] is not among the sources.  A
    borrowed slice of the input: where it starts (an offset into [m_input],
    or [None] for the null pointer) and its length. *)
Record StringView : Type := mkStringView {
  sv_start : option Z;
  sv_length : Z
}.

(** Modelled from the spec: the view [value = nullptr] leaves, the "no
    value" sentinel: the null pointer, and no length. *)
Definition StringView_null : StringView := mkStringView None 0.

(** A [double]: a binary64 datum. *)
Definition double : Type := spec_float.

(** [0.0] *)
Definition double_zero : double := S754_zero false.

(** ** The state monad of the parser

    A member function is a function from the state before the call to the
    result and the state after it; [None] stands for a loop that did not
    finish within its iteration bound. *)
Definition M (A : Type) : Type := ParserState -> option (A * ParserState).

Definition ret {A} (a : A) : M A := fun s => Some (a, s).

Definition bind {A B} (m : M A) (f : A -> M B) : M B :=
  fun s => match m s with
           | Some (a, s') => f a s'
           | None => None
           end.

Notation "x <- m ;; k" := (bind m (fun x => k))
  (at level 100, m at next level, right associativity).
Notation "m ;;; k" := (bind m (fun _ => k))
  (at level 100, right associativity).

(** [a && b] on calls: [b] runs only when [a] returned true. *)
Definition and_then (a b : M bool) : M bool :=
  x <- a ;; if x then b else ret false.

Definition get : M ParserState := fun s => Some (s, s).

(** ** A decimal [strtod]

    [std::strtod] belongs to the C library.  The parser is embedded over an
    arbitrary conversion routine; this one is the behaviour the C standard
    gives it on the decimal floating constants, rounded to the nearest
    binary64 value, ties to even.  It is what the scenarios run with. *)

Definition digit_value (c : ascii) : Z := Z.of_N (N_of_ascii c) - 48.

(** The longest prefix of digits: its value on top of [acc], its length on
    top of [cnt], and what follows it. *)
Fixpoint take_digits (l : list ascii) (acc cnt : Z) : Z * Z * list ascii :=
  match l with
  | c :: l' =>
      if isdigit c then take_digits l' (10 * acc + digit_value c) (cnt + 1)
      else (acc, cnt, l)
  | [] => (acc, cnt, l)
  end.

(** The nearest binary64 value to [(-1)^neg * m * 10^e10]. *)
Definition decimal_to_double (neg : bool) (m e10 : Z) : double :=
  match m with
  | Zpos p =>
      if 0 <=? e10 then
        binary_round 53 1024 neg (p * Z.to_pos (10 ^ e10)) 0
      else
        SFdiv 53 1024 (S754_finite neg p 0)
                      (S754_finite false (Z.to_pos (10 ^ (- e10))) 0)
  | _ => S754_zero neg
  end.

Definition strtod_decimal (l : list ascii) : double * Z :=
  let '(neg, nsign, l0) :=
    match l with
    | c :: l' =>
        if (c =? "-")%char then (true, 1, l')
        else if (c =? "+")%char then (false, 1, l')
        else (false, 0, l)
    | [] => (false, 0, l)
    end in
  let '(m1, n1, l1) := take_digits l0 0 0 in
  let '(m2, n2, ndot, l2) :=
    match l1 with
    | c :: l' =>
        if (c =? ".")%char then
          let '(m, n, r) := take_digits l' m1 0 in (m, n, 1, r)
        else (m1, 0, 0, l1)
    | [] => (m1, 0, 0, l1)
    end in
  if n1 + n2 =? 0 then (double_zero, 0)
  else
    let '(e, nexp) :=
      match l2 with
      | c :: l' =>
          if (c =? "e")%char || (c =? "E")%char then
            let '(eneg, nesign, l3) :=
              match l' with
              | d :: l'' =>
                  if (d =? "-")%char then (true, 1, l'')
                  else if (d =? "+")%char then (false, 1, l'')
                  else (false, 0, l')
              | [] => (false, 0, l')
              end in
            let '(me, ne, _) := take_digits l3 0 0 in
            if ne =? 0 then (0, 0)
            else (if eneg then - me else me, 1 + nesign + ne)
          else (0, 0)
      | [] => (0, 0)
      end in
    (decimal_to_double neg m2 (e - n2), nsign + n1 + ndot + n2 + nexp).

(** The literals of [read_bool]. *)
Definition literal_true : list ascii := ["t"; "r"; "u"; "e"]%char.
Definition literal_false : list ascii := ["f"; "a"; "l"; "s"; "e"]%char.

(** ** Unquoted keys, as the specification words them

    A byte of a bare word: not whitespace, not [=], not a quotation mark.
    A byte that ends a bare word: whitespace or [=]. *)
Definition key_byte (c : ascii) : bool :=
  negb (isspace c) && negb (c =? "=")%char && negb (c =? quotation_mark)%char.
Definition key_end (c : ascii) : bool := isspace c || (c =? "=")%char.

(** ** Quoted strings, as the specification words them

    The bytes strictly between an opening quotation mark and the closing
    one, read off [l], the input behind the opening mark: a backslash takes
    the byte behind it along, whatever it is, and both stay in the text;
    [None] when the input ends before a closing mark. *)
Fixpoint string_body (l : list ascii) : option (list ascii) :=
  match l with
  | [] => None
  | c :: l' =>
      if (c =? quotation_mark)%char then Some []
      else if (c =? backslash)%char then
        match l' with
        | [] => None
        | d :: l'' => option_map (fun b => c :: d :: b) (string_body l'')
        end
      else option_map (cons c) (string_body l')
  end.

(** ** Comments, as the grammar words them *)

(** [l] starts with the byte [c]. *)
Definition starts_with (c : ascii) (l : list ascii) : bool :=
  match l with
  | d :: _ => (d =? c)%char
  | [] => false
  end.

(** What follows a block comment, read off [l], the input behind its
    opening slash and star: the input behind the first star that a slash
    follows at once; [None] when there is none. *)
Fixpoint after_block_comment (l : list ascii) : option (list ascii) :=
  match l with
  | [] => None
  | c :: l' =>
      if (c =? "*")%char && starts_with "/" l' then Some (tl l')
      else after_block_comment l'
  end.

(** What follows a line comment, read off the input behind its two
    slashes: the input from the first newline on, nothing when there is
    none. *)
Fixpoint from_newline (l : list ascii) : list ascii :=
  match l with
  | [] => []
  | c :: l' => if (c =? newline)%char then l else from_newline l'
  end.




(** ** Positions, counted on the input *)

(** The newlines among the bytes of [l]. *)
Fixpoint count_newlines (l : list ascii) : Z :=
  match l with
  | [] => 0
  | c :: l' => (if (c =? newline)%char then 1 else 0) + count_newlines l'
  end.

(** The bytes of [l] up to its first newline. *)
Fixpoint until_newline (l : list ascii) : list ascii :=
  match l with
  | [] => []
  | c :: l' => if (c =? newline)%char then [] else c :: until_newline l'
  end.

(** The bytes at the end of [l] behind its last newline. *)
Definition since_newline (l : list ascii) : Z :=
  Z.of_nat (length (until_newline (rev l))).

(** ** Numbers, as the grammar words them

    The lexeme of a number at the start of [l]: an optional minus; then a
    single zero or a run of digits; then, optionally, a dot and a run of
    digits, that may be empty; then, optionally, an [e] or [E] followed by a
    sign and a run of digits, that may be empty, or by a run of digits that
    is not.  Either the length of the lexeme, or the error and the number
    of bytes read before it. *)

(** The length of the run of digits [l] starts with. *)
Fixpoint digit_run (l : list ascii) : nat :=
  match l with
  | c :: l' => if isdigit c then S (digit_run l') else O
  | [] => O
  end.

Inductive lexeme_result : Type :=
| Lexeme (length : nat)
| LexemeError (e : ErrorKind) (consumed : nat).

(** The result [r], found [k] bytes into the input. *)
Definition shift (k : nat) (r : lexeme_result) : lexeme_result :=
  match r with
  | Lexeme n => Lexeme (k + n)
  | LexemeError e c => LexemeError e (k + c)
  end.

Definition lex_exponent (l : list ascii) : lexeme_result :=
  match l with
  | c :: l1 =>
      if (c =? "e")%char || (c =? "E")%char then
        match l1 with
        | d :: l2 =>
            if (d =? "+")%char || (d =? "-")%char
            then Lexeme (2 + digit_run l2)
            else if isdigit d then Lexeme (1 + digit_run l1)
            else LexemeError InvalidNumber 1
        | [] => LexemeError InvalidNumber 1
        end
      else Lexeme 0
  | [] => Lexeme 0
  end.

Definition lex_fraction (l : list ascii) : lexeme_result :=
  match l with
  | c :: l1 =>
      if (c =? ".")%char
      then shift (1 + digit_run l1) (lex_exponent (skipn (digit_run l1) l1))
      else lex_exponent l
  | [] => Lexeme 0
  end.

Definition lex_integer (l : list ascii) : lexeme_result :=
  match l with
  | c :: l1 =>
      if (c =? "0")%char then shift 1 (lex_fraction l1)
      else if isdigit c
      then shift (digit_run l) (lex_fraction (skipn (digit_run l) l))
      else LexemeError NumberExpected 0
  | [] => LexemeError NumberExpected 0
  end.

Definition number_lexeme (l : list ascii) : lexeme_result :=
  match l with
  | c :: l1 => if (c =? "-")%char then shift 1 (lex_integer l1) else lex_integer l
  | [] => LexemeError NumberExpected 0
  end.

(** A matched lexeme lies within [l]. *)
Definition fits (r : lexeme_result) (l : list ascii) : Prop :=
  match r with
  | Lexeme n => (n <= length l)%nat
  | LexemeError _ _ => True
  end.

(** Whether a loop left at its [break], with a result. *)
Definition found {A} (r : option A) : bool :=
  match r with Some _ => true | None => false end.

(** ** The parser

    What a [Parser] holds for its lifetime, besides the state: the input,
    [m_input].  The C library's [std::strtod], which [read_double] calls,
    yields the value and the number of bytes it consumed; the parser is
    embedded over whatever routine stands for it. *)
Class ParserInput : Type := m_input : list ascii.
Class Strtod : Type := strtod : list ascii -> double * Z.

Section Parser.

Context {conversion : Strtod} {input : ParserInput}.

(** [m_input_length] *)
Definition m_input_length : Z := Z.of_nat (length m_input).

(** [m_input[i]] *)
Definition input_at (i : Z) : ascii := nth (Z.to_nat i) m_input zero.

(** Modelled from the spec: the constructor [ParserState(input, length)] of
    [parser_state.h], not among the sources: the cursor on the first byte,
    at line 1 and column 1, with no error. *)
Definition initial_state : ParserState :=
  mkParserState 0 1 1
    (if 0 <? m_input_length then input_at 0 else zero)
    (mkParserError None_ 0 0).

(** Lines 181, 185-187. *)
Definition eof (s : ParserState) : bool := m_input_length <=? offset s.

Definition save_state : M ParserState := get.
Definition restore_state (saved : ParserState) : M unit :=
  fun _ => Some (tt, saved).
Definition reset_state : M unit := fun _ => Some (tt, initial_state).

(** Lines 175-179, 183. *)
Definition get_position (s : ParserState) : Z * Z := (line s, column s).
Definition get_error (s : ParserState) : ParserError := error s.

(** Lines 553-558: the state with the error [e] recorded at the position
    of the cursor. *)
Definition with_error (e : ErrorKind) (s : ParserState) : ParserState :=
  mkParserState (offset s) (line s) (column s) (symbol s)
    (mkParserError e (line s) (column s)).

Definition set_error (e : ErrorKind) : M unit := fun s =>
  Some (tt, with_error e s).

(** Lines 524-551.  The increment of [offset] cannot wrap: it runs under
    [offset < m_input_length]. *)
Definition advance : M bool := fun s =>
  if eof s then Some (false, s)
  else
    let o := offset s + 1 in
    if m_input_length <=? o then
      Some (true, mkParserState o (line s) (column s) zero (error s))
    else
      let c := input_at o in
      if (c =? newline)%char then
        Some (true, mkParserState o (uint32_wrap (line s + 1)) 1 c (error s))
      else
        Some (true, mkParserState o (line s) (uint32_wrap (column s + 1)) c (error s)).

(** An upper bound on the iterations of a loop that advances the cursor on
    every iteration it does not leave on: the bytes left, and one more for
    the iteration that leaves. *)
Definition loop_bound (s : ParserState) : nat :=
  S (Z.to_nat (m_input_length - offset s)).

Definition bounded {A} (loop : nat -> M A) : M A :=
  fun s => loop (loop_bound s) s.

(** [m_state.symbol == c] *)
Definition symbol_is (c : ascii) : M bool :=
  fun s => Some ((symbol s =? c)%char, s).

(** Lines 228-229: [while (!eof() && m_state.symbol != '\n') advance();] *)
Fixpoint read_comment_line (n : nat) : M unit := fun s =>
  match n with
  | O => None
  | S n' =>
      if negb (eof s) && negb (symbol s =? newline)%char
      then (advance ;;; read_comment_line n') s
      else Some (tt, s)
  end.

(** Lines 239-261. *)
Fixpoint read_comment_block (n : nat) (wasAsterisk : bool) : M bool := fun s =>
  match n with
  | O => None
  | S n' =>
      if eof s then (set_error InputTruncated ;;; ret false) s
      else if (symbol s =? "*")%char then
        (advance ;;; read_comment_block n' true) s
      else if wasAsterisk && (symbol s =? "/")%char then
        (advance ;;; ret true) s
      else
        (advance ;;; read_comment_block n' false) s
  end.

(** Lines 218-268. *)
Definition read_comment : M bool := fun s =>
  if eof s then (set_error InputTruncated ;;; ret false) s
  else if (symbol s =? "/")%char then
    (bounded read_comment_line ;;; ret true) s
  else if (symbol s =? "*")%char then
    (advance ;;; bounded (fun n => read_comment_block n false)) s
  else (set_error CommentBeginsIncorrectly ;;; ret false) s.

(** Lines 150-173. *)
Fixpoint skip_comments_and_whitespace_loop (n : nat) : M bool := fun s =>
  match n with
  | O => None
  | S n' =>
      if eof s then Some (true, s)
      else if isspace (symbol s) then
        (advance ;;; skip_comments_and_whitespace_loop n') s
      else if (symbol s =? "/")%char then
        (advance ;;;
         ok <- read_comment ;;
         if negb ok then ret false else ret true) s
      else Some (true, s)
  end.

Definition skip_comments_and_whitespace : M bool :=
  bounded skip_comments_and_whitespace_loop.

(** Lines 510-522. *)
Definition skip_comments_and_whitespace_fail_if_eof : M bool :=
  ok <- skip_comments_and_whitespace ;;
  if negb ok then ret false
  else fun s =>
    if eof s then (set_error InputTruncated ;;; ret false) s
    else Some (true, s).

(** Lines 136-148. *)
Definition remainder_is_comments_and_whitespace : M bool :=
  ok <- skip_comments_and_whitespace ;;
  if negb ok then ret false
  else fun s =>
    if negb (eof s) then (set_error UnexpectedContentAtEnd ;;; ret false) s
    else Some (true, s).

(** Lines 203-216. *)
Definition read_symbol (expected : ascii) (reason_if_other_found : ErrorKind)
  : M bool :=
  ok <- skip_comments_and_whitespace_fail_if_eof ;;
  if negb ok then ret false
  else fun s =>
    if (symbol s =? expected)%char then (advance ;;; ret true) s
    else (set_error reason_if_other_found ;;; ret false) s.

(** Lines 196-201. *)
Definition read_equal_sign := read_symbol "=" EqualSignExpected.
Definition read_opening_brace := read_symbol "{" OpeningBraceExpected.
Definition read_closing_brace := read_symbol "}" ClosingBraceExpected.
Definition read_opening_bracket := read_symbol "[" OpeningBracketExpected.
Definition read_closing_bracket := read_symbol "]" ClosingBracketExpected.
Definition read_comma := read_symbol "," CommaExpected.

(** [StringView(m_input + start_offset, length)] *)
Definition StringView_of (start_offset len : Z) : StringView :=
  mkStringView (Some start_offset) len.

(** The bytes a view borrows from the input. *)
Definition StringView_bytes (v : StringView) : list ascii :=
  match sv_start v with
  | Some o => firstn (Z.to_nat (sv_length v)) (skipn (Z.to_nat o) m_input)
  | None => []
  end.

(** Modelled from the spec: [StringView::operator!=] against a C string, of
    [string_view.h], not among the sources: the text of the view is
    compared byte for byte, case-sensitively, with the name. *)
Definition StringView_differs (v : StringView) (name : list ascii) : bool :=
  negb (bytes_eqb (StringView_bytes v) name).

(** Lines 315-338: the loop of [read_string]; [Some end_offset] at the
    [break], [None] at the [return false]. *)
Fixpoint read_string_loop (n : nat) : M (option Z) := fun s =>
  match n with
  | O => None
  | S n' =>
      if eof s then (set_error InputTruncated ;;; ret None) s
      else if (symbol s =? quotation_mark)%char then
        (let end_offset := size_t_wrap (offset s - 1) in
         advance ;;; ret (Some end_offset)) s
      else if (symbol s =? backslash)%char then
        (advance ;;; advance ;;; read_string_loop n') s
      else
        (advance ;;; read_string_loop n') s
  end.

(** Lines 299-342.  The second component is [value] after the call. *)
Definition read_string (value : StringView) : M (bool * StringView) :=
  ok <- skip_comments_and_whitespace_fail_if_eof ;;
  if negb ok then ret (false, value)
  else fun s =>
    if negb (symbol s =? quotation_mark)%char then
      (set_error QuotationMarkExpected ;;; ret (false, value)) s
    else
      (advance ;;;
       s1 <- get ;;
       let start_offset := offset s1 in
       r <- bounded read_string_loop ;;
       match r with
       | None => ret (false, value)
       | Some end_offset =>
           ret (true, StringView_of start_offset
                        (size_t_wrap (size_t_wrap (end_offset - start_offset) + 1)))
       end) s.

(** Lines 355-389: the loop of [read_unquoted_key]. *)
Fixpoint read_unquoted_key_loop (n : nat) (start_offset : Z) : M (option Z) :=
  fun s =>
  match n with
  | O => None
  | S n' =>
      if eof s then Some (Some (size_t_wrap (offset s - 1)), s)
      else if (symbol s =? quotation_mark)%char then
        (set_error CannotUseQuotationMarkInUnquotedString ;;; ret None) s
      else if (symbol s =? "=")%char then
        if offset s =? start_offset then
          (set_error KeyExpected ;;; ret None) s
        else Some (Some (size_t_wrap (offset s - 1)), s)
      else if isspace (symbol s) then
        (let end_offset := size_t_wrap (offset s - 1) in
         advance ;;; ret (Some end_offset)) s
      else
        (advance ;;; read_unquoted_key_loop n' start_offset) s
  end.

(** Lines 344-393. *)
Definition read_unquoted_key (value : StringView) : M (bool * StringView) :=
  fun s =>
  if eof s then (set_error InputTruncated ;;; ret (false, value)) s
  else
    let start_offset := offset s in
    (r <- bounded (fun n => read_unquoted_key_loop n start_offset) ;;
     match r with
     | None => ret (false, value)
     | Some end_offset =>
         ret (true, StringView_of start_offset
                      (size_t_wrap (size_t_wrap (end_offset - start_offset) + 1)))
     end) s.

(** Lines 270-297.  [actual] starts as the default, null view. *)
Definition read_key (having_name : list ascii) : M bool :=
  ok <- skip_comments_and_whitespace_fail_if_eof ;;
  if negb ok then ret false
  else
    start_of_key <- save_state ;;
    r <- (if (symbol start_of_key =? quotation_mark)%char
          then read_string StringView_null
          else read_unquoted_key StringView_null) ;;
    let '(ok, actual) := r in
    if negb ok then ret false
    else if StringView_differs actual having_name then
      restore_state start_of_key ;;;
      set_error IncorrectKey ;;;
      ret false
    else ret true.

(** Lines 395-431.  The second component is [value] after the call. *)
Definition read_bool (value : bool) : M (bool * bool) :=
  ok <- skip_comments_and_whitespace_fail_if_eof ;;
  if negb ok then ret (false, value)
  else
    start_of_literal <- save_state ;;
    let mismatch :=
      restore_state start_of_literal ;;;
      set_error TrueOrFalseExpected ;;;
      ret (false, value) in
    if (symbol start_of_literal =? "t")%char then
      advance ;;;
      matched <- and_then (symbol_is "r") (and_then advance
                (and_then (symbol_is "u") (and_then advance
                (and_then (symbol_is "e") advance)))) ;;
      if matched then ret (true, true) else mismatch
    else if (symbol start_of_literal =? "f")%char then
      advance ;;;
      matched <- and_then (symbol_is "a") (and_then advance
                (and_then (symbol_is "l") (and_then advance
                (and_then (symbol_is "s") (and_then advance
                (and_then (symbol_is "e") advance)))))) ;;
      if matched then ret (true, false) else mismatch
    else mismatch.

(** Lines 450-451, 463-464, 481-482:
    [while (std::isdigit(m_state.symbol)) advance();] *)
Fixpoint skip_digits (n : nat) : M unit := fun s =>
  match n with
  | O => None
  | S n' =>
      if isdigit (symbol s) then (advance ;;; skip_digits n') s
      else Some (tt, s)
  end.

(** Line 190. *)
Definition MAX_NUMBER_LENGTH : Z := 64.

(** Lines 438-483 of [read_double]: the grammar of the lexeme, from its
    first byte; [Some start_offset] when it is matched, [None] at a
    [return false]. *)
Definition read_double_grammar : M (option Z) :=
  s0 <- get ;;
  let start_offset := offset s0 in
  (if (symbol s0 =? "-")%char then advance ;;; ret tt else ret tt) ;;;
  s1 <- get ;;
  ok <- (if (symbol s1 =? "0")%char then advance ;;; ret true
         else if isdigit (symbol s1) then bounded skip_digits ;;; ret true
         else set_error NumberExpected ;;; ret false) ;;
  if negb ok then ret None
  else
    s2 <- get ;;
    (if (symbol s2 =? ".")%char then advance ;;; bounded skip_digits
     else ret tt) ;;;
    s3 <- get ;;
    ok <- (if (symbol s3 =? "e")%char || (symbol s3 =? "E")%char then
             advance ;;;
             s4 <- get ;;
             ok <- (if (symbol s4 =? "+")%char || (symbol s4 =? "-")%char
                    then advance ;;; ret true
                    else if negb (isdigit (symbol s4))
                    then set_error InvalidNumber ;;; ret false
                    else ret true) ;;
             if negb ok then ret false
             else bounded skip_digits ;;; ret true
           else ret true) ;;
    if negb ok then ret None else ret (Some start_offset).

(** Lines 435-483 of [read_double]: the skip, then the grammar. *)
Definition read_double_lexeme : M (option Z) :=
  ok <- skip_comments_and_whitespace_fail_if_eof ;;
  if negb ok then ret None else read_double_grammar.

(** [memcpy(slice, m_input + start_offset, length)] *)
Definition input_slice (start_offset len : Z) : list ascii :=
  firstn (Z.to_nat len) (skipn (Z.to_nat start_offset) m_input).

(** Lines 485-507 of [read_double]: the length check and the conversion.
    The second component is [value] after the call: line 499 assigns it
    before the check of line 501. *)
Definition read_double_convert (start_offset : Z) (value : double)
  : M (bool * double) := fun s =>
  let end_offset := size_t_wrap (offset s - 1) in
  let len := size_t_wrap (size_t_wrap (end_offset - start_offset) + 1) in
  if MAX_NUMBER_LENGTH <=? len then
    (set_error NumberIsTooLong ;;; ret (false, value)) s
  else
    let '(v, last_used_symbol) := strtod (input_slice start_offset len) in
    if negb (last_used_symbol =? len) then
      (set_error NumberCouldNotBeConverted ;;; ret (false, v)) s
    else Some ((true, v), s).

(** Lines 433-508. *)
Definition read_double (value : double) : M (bool * double) :=
  r <- read_double_lexeme ;;
  match r with
  | None => ret (false, value)
  | Some start_offset => read_double_convert start_offset value
  end.

(** Line 48-54. *)
Definition object_begins : M bool := read_opening_brace.
Definition object_begins_named (having_name : list ascii) : M bool :=
  and_then (read_key having_name) (and_then read_equal_sign object_begins).
Definition object_ends : M bool := read_closing_brace.
Definition array_begins : M bool := read_opening_bracket.
Definition array_begins_named (having_name : list ascii) : M bool :=
  and_then (read_key having_name) (and_then read_equal_sign read_opening_bracket).
Definition array_ends : M bool := read_closing_bracket.

(** Lines 56-80. *)
Definition try_array_begins (having_name : list ascii) : M bool :=
  s <- save_state ;;
  ok <- array_begins_named having_name ;;
  if negb ok then restore_state s ;;; ret false else ret true.

Definition try_array_ends : M bool :=
  s <- save_state ;;
  ok <- array_ends ;;
  if negb ok then restore_state s ;;; ret false else ret true.

(** [read_key(key) && read_equal_sign() && reader(value)] *)
Definition read_member {A} (key : list ascii) (reader : A -> M (bool * A))
  (value : A) : M (bool * A) :=
  ok <- and_then (read_key key) read_equal_sign ;;
  if ok then reader value else ret (false, value).

(** Lines 82-84: the overloads of [read] on a view, a bool and a double. *)
Definition read_StringView (key : list ascii) (value : StringView) :=
  read_member key read_string value.
Definition read_bool_member (key : list ascii) (value : bool) :=
  read_member key read_bool value.
Definition read_double_member (key : list ascii) (value : double) :=
  read_member key read_double value.

(** [values[i]] and [values[i] = v].  The caller owns an array of at least
    [num_elements] doubles; outside the list nothing is read or stored. *)
Definition values_at (values : list double) (i : Z) : double :=
  default double_zero (values !! Z.to_nat i).
Definition values_set (values : list double) (i : Z) (v : double) : list double :=
  <[Z.to_nat i := v]> values.

(** Lines 96-100: the [for] loop of [read(values, num_elements)], with [k]
    the iterations left, [k = num_elements - i]. *)
Fixpoint read_doubles_loop (k : nat) (i num_elements : Z) (values : list double)
  : M (bool * list double) :=
  match k with
  | O => ret (true, values)
  | S k' =>
      r <- read_double (values_at values i) ;;
      let '(ok, v) := r in
      let values' := values_set values i v in
      if negb ok then ret (false, values')
      else if i <? num_elements - 1 then
        comma <- read_comma ;;
        if negb comma then ret (false, values')
        else read_doubles_loop k' (i + 1) num_elements values'
      else read_doubles_loop k' (i + 1) num_elements values'
  end.

(** Lines 91-103. *)
Definition read_doubles (values : list double) (num_elements : Z)
  : M (bool * list double) :=
  if num_elements =? 0 then ret (true, values)
  else read_doubles_loop (Z.to_nat num_elements) 0 num_elements values.

(** Lines 86-89. *)
Definition read_doubles_member (key : list ascii) (values : list double)
  (num_elements : Z) : M (bool * list double) :=
  ok <- and_then (read_key key) (and_then read_equal_sign read_opening_bracket) ;;
  if negb ok then ret (false, values)
  else
    r <- read_doubles values num_elements ;;
    let '(ok, values') := r in
    if negb ok then ret (false, values')
    else
      ok <- read_closing_bracket ;;
      ret (ok, values').

(** Lines 105-117. *)
Definition try_read_StringView (key : list ascii) (value : StringView)
  : M (bool * StringView) :=
  s <- save_state ;;
  r <- read_StringView key value ;;
  let '(ok, value') := r in
  if negb ok then
    restore_state s ;;;
    ret (false, StringView_null)
  else ret (true, value').

(** Lines 127-128. *)
Fixpoint zero_fill (k : nat) (i : Z) (values : list double) : list double :=
  match k with
  | O => values
  | S k' => zero_fill k' (i + 1) (values_set values i double_zero)
  end.

(** Lines 119-134. *)
Definition try_read_doubles (key : list ascii) (values : list double)
  (num_elements : Z) : M (bool * list double) :=
  s <- save_state ;;
  r <- read_doubles_member key values num_elements ;;
  let '(ok, values') := r in
  if negb ok then
    restore_state s ;;;
    ret (false, zero_fill (Z.to_nat num_elements) 0 values')
  else ret (true, values').

(** ** States

    The states the parser can be in: the one it is constructed with, and
    those [advance] and [set_error] lead to.  [restore_state] leads back to
    a state that was saved, so to nothing new. *)
Inductive reachable : ParserState -> Prop :=
| reachable_initial : reachable initial_state
| reachable_advance s b s' :
    reachable s -> advance s = Some (b, s') -> reachable s'
| reachable_set_error s e s' :
    reachable s -> set_error e s = Some (tt, s') -> reachable s'.

(** The invariant of the cursor (section 3 of the specification): the offset
    lies in the input or just behind it, and the symbol is the byte under
    the cursor, or NUL at the end of the input. *)
Definition well_formed (s : ParserState) : Prop :=
  0 <= offset s <= m_input_length /\
  symbol s = (if eof s then zero else input_at (offset s)).

(** The column of a cursor that sits on a newline, and of one that sits on
    the first byte of a line. *)
Definition position_invariant (s : ParserState) : Prop :=
  (offset s < m_input_length -> input_at (offset s) = newline ->
   column s = 1) /\
  (0 < offset s < m_input_length ->
   input_at (offset s - 1) = newline -> input_at (offset s) <> newline ->
   column s = 2).

(** ** Calls that return

    [returns_at (m s) Q]: the call [m] in state [s] returns, with a result
    and a final state that satisfy [Q]. *)
Definition returns_at {A} (r : option (A * ParserState))
  (Q : A -> ParserState -> Prop) : Prop :=
  exists a s', r = Some (a, s') /\ Q a s'.

(** The bytes between the cursor and the end of the input. *)
Definition remaining (s : ParserState) : nat :=
  Z.to_nat (m_input_length - offset s).

(** At the end of the input the symbol is not a digit: what the digit loops
    of [read_double] need to leave. *)
Definition digit_safe (s : ParserState) : Prop :=
  eof s = true -> isdigit (symbol s) = false.

(** Every parsing operation of the public interface (all of it but the
    accessors [eof], [get_position] and [get_error], and [save_state],
    [restore_state] and [reset_state]), called in [s], returns and
    leaves a state in [I]. *)
Definition operations_keep (I : ParserState -> Prop) (s : ParserState) : Prop :=
  (forall op : M bool,
     In op [object_begins; object_ends; array_begins; array_ends;
            try_array_ends; skip_comments_and_whitespace;
            remainder_is_comments_and_whitespace] ->
     returns_at (op s) (fun _ => I)) /\
  (forall name,
     returns_at (object_begins_named name s) (fun _ => I) /\
     returns_at (array_begins_named name s) (fun _ => I) /\
     returns_at (try_array_begins name s) (fun _ => I)) /\
  (forall key view flag number values num_elements,
     returns_at (read_StringView key view s) (fun _ => I) /\
     returns_at (read_bool_member key flag s) (fun _ => I) /\
     returns_at (read_double_member key number s) (fun _ => I) /\
     returns_at (read_doubles values num_elements s) (fun _ => I) /\
     returns_at (read_doubles_member key values num_elements s)
       (fun _ => I) /\
     returns_at (try_read_StringView key view s) (fun _ => I) /\
     returns_at (try_read_doubles key values num_elements s) (fun _ => I)).

(** An invariant together with [digit_safe]. *)
Definition with_digit_safe (I : ParserState -> Prop) (s : ParserState) : Prop :=
  I s /\ digit_safe s.

(** The state [s] is well-formed and [l] is the input from its cursor on. *)
Definition reads (s : ParserState) (l : list ascii) : Prop :=
  well_formed s /\ skipn (Z.to_nat (offset s)) m_input = l.


(** The bytes the cursor of [s] has landed on since the parser was
    constructed on the first byte: those at the offsets 1 to [offset s]. *)
Definition landed (s : ParserState) : list ascii :=
  firstn (Z.to_nat (offset s)) (tl m_input).

(** Lines 467-483 of [read_double], with what follows them in
    [read_double_grammar]: the exponent. *)
Definition grammar_exponent (start_offset : Z) : M (option Z) :=
  s3 <- get ;;
  ok <- (if (symbol s3 =? "e")%char || (symbol s3 =? "E")%char then
           advance ;;;
           s4 <- get ;;
           ok <- (if (symbol s4 =? "+")%char || (symbol s4 =? "-")%char
                  then advance ;;; ret true
                  else if negb (isdigit (symbol s4))
                  then set_error InvalidNumber ;;; ret false
                  else ret true) ;;
           if negb ok then ret false
           else bounded skip_digits ;;; ret true
         else ret true) ;;
  if negb ok then ret None else ret (Some start_offset).

(** Lines 459-483: the fraction and the exponent. *)
Definition grammar_fraction (start_offset : Z) : M (option Z) :=
  s2 <- get ;;
  (if (symbol s2 =? ".")%char then advance ;;; bounded skip_digits
   else ret tt) ;;;
  grammar_exponent start_offset.

(** Lines 444-483: the integer part, the fraction and the exponent. *)
Definition grammar_integer (start_offset : Z) : M (option Z) :=
  s1 <- get ;;
  ok <- (if (symbol s1 =? "0")%char then advance ;;; ret true
         else if isdigit (symbol s1) then bounded skip_digits ;;; ret true
         else set_error NumberExpected ;;; ret false) ;;
  if negb ok then ret None else grammar_fraction start_offset.

(** The result [r] of a part of the grammar run in [s], on the input [l]
    from the cursor of [s] on, amounts to [res]: the lexeme is matched and
    the cursor is behind it, with the error of [s]; or the error is
    recorded at the cursor, behind the bytes read. *)
Definition scans (r : option (option Z * ParserState)) (s : ParserState)
  (start_offset : Z) (l : list ascii) (res : lexeme_result) : Prop :=
  match res with
  | Lexeme n =>
      exists s', r = Some (Some start_offset, s') /\
                 reads s' (skipn n l) /\ error s' = error s
  | LexemeError e k =>
      exists s', r = Some (None, s') /\ reads s' (skipn k l) /\
                 error s' = mkParserError e (line s') (column s')
  end.

(** An error is recorded, at the position of the cursor. *)
Definition failed (s : ParserState) : Prop :=
  pe_error (error s) <> None_ /\
  pe_line (error s) = line s /\ pe_column (error s) = column s.

(** What a call in [s] that returned [ok] has done with the error: left it
    as it was, or recorded one where the cursor now is. *)
Definition settled (s : ParserState) (ok : bool) (s' : ParserState) : Prop :=
  if ok then error s' = error s else failed s'.

(** Every call of [m] that returns is [settled], with [okf] reading the
    success off the result. *)
Definition settles {A} (okf : A -> bool) (m : M A) : Prop :=
  forall s a s', m s = Some (a, s') -> settled s (okf a) s'.

(** [m], run behind a failure, returns a failure. *)
Definition relays {A} (okf : A -> bool) (m : M A) : Prop :=
  forall s a s', failed s -> m s = Some (a, s') -> okf a = false /\ failed s'.

(** The parsing operations of the public interface return, and settle the
    error by their result; those that try leave the error as it was. *)
Definition operations_settle (s : ParserState) : Prop :=
  (forall op : M bool,
     In op [object_begins; object_ends; array_begins; array_ends;
            skip_comments_and_whitespace;
            remainder_is_comments_and_whitespace] ->
     returns_at (op s) (settled s)) /\
  (forall name,
     returns_at (object_begins_named name s) (settled s) /\
     returns_at (array_begins_named name s) (settled s) /\
     returns_at (try_array_begins name s) (fun _ s' => error s' = error s)) /\
  returns_at (try_array_ends s) (fun _ s' => error s' = error s) /\
  (forall key view flag number values num_elements,
     returns_at (read_StringView key view s) (fun r => settled s (fst r)) /\
     returns_at (read_bool_member key flag s) (fun r => settled s (fst r)) /\
     returns_at (read_double_member key number s)
       (fun r => settled s (fst r)) /\
     returns_at (read_doubles values num_elements s)
       (fun r => settled s (fst r)) /\
     returns_at (read_doubles_member key values num_elements s)
       (fun r => settled s (fst r)) /\
     returns_at (try_read_StringView key view s)
       (fun _ s' => error s' = error s) /\
     returns_at (try_read_doubles key values num_elements s)
       (fun _ s' => error s' = error s)).


(** Two states with the same cursor: they differ in the error at most. *)
Definition same_cursor (s t : ParserState) : Prop :=
  offset s = offset t /\ line s = line t /\ column s = column t /\
  symbol s = symbol t.

(** Two calls agree: both run out of their bound, or both return, the same
    result, with the same cursor. *)
Definition agree {A} (r1 r2 : option (A * ParserState)) : Prop :=
  match r1, r2 with
  | Some (a, s'), Some (b, t') => a = b /\ same_cursor s' t'
  | None, None => True
  | _, _ => False
  end.

Definition alike {A} (m1 m2 : M A) : Prop :=
  forall s t, same_cursor s t -> agree (m1 s) (m2 t).

(** The call of [m] in [s] returns, and in [t] it returns the same result
    with the same cursor. *)
Definition echoes {A} (m : M A) (s t : ParserState) : Prop :=
  returns_at (m s)
    (fun a s' => exists t', m t = Some (a, t') /\ same_cursor s' t').

Definition operations_echo (s t : ParserState) : Prop :=
  (forall op : M bool,
     In op [object_begins; object_ends; array_begins; array_ends;
            try_array_ends; skip_comments_and_whitespace;
            remainder_is_comments_and_whitespace] ->
     echoes op s t) /\
  (forall name,
     echoes (object_begins_named name) s t /\
     echoes (array_begins_named name) s t /\
     echoes (try_array_begins name) s t) /\
  (forall key view flag number values num_elements,
     echoes (read_StringView key view) s t /\
     echoes (read_bool_member key flag) s t /\
     echoes (read_double_member key number) s t /\
     echoes (read_doubles values num_elements) s t /\
     echoes (read_doubles_member key values num_elements) s t /\
     echoes (try_read_StringView key view) s t /\
     echoes (try_read_doubles key values num_elements) s t).

End Parser.

(** * Scenarios *)

Definition bytes (text : string) : list ascii := list_ascii_of_string text.

(** The state with the cursor at [o], line [l] and column [c], on the
    symbol [b], and no error. *)
Definition state_at (o l c : Z) (b : ascii) : ParserState :=
  mkParserState o l c b (mkParserError None_ 0 0).

(** A line comment, a newline, and content: the bytes of [// a], a newline
    and [x]. *)
Definition comment_line_input : ParserInput :=
  bytes "// a" ++ [newline] ++ bytes "x".

(** A file that ends with a line comment and a newline. *)
Definition trailing_comment_input : ParserInput := bytes "// a" ++ [newline].

(** Two block comments with a space between them, then content. *)
Definition two_comments_input : ParserInput := bytes "/*a*/ /*b*/x".

(** The configuration of section 8 of the specification: the line comment
    [// cfg], then [name = "hello"] and [count = 3.5], each line closed by a
    newline. *)
Definition config_input : ParserInput :=
  bytes "// cfg" ++ [newline] ++
  bytes "name = " ++ [quotation_mark] ++ bytes "hello" ++ [quotation_mark] ++
  [newline] ++ bytes "count = 3.5" ++ [newline].

(** [beginObject()], then [read("name", slice)], then [read("count", d)] on
    [config_input], from the initial state. *)
Definition config_scenario
  : option (bool * (bool * StringView) * (bool * double) * ParserState) :=
  (begun <- object_begins (input := config_input) ;;
   name <- read_StringView (input := config_input) (bytes "name")
             StringView_null ;;
   count <- read_double_member (conversion := strtod_decimal)
              (input := config_input) (bytes "count") double_zero ;;
   ret (begun, name, count))
    (initial_state (input := config_input)).

(** 3.5, that is 7 * 2^-1. *)
Definition double_3_5 : double := binary_normalize 53 1024 7 (-1) false.

(** [name = 1] *)
Definition name_input : ParserInput := bytes "name = 1".

(** quote, a, backslash, quote, b, quote *)
Definition escaped_input : ParserInput :=
  [quotation_mark; "a"%char; backslash; quotation_mark; "b"%char;
   quotation_mark].

(** A literal [true] with token characters right behind it. *)
Definition truest_input : ParserInput := bytes "truest".


(** An array whose second element is no number. *)
Definition broken_array_input : ParserInput := bytes "v = [1, x]".

(** [a], a newline, [b] *)
Definition two_lines_input : ParserInput := ["a"%char; newline; "b"%char].


(** Nothing at all. *)
Definition empty_input : ParserInput := [].

(** An array of the key [v] that is not closed. *)
Definition open_array_input : ParserInput := bytes "v = [1, 2".

(** A slash that opens no comment, behind a space. *)
Definition stray_slash_input : ParserInput := bytes " /x".

(** An object that opens and closes. *)
Definition braces_input : ParserInput := bytes " { }".


(** The last element of an array. *)
Definition last_element_input : ParserInput := bytes " 3.5]".

(** A member, a quoted string and a literal, each behind a block comment
    and a space, and behind a line comment and its newline. *)
Definition commented_key_input : ParserInput := bytes "/*c*/ name = 1".
Definition commented_key_line_input : ParserInput :=
  bytes "// c" ++ [newline] ++ bytes "name = 1".
Definition commented_string_input : ParserInput :=
  bytes "/*c*/ " ++ [quotation_mark] ++ bytes "ab" ++ [quotation_mark].
Definition commented_string_line_input : ParserInput :=
  bytes "// c" ++ [newline; quotation_mark] ++ bytes "ab" ++ [quotation_mark].
Definition commented_true_input : ParserInput := bytes "/*c*/ true".
Definition commented_true_line_input : ParserInput :=
  bytes "// c" ++ [newline] ++ bytes "true".

(** * Properties *)

Section Properties.

Context {conversion : Strtod} {input : ParserInput}.

(** ** Calls that return *)


Lemma returns_ret {A} (a : A) s (Q : A -> ParserState -> Prop) :
  Q a s -> returns_at (ret a s) Q.
Proof. intros H. exists a, s. split; [reflexivity | exact H]. Qed.

Lemma returns_value {A} (a : A) s' (Q : A -> ParserState -> Prop) :
  Q a s' -> returns_at (Some (a, s')) Q.
Proof. intros H. exists a, s'. split; [reflexivity | exact H]. Qed.

Lemma returns_bind {A B} (m : M A) (f : A -> M B) s
  (R : A -> ParserState -> Prop) (Q : B -> ParserState -> Prop) :
  returns_at (m s) R ->
  (forall a s1, R a s1 -> returns_at (f a s1) Q) ->
  returns_at (bind m f s) Q.
Proof.
  intros (a & s1 & E & HR) Hf.
  destruct (Hf a s1 HR) as (b & s2 & E2 & HQ).
  exists b, s2. split; [| exact HQ].
  unfold bind. rewrite E. exact E2.
Qed.

Lemma returns_mono {A} (m : M A) s (Q Q' : A -> ParserState -> Prop) :
  returns_at (m s) Q -> (forall a s', Q a s' -> Q' a s') -> returns_at (m s) Q'.
Proof.
  intros (a & s' & E & H) HQ. exists a, s'. split; [exact E | auto].
Qed.

Lemma returns_and_then (a b : M bool) s (I : ParserState -> Prop) :
  returns_at (a s) (fun _ => I) ->
  (forall s1, I s1 -> returns_at (b s1) (fun _ => I)) ->
  returns_at (and_then a b s) (fun _ => I).
Proof.
  intros Ha Hb. unfold and_then.
  apply returns_bind with (R := fun _ => I); [exact Ha |].
  intros [] s1 H1; [apply Hb; exact H1 | apply returns_ret; exact H1].
Qed.

Lemma returns_get {B} (f : ParserState -> M B) s
  (Q : B -> ParserState -> Prop) :
  returns_at (f s s) Q -> returns_at (bind get f s) Q.
Proof. intros H. exact H. Qed.

Lemma bind_eq {A B} (m : M A) (f : A -> M B) s a s1 :
  m s = Some (a, s1) -> bind m f s = f a s1.
Proof. intros E. unfold bind. rewrite E. reflexivity. Qed.

Lemma bind_Some {A B} (m : M A) (f : A -> M B) s r :
  bind m f s = Some r <->
  exists a s1, m s = Some (a, s1) /\ f a s1 = Some r.
Proof.
  unfold bind. split.
  - destruct (m s) as [[a s1] |]; [| discriminate].
    intros H. exists a, s1. split; [reflexivity | exact H].
  - intros (a & s1 & E & H). rewrite E. exact H.
Qed.

(** ** The scanner one byte at a time *)

Lemma advance_eof s : eof s = true -> advance s = Some (false, s).
Proof. intros E. unfold advance. rewrite E. reflexivity. Qed.

Lemma advance_not_eof s :
  eof s = false ->
  exists s', advance s = Some (true, s') /\
    offset s' = offset s + 1 /\ error s' = error s /\
    symbol s' = (if eof s' then zero else input_at (offset s')).
Proof.
  intros E. unfold advance. rewrite E.
  destruct (m_input_length <=? offset s + 1) eqn:E1.
  - eexists; split; [reflexivity |]. unfold eof; simpl. rewrite E1. auto.
  - destruct (input_at (offset s + 1) =? newline)%char eqn:E2;
      (eexists; split; [reflexivity |]); unfold eof; simpl; rewrite E1; auto.
Qed.

Lemma advance_cases s :
  (eof s = true /\ advance s = Some (false, s)) \/
  (eof s = false /\ exists s', advance s = Some (true, s') /\
     offset s' = offset s + 1 /\ error s' = error s /\
     symbol s' = (if eof s' then zero else input_at (offset s'))).
Proof.
  destruct (eof s) eqn:E.
  - left. split; [reflexivity | apply advance_eof; exact E].
  - right. split; [reflexivity | apply advance_not_eof; exact E].
Qed.


Lemma remaining_advance s s' :
  eof s = false -> offset s' = offset s + 1 -> S (remaining s') = remaining s.
Proof.
  unfold eof, remaining. intros E Ho. rewrite Ho.
  apply Z.leb_gt in E. lia.
Qed.

Lemma digit_safe_not_eof s : eof s = false -> digit_safe s.
Proof. unfold digit_safe. congruence. Qed.

(** ** Invariants of the scanner

    Whatever [advance] and [set_error] preserve, every parsing operation
    of the parser preserves: they move the cursor by [advance], record
    errors by [set_error], and restore only states they saved.  Each
    operation also returns: its loops leave within [loop_bound]. *)
Section Invariant.

Variable I : ParserState -> Prop.
Hypothesis I_advance : forall s b s', I s -> advance s = Some (b, s') -> I s'.
Hypothesis I_set_error :
  forall s e s', I s -> set_error e s = Some (tt, s') -> I s'.

Local Abbreviation J := (with_digit_safe I).

Lemma set_error_inv e s :
  I s -> returns_at (set_error e s) (fun _ s' => I s' /\ eof s' = eof s).
Proof.
  intros HI. eexists tt, _. split; [reflexivity |].
  split; [eapply I_set_error; [exact HI | reflexivity] | reflexivity].
Qed.

Lemma fail_inv {A} e (a : A) s :
  I s -> returns_at ((set_error e ;;; ret a) s) (fun _ => I).
Proof.
  intros HI. eapply returns_bind; [apply set_error_inv; exact HI |].
  intros ? s1 [H1 _]. apply returns_ret. exact H1.
Qed.

Lemma fail_inv_value {A} e (a : A) s :
  I s -> returns_at ((set_error e ;;; ret a) s) (fun r s' => r = a /\ I s').
Proof.
  intros HI. eapply returns_bind; [apply set_error_inv; exact HI |].
  intros ? s1 [H1 _]. apply returns_ret. auto.
Qed.

Lemma advance_step s :
  I s -> eof s = false ->
  returns_at (advance s)
    (fun _ s' => I s' /\ S (remaining s') = remaining s /\ digit_safe s').
Proof.
  intros HI E. destruct (advance_not_eof s E) as (s' & Ea & Ho & _ & Hs).
  exists true, s'. split; [exact Ea |]. split; [eapply I_advance; eauto |].
  split; [apply remaining_advance; assumption |].
  intros E'. rewrite Hs, E'. reflexivity.
Qed.

Lemma advance_inv s :
  I s ->
  returns_at (advance s)
    (fun _ s' => I s' /\ (remaining s' <= remaining s)%nat /\
                 (digit_safe s -> digit_safe s')).
Proof.
  intros HI. destruct (eof s) eqn:E.
  - exists false, s. split; [apply advance_eof; exact E |]. auto.
  - destruct (advance_step s HI E) as (b & s' & Ea & HI' & Hr & Hd).
    exists b, s'. split; [exact Ea |]. split; [exact HI' |]. split; [lia | auto].
Qed.

Lemma read_comment_line_inv n s :
  I s -> (remaining s < n)%nat ->
  returns_at (read_comment_line n s) (fun _ => I).
Proof.
  revert s. induction n as [| n IH]; intros s HI Hn; [lia |]. simpl.
  destruct (negb (eof s) && negb (symbol s =? newline)%char) eqn:E.
  - apply andb_true_iff in E as [E _]. apply negb_true_iff in E.
    eapply returns_bind; [apply advance_step; assumption |].
    intros ? s1 (H1 & Hr & _). apply IH; [exact H1 | lia].
  - apply returns_value; exact HI.
Qed.

Lemma read_comment_block_inv n w s :
  I s -> (remaining s < n)%nat ->
  returns_at (read_comment_block n w s) (fun _ => I).
Proof.
  revert w s. induction n as [| n IH]; intros w s HI Hn; [lia |]. simpl.
  destruct (eof s) eqn:E; [apply fail_inv; exact HI |].
  destruct (symbol s =? "*")%char.
  - eapply returns_bind; [apply advance_step; assumption |].
    intros ? s1 (H1 & Hr & _). apply IH; [exact H1 | lia].
  - destruct (w && (symbol s =? "/")%char).
    + eapply returns_bind; [apply advance_step; assumption |].
      intros ? s1 (H1 & _). apply returns_ret. exact H1.
    + eapply returns_bind; [apply advance_step; assumption |].
      intros ? s1 (H1 & Hr & _). apply IH; [exact H1 | lia].
Qed.

Lemma bounded_lt s : (remaining s < loop_bound s)%nat.
Proof. unfold remaining, loop_bound. lia. Qed.

Lemma read_comment_inv s : I s -> returns_at (read_comment s) (fun _ => I).
Proof.
  intros HI. unfold read_comment.
  destruct (eof s) eqn:E; [apply fail_inv; exact HI |].
  destruct (symbol s =? "/")%char.
  - eapply returns_bind;
      [apply read_comment_line_inv; [exact HI | apply bounded_lt] |].
    intros ? s1 H1. apply returns_ret. exact H1.
  - destruct (symbol s =? "*")%char; [| apply fail_inv; exact HI].
    eapply returns_bind; [apply advance_step; assumption |].
    intros ? s1 (H1 & _).
    apply read_comment_block_inv; [exact H1 | apply bounded_lt].
Qed.

Lemma skip_comments_and_whitespace_loop_inv n s :
  I s -> (remaining s < n)%nat ->
  returns_at (skip_comments_and_whitespace_loop n s) (fun _ => I).
Proof.
  revert s. induction n as [| n IH]; intros s HI Hn; [lia |]. simpl.
  destruct (eof s) eqn:E; [apply returns_value; exact HI |].
  destruct (isspace (symbol s)).
  - eapply returns_bind; [apply advance_step; assumption |].
    intros ? s1 (H1 & Hr & _). apply IH; [exact H1 | lia].
  - destruct (symbol s =? "/")%char;
      [| apply returns_value; exact HI].
    eapply returns_bind; [apply advance_step; assumption |].
    intros ? s1 (H1 & _).
    eapply returns_bind; [apply read_comment_inv; exact H1 |].
    intros [] s2 H2; apply returns_ret; exact H2.
Qed.

Lemma skip_comments_and_whitespace_inv s :
  I s -> returns_at (skip_comments_and_whitespace s) (fun _ => I).
Proof.
  intros HI. apply skip_comments_and_whitespace_loop_inv;
    [exact HI | apply bounded_lt].
Qed.

Lemma skip_comments_and_whitespace_fail_if_eof_inv s :
  I s ->
  returns_at (skip_comments_and_whitespace_fail_if_eof s)
    (fun ok s' => I s' /\ (ok = true -> eof s' = false)).
Proof.
  intros HI. unfold skip_comments_and_whitespace_fail_if_eof.
  eapply returns_bind; [apply skip_comments_and_whitespace_inv; exact HI |].
  intros [] s1 H1; simpl.
  - destruct (eof s1) eqn:E.
    + eapply returns_mono; [apply fail_inv_value; exact H1 |].
      simpl. intros a s2 [-> H2]. split; [exact H2 | discriminate].
    + apply returns_value; auto.
  - apply returns_ret. split; [exact H1 | discriminate].
Qed.

Lemma remainder_is_comments_and_whitespace_inv s :
  I s -> returns_at (remainder_is_comments_and_whitespace s) (fun _ => I).
Proof.
  intros HI. unfold remainder_is_comments_and_whitespace.
  eapply returns_bind; [apply skip_comments_and_whitespace_inv; exact HI |].
  intros [] s1 H1; simpl; [| apply returns_ret; exact H1].
  destruct (eof s1); simpl;
    [apply returns_value; exact H1 | apply fail_inv; exact H1].
Qed.

Lemma read_symbol_inv expected reason s :
  I s -> returns_at (read_symbol expected reason s) (fun _ => I).
Proof.
  intros HI. unfold read_symbol.
  eapply returns_bind;
    [apply skip_comments_and_whitespace_fail_if_eof_inv; exact HI |].
  intros [] s1 [H1 He]; simpl; [| apply returns_ret; exact H1].
  destruct (symbol s1 =? expected)%char; [| apply fail_inv; exact H1].
  eapply returns_bind; [apply advance_inv; exact H1 |].
  intros ? s2 (H2 & _). apply returns_ret. exact H2.
Qed.

Lemma read_string_loop_inv n s :
  I s -> (remaining s < n)%nat ->
  returns_at (read_string_loop n s) (fun _ => I).
Proof.
  revert s. induction n as [| n IH]; intros s HI Hn; [lia |]. simpl.
  destruct (eof s) eqn:E; [apply fail_inv; exact HI |].
  destruct (symbol s =? quotation_mark)%char.
  - eapply returns_bind; [apply advance_step; assumption |].
    intros ? s1 (H1 & _). apply returns_ret. exact H1.
  - destruct (symbol s =? backslash)%char.
    + eapply returns_bind; [apply advance_step; assumption |].
      intros ? s1 (H1 & Hr & _).
      eapply returns_bind; [apply advance_inv; exact H1 |].
      intros ? s2 (H2 & Hr2 & _). apply IH; [exact H2 | lia].
    + eapply returns_bind; [apply advance_step; assumption |].
      intros ? s1 (H1 & Hr & _). apply IH; [exact H1 | lia].
Qed.

Lemma read_string_inv value s :
  I s -> returns_at (read_string value s) (fun _ => I).
Proof.
  intros HI. unfold read_string.
  eapply returns_bind;
    [apply skip_comments_and_whitespace_fail_if_eof_inv; exact HI |].
  intros [] s1 [H1 He]; simpl; [| apply returns_ret; exact H1].
  destruct (symbol s1 =? quotation_mark)%char; simpl;
    [| apply fail_inv; exact H1].
  eapply returns_bind; [apply advance_inv; exact H1 |].
  intros ? s2 (H2 & _). apply returns_get.
  eapply returns_bind;
    [apply read_string_loop_inv; [exact H2 | apply bounded_lt] |].
  intros [end_offset |] s5 H5; apply returns_ret; exact H5.
Qed.

Lemma read_unquoted_key_loop_inv n start_offset s :
  I s -> (remaining s < n)%nat ->
  returns_at (read_unquoted_key_loop n start_offset s) (fun _ => I).
Proof.
  revert s. induction n as [| n IH]; intros s HI Hn; [lia |]. simpl.
  destruct (eof s) eqn:E; [apply returns_value; exact HI |].
  destruct (symbol s =? quotation_mark)%char; [apply fail_inv; exact HI |].
  destruct (symbol s =? "=")%char.
  - destruct (offset s =? start_offset);
      [apply fail_inv; exact HI | apply returns_value; exact HI].
  - destruct (isspace (symbol s)).
    + eapply returns_bind; [apply advance_step; assumption |].
      intros ? s1 (H1 & _). apply returns_ret. exact H1.
    + eapply returns_bind; [apply advance_step; assumption |].
      intros ? s1 (H1 & Hr & _). apply IH; [exact H1 | lia].
Qed.

Lemma read_unquoted_key_inv value s :
  I s -> returns_at (read_unquoted_key value s) (fun _ => I).
Proof.
  intros HI. unfold read_unquoted_key.
  destruct (eof s) eqn:E; [apply fail_inv; exact HI |].
  eapply returns_bind;
    [apply read_unquoted_key_loop_inv; [exact HI | apply bounded_lt] |].
  intros [end_offset |] s1 H1; apply returns_ret; exact H1.
Qed.

Lemma restore_state_inv saved s :
  I saved -> returns_at (restore_state saved s) (fun _ => I).
Proof. intros H. apply returns_value. exact H. Qed.

Lemma read_key_inv having_name s :
  I s -> returns_at (read_key having_name s) (fun _ => I).
Proof.
  intros HI. unfold read_key.
  eapply returns_bind;
    [apply skip_comments_and_whitespace_fail_if_eof_inv; exact HI |].
  intros [] s1 [H1 He]; simpl; [| apply returns_ret; exact H1].
  unfold save_state. apply returns_get.
  eapply returns_bind with (R := fun _ => I).
  { destruct (symbol s1 =? quotation_mark)%char;
      [apply read_string_inv | apply read_unquoted_key_inv]; exact H1. }
  intros [[] actual] s3 H3; simpl; [| apply returns_ret; exact H3].
  destruct (StringView_differs actual having_name);
    [| apply returns_ret; exact H3].
  eapply returns_bind; [apply restore_state_inv; exact H1 |].
  intros ? s4 H4. apply fail_inv. exact H4.
Qed.

Lemma advance_inv' s : I s -> returns_at (advance s) (fun _ => I).
Proof.
  intros HI. eapply returns_mono; [apply advance_inv; exact HI |].
  simpl. intros _ s' (H & _). exact H.
Qed.

Lemma symbol_is_inv c s : I s -> returns_at (symbol_is c s) (fun _ => I).
Proof. intros HI. apply returns_value. exact HI. Qed.

Lemma read_bool_inv value s :
  I s -> returns_at (read_bool value s) (fun _ => I).
Proof.
  intros HI. unfold read_bool.
  eapply returns_bind;
    [apply skip_comments_and_whitespace_fail_if_eof_inv; exact HI |].
  intros [] s1 [H1 He]; simpl; [| apply returns_ret; exact H1].
  unfold save_state. apply returns_get.
  assert (Hmis : forall s2, returns_at
            ((restore_state s1 ;;; set_error TrueOrFalseExpected ;;;
              ret (false, value)) s2) (fun _ => I)).
  { intros s2. eapply returns_bind; [apply restore_state_inv; exact H1 |].
    intros ? s3 H3. apply fail_inv. exact H3. }
  destruct (symbol s1 =? "t")%char; [| destruct (symbol s1 =? "f")%char].
  - eapply returns_bind; [apply advance_inv'; exact H1 |].
    intros ? s2 H2.
    eapply returns_bind with (R := fun _ => I).
    { repeat (apply returns_and_then;
              [first [apply symbol_is_inv | apply advance_inv']; assumption
              | intros ? ?]).
      apply advance_inv'. assumption. }
    intros [] s3 H3; [apply returns_ret; exact H3 | apply Hmis].
  - eapply returns_bind; [apply advance_inv'; exact H1 |].
    intros ? s2 H2.
    eapply returns_bind with (R := fun _ => I).
    { repeat (apply returns_and_then;
              [first [apply symbol_is_inv | apply advance_inv']; assumption
              | intros ? ?]).
      apply advance_inv'. assumption. }
    intros [] s3 H3; [apply returns_ret; exact H3 | apply Hmis].
  - apply Hmis.
Qed.


Lemma advance_J s : J s -> returns_at (advance s) (fun _ => J).
Proof.
  intros [HI Hd]. eapply returns_mono; [apply advance_inv; exact HI |].
  simpl. intros _ s' (H & _ & H'). split; auto.
Qed.

Lemma fail_J {A} e (a : A) s :
  J s -> returns_at ((set_error e ;;; ret a) s) (fun r s' => r = a /\ J s').
Proof.
  intros [HI Hd]. eexists a, _. split; [reflexivity |]. split; [reflexivity |].
  split; [eapply I_set_error; [exact HI | reflexivity] | exact Hd].
Qed.

Lemma skip_digits_inv n s :
  J s -> (remaining s < n)%nat -> returns_at (skip_digits n s) (fun _ => J).
Proof.
  revert s. induction n as [| n IH]; intros s HJ Hn; [lia |]. simpl.
  destruct (isdigit (symbol s)) eqn:E; [| apply returns_value; exact HJ].
  destruct HJ as [HI Hd].
  assert (Ee : eof s = false).
  { destruct (eof s) eqn:Ee; [| reflexivity]. rewrite (Hd Ee) in E.
    discriminate. }
  eapply returns_bind; [apply advance_step; assumption |].
  intros ? s1 (H1 & Hr & Hd1). apply IH; [split; assumption | lia].
Qed.

Lemma read_double_grammar_inv s0 :
  J s0 ->
  returns_at (read_double_grammar s0)
    (fun r s' => J s' /\ forall start, r = Some start -> start = offset s0).
Proof.
  intros J0. unfold read_double_grammar. apply returns_get.
  eapply returns_bind with (R := fun _ => J).
  { destruct (symbol s0 =? "-")%char; [| apply returns_ret; exact J0].
    eapply returns_bind; [apply advance_J; exact J0 |].
    intros ? s1 J1. apply returns_ret. exact J1. }
  intros _ s1 J1. apply returns_get.
  eapply returns_bind with (R := fun _ => J).
  { destruct (symbol s1 =? "0")%char; [| destruct (isdigit (symbol s1))].
    - eapply returns_bind; [apply advance_J; exact J1 |].
      intros ? s2 J2. apply returns_ret. exact J2.
    - eapply returns_bind;
        [apply skip_digits_inv; [exact J1 | apply bounded_lt] |].
      intros ? s2 J2. apply returns_ret. exact J2.
    - eapply returns_mono; [apply fail_J; exact J1 |].
      simpl. intros ? ? [_ ?]. assumption. }
  intros [] s2 J2; simpl;
    [| apply returns_ret; split; [exact J2 | discriminate]].
  apply returns_get.
  eapply returns_bind with (R := fun _ => J).
  { destruct (symbol s2 =? ".")%char; [| apply returns_ret; exact J2].
    eapply returns_bind; [apply advance_J; exact J2 |].
    intros ? s3 J3. apply skip_digits_inv; [exact J3 | apply bounded_lt]. }
  intros _ s3 J3. apply returns_get.
  eapply returns_bind with (R := fun _ => J).
  { destruct ((symbol s3 =? "e")%char || (symbol s3 =? "E")%char);
      [| apply returns_ret; exact J3].
    eapply returns_bind; [apply advance_J; exact J3 |].
    intros ? s4 J4. apply returns_get.
    eapply returns_bind with (R := fun _ => J).
    { destruct ((symbol s4 =? "+")%char || (symbol s4 =? "-")%char);
        [| destruct (negb (isdigit (symbol s4)))].
      - eapply returns_bind; [apply advance_J; exact J4 |].
        intros ? s5 J5. apply returns_ret. exact J5.
      - eapply returns_mono; [apply fail_J; exact J4 |].
        simpl. intros ? ? [_ ?]. assumption.
      - apply returns_ret. exact J4. }
    intros [] s5 J5; simpl; [| apply returns_ret; exact J5].
    eapply returns_bind;
      [apply skip_digits_inv; [exact J5 | apply bounded_lt] |].
    intros ? s6 J6. apply returns_ret. exact J6. }
  intros [] s4 J4; simpl; apply returns_ret;
    (split; [exact J4 | intros start H; inversion H; reflexivity
                        || discriminate]).
Qed.

Lemma read_double_lexeme_inv s :
  I s -> returns_at (read_double_lexeme s) (fun _ => I).
Proof.
  intros HI. unfold read_double_lexeme.
  eapply returns_bind;
    [apply skip_comments_and_whitespace_fail_if_eof_inv; exact HI |].
  intros [] s0 [H0 He]; simpl; [| apply returns_ret; exact H0].
  eapply returns_mono; [apply read_double_grammar_inv |].
  - split; [exact H0 | apply digit_safe_not_eof; auto].
  - simpl. intros ? ? [[? _] _]. assumption.
Qed.

Lemma read_double_convert_inv start_offset value s :
  I s -> returns_at (read_double_convert start_offset value s) (fun _ => I).
Proof.
  intros HI. unfold read_double_convert.
  destruct (MAX_NUMBER_LENGTH <=? _); [apply fail_inv; exact HI |].
  destruct (strtod _) as [v used].
  destruct (negb (used =? _));
    [apply fail_inv; exact HI | apply returns_value; exact HI].
Qed.

Lemma read_double_inv value s :
  I s -> returns_at (read_double value s) (fun _ => I).
Proof.
  intros HI. unfold read_double.
  eapply returns_bind; [apply read_double_lexeme_inv; exact HI |].
  intros [start_offset |] s1 H1;
    [apply read_double_convert_inv | apply returns_ret]; exact H1.
Qed.

Lemma key_and_equal_sign_inv key s :
  I s -> returns_at (and_then (read_key key) read_equal_sign s) (fun _ => I).
Proof.
  intros HI. apply returns_and_then; [apply read_key_inv; exact HI |].
  intros s1 H1. apply read_symbol_inv. exact H1.
Qed.

Lemma object_begins_named_inv having_name s :
  I s -> returns_at (object_begins_named having_name s) (fun _ => I).
Proof.
  intros HI. apply returns_and_then; [apply read_key_inv; exact HI |].
  intros s1 H1. apply returns_and_then; [apply read_symbol_inv; exact H1 |].
  intros s2 H2. apply read_symbol_inv. exact H2.
Qed.

Lemma array_begins_named_inv having_name s :
  I s -> returns_at (array_begins_named having_name s) (fun _ => I).
Proof.
  intros HI. apply returns_and_then; [apply read_key_inv; exact HI |].
  intros s1 H1. apply returns_and_then; [apply read_symbol_inv; exact H1 |].
  intros s2 H2. apply read_symbol_inv. exact H2.
Qed.

Lemma try_array_begins_inv having_name s :
  I s -> returns_at (try_array_begins having_name s) (fun _ => I).
Proof.
  intros HI. unfold try_array_begins, save_state. apply returns_get.
  eapply returns_bind; [apply array_begins_named_inv; exact HI |].
  intros [] s1 H1; simpl; [apply returns_ret; exact H1 |].
  eapply returns_bind; [apply restore_state_inv; exact HI |].
  intros ? s2 H2. apply returns_ret. exact H2.
Qed.

Lemma try_array_ends_inv s :
  I s -> returns_at (try_array_ends s) (fun _ => I).
Proof.
  intros HI. unfold try_array_ends, save_state. apply returns_get.
  eapply returns_bind; [apply read_symbol_inv; exact HI |].
  intros [] s1 H1; simpl; [apply returns_ret; exact H1 |].
  eapply returns_bind; [apply restore_state_inv; exact HI |].
  intros ? s2 H2. apply returns_ret. exact H2.
Qed.

Lemma read_member_inv {A} key (reader : A -> M (bool * A)) value s :
  (forall v s1, I s1 -> returns_at (reader v s1) (fun _ => I)) ->
  I s -> returns_at (read_member key reader value s) (fun _ => I).
Proof.
  intros Hr HI. unfold read_member.
  eapply returns_bind; [apply key_and_equal_sign_inv; exact HI |].
  intros [] s1 H1; [apply Hr | apply returns_ret]; exact H1.
Qed.

Lemma read_StringView_inv key value s :
  I s -> returns_at (read_StringView key value s) (fun _ => I).
Proof. apply read_member_inv. exact read_string_inv. Qed.

Lemma read_bool_member_inv key value s :
  I s -> returns_at (read_bool_member key value s) (fun _ => I).
Proof. apply read_member_inv. exact read_bool_inv. Qed.

Lemma read_double_member_inv key value s :
  I s -> returns_at (read_double_member key value s) (fun _ => I).
Proof. apply read_member_inv. exact read_double_inv. Qed.

Lemma read_doubles_loop_inv k i num_elements values s :
  I s ->
  returns_at (read_doubles_loop k i num_elements values s)
    (fun r s' => I s' /\ length (snd r) = length values).
Proof.
  revert i values s. induction k as [| k IH]; intros i values s HI; simpl.
  - apply returns_ret. auto.
  - eapply returns_bind; [apply read_double_inv; exact HI |].
    intros [ok v] s1 H1.
    assert (Hl : length (values_set values i v) = length values)
      by apply length_insert.
    destruct ok; simpl; [| apply returns_ret; auto].
    destruct (i <? num_elements - 1).
    + eapply returns_bind; [apply read_symbol_inv; exact H1 |].
      intros [] s2 H2; simpl; [| apply returns_ret; auto].
      eapply returns_mono; [apply IH; exact H2 |].
      simpl. intros r s3 [H3 Hl3]. split; [exact H3 | congruence].
    + eapply returns_mono; [apply IH; exact H1 |].
      simpl. intros r s3 [H3 Hl3]. split; [exact H3 | congruence].
Qed.

Lemma read_doubles_inv values num_elements s :
  I s ->
  returns_at (read_doubles values num_elements s)
    (fun r s' => I s' /\ length (snd r) = length values).
Proof.
  intros HI. unfold read_doubles.
  destruct (num_elements =? 0); [apply returns_ret; auto |].
  apply read_doubles_loop_inv. exact HI.
Qed.

Lemma read_doubles_member_inv key values num_elements s :
  I s ->
  returns_at (read_doubles_member key values num_elements s)
    (fun r s' => I s' /\ length (snd r) = length values).
Proof.
  intros HI. unfold read_doubles_member.
  eapply returns_bind with (R := fun _ => I).
  { apply returns_and_then; [apply read_key_inv; exact HI |].
    intros s1 H1. apply returns_and_then; [apply read_symbol_inv; exact H1 |].
    intros s2 H2. apply read_symbol_inv. exact H2. }
  intros [] s1 H1; simpl; [| apply returns_ret; auto].
  eapply returns_bind; [apply read_doubles_inv; exact H1 |].
  intros [[] values'] s2 [H2 Hl]; simpl in *; [| apply returns_ret; auto].
  eapply returns_bind; [apply read_symbol_inv; exact H2 |].
  intros ok s3 H3. apply returns_ret. auto.
Qed.

Lemma try_read_StringView_inv key value s :
  I s -> returns_at (try_read_StringView key value s) (fun _ => I).
Proof.
  intros HI. unfold try_read_StringView, save_state. apply returns_get.
  eapply returns_bind; [apply read_StringView_inv; exact HI |].
  intros [[] value'] s1 H1; simpl; [apply returns_ret; exact H1 |].
  eapply returns_bind; [apply restore_state_inv; exact HI |].
  intros ? s2 H2. apply returns_ret. exact H2.
Qed.

Lemma try_read_doubles_inv key values num_elements s :
  I s -> returns_at (try_read_doubles key values num_elements s) (fun _ => I).
Proof.
  intros HI. unfold try_read_doubles, save_state. apply returns_get.
  eapply returns_bind; [apply read_doubles_member_inv; exact HI |].
  intros [[] values'] s1 [H1 _]; simpl; [apply returns_ret; exact H1 |].
  eapply returns_bind; [apply restore_state_inv; exact HI |].
  intros ? s2 H2. apply returns_ret. exact H2.
Qed.

Lemma operations_preserve s : I s -> operations_keep I s.
Proof.
  intros HI. split; [| split].
  - intros op Hop. simpl in Hop.
    repeat (destruct Hop as [<- | Hop]); try contradiction;
      first [ apply read_symbol_inv; exact HI
            | apply try_array_ends_inv; exact HI
            | apply skip_comments_and_whitespace_inv; exact HI
            | apply remainder_is_comments_and_whitespace_inv; exact HI ].
  - intros name. split; [| split].
    + apply object_begins_named_inv; exact HI.
    + apply array_begins_named_inv; exact HI.
    + apply try_array_begins_inv; exact HI.
  - intros key view flag number values num_elements.
    split; [apply read_StringView_inv; exact HI |].
    split; [apply read_bool_member_inv; exact HI |].
    split; [apply read_double_member_inv; exact HI |].
    split.
    { eapply returns_mono; [apply read_doubles_inv; exact HI |].
      simpl. intros ? ? [H _]. exact H. }
    split.
    { eapply returns_mono; [apply read_doubles_member_inv; exact HI |].
      simpl. intros ? ? [H _]. exact H. }
    split; [apply try_read_StringView_inv; exact HI |].
    apply try_read_doubles_inv; exact HI.
Qed.

End Invariant.

(** ** Reachable states *)

Lemma well_formed_initial : well_formed initial_state.
Proof.
  unfold well_formed, initial_state, eof; simpl. split.
  - unfold m_input_length. lia.
  - destruct (0 <? m_input_length) eqn:E.
    + apply Z.ltb_lt in E. destruct (m_input_length <=? 0) eqn:E'; [| reflexivity].
      apply Z.leb_le in E'. lia.
    + apply Z.ltb_ge in E. destruct (m_input_length <=? 0) eqn:E'; [reflexivity |].
      apply Z.leb_gt in E'. lia.
Qed.

Lemma well_formed_advance s b s' :
  well_formed s -> advance s = Some (b, s') -> well_formed s'.
Proof.
  intros [Ho Hs] Ea. destruct (advance_cases s) as [[E Ea'] | [E (s1 & Ea' & Ho1 & _ & Hs1)]];
    rewrite Ea' in Ea; inversion Ea; subst.
  - split; assumption.
  - split; [| exact Hs1]. unfold eof in E. apply Z.leb_gt in E. lia.
Qed.

Lemma well_formed_set_error s e s' :
  well_formed s -> set_error e s = Some (tt, s') -> well_formed s'.
Proof. intros H E. inversion E; subst. exact H. Qed.

Lemma reachable_well_formed s : reachable s -> well_formed s.
Proof.
  induction 1 as [| s b s' _ IH Ea | s e s' _ IH Ee].
  - apply well_formed_initial.
  - eapply well_formed_advance; eassumption.
  - eapply well_formed_set_error; eassumption.
Qed.

(** Every parsing operation of the public interface returns, and leads
    from a reachable state to a reachable state. *)
Lemma operations_reachable s :
  reachable s -> operations_keep reachable s.
Proof.
  apply operations_preserve;
    [exact reachable_advance | exact reachable_set_error].
Qed.

(** From a well-formed state to a well-formed state. *)
Lemma operations_well_formed s :
  well_formed s -> operations_keep well_formed s.
Proof.
  apply operations_preserve;
    [exact well_formed_advance | exact well_formed_set_error].
Qed.

(** And every parsing operation returns, in whatever state it is called. *)
Lemma operations_return s : operations_keep (fun _ => True) s.
Proof. apply operations_preserve; auto. Qed.

Lemma eof_offset s :
  well_formed s -> eof s = true <-> offset s = m_input_length.
Proof.
  intros [Ho _]. unfold eof. rewrite Z.leb_le. lia.
Qed.

Lemma position_invariant_reachable s : reachable s -> position_invariant s.
Proof.
  induction 1 as [| s b s' Hr IH Ea | s e s' _ IH Ee].
  - unfold position_invariant, initial_state; simpl.
    split; [reflexivity |]. intros H. lia.
  - destruct IH as [IH1 IH2].
    destruct (eof s) eqn:E.
    + rewrite (advance_eof s E) in Ea. inversion Ea; subst. split; assumption.
    + pose proof (reachable_well_formed s Hr) as [Ho _].
      unfold advance in Ea. rewrite E in Ea.
      unfold eof in E. apply Z.leb_gt in E.
      destruct (m_input_length <=? offset s + 1) eqn:E1.
      * inversion Ea; subst. unfold position_invariant; simpl.
        apply Z.leb_le in E1. split; intros; lia.
      * destruct (input_at (offset s + 1) =? newline)%char eqn:E2;
          inversion Ea; subst; unfold position_invariant; simpl.
        -- apply Ascii.eqb_eq in E2. split; [reflexivity |].
           intros _ _ Hn. congruence.
        -- apply Ascii.eqb_neq in E2. split; [intros _ Hn; congruence |].
           intros _ Hp _. replace (offset s + 1 - 1) with (offset s) in Hp by lia.
           rewrite (IH1 E Hp). reflexivity.
  - inversion Ee; subst. exact IH.
Qed.

(** ** Saving and restoring (lines 185-186) *)

(** C7: [save_state] hands out the state as it is and leaves it in place;
    [restore_state] of that copy, in whatever state [s_mid] the operations
    run in between have led to, puts back a state that agrees with the saved
    one in offset, line, column, symbol and error: it is the saved state.
    So saving, running any operation that returns, and restoring is the
    identity on states. *)
Theorem save_restore_round_trip (s s_mid : ParserState) :
  save_state s = Some (s, s) /\
  (exists s', restore_state s s_mid = Some (tt, s') /\
     offset s' = offset s /\ line s' = line s /\ column s' = column s /\
     symbol s' = symbol s /\ error s' = error s /\ s' = s) /\
  (forall (A : Type) (ops : M A) (a : A),
     ops s = Some (a, s_mid) ->
     (saved <- save_state ;; ops ;;; restore_state saved) s = Some (tt, s)).
Proof.
  split; [reflexivity |]. split.
  - exists s. repeat split; reflexivity.
  - intros A ops a E. unfold save_state, get, bind. rewrite E. reflexivity.
Qed.

(** ** End of input (lines 181, 524-551) *)

(** C8: in a reachable state, [eof()] holds exactly when the offset equals
    the length of the input, and [advance()] at the end of the input
    returns false and leaves the state, in all its fields, as it was. *)
Theorem eof_iff_offset_is_length (s : ParserState) :
  reachable s ->
  (eof s = true <-> offset s = m_input_length) /\
  (eof s = true -> advance s = Some (false, s)).
Proof.
  intros Hr. split.
  - apply eof_offset. apply reachable_well_formed. exact Hr.
  - apply advance_eof.
Qed.

(** ** Lines and columns (lines 524-558) *)

(** C9: the line and column follow the byte the cursor lands on.  From a
    reachable state, an [advance()] onto a newline increments the line and
    sets the column to 1 with the cursor on the newline; the next
    [advance()], onto a byte that is not a newline, leaves the line and
    makes the column 2.  And in every reachable state whose cursor is on
    the first byte after a newline, that byte not a newline itself, the
    column is 2, for [get_position] and for the position [set_error]
    records. *)
Theorem column_follows_landing_byte (s : ParserState) :
  reachable s ->
  (forall s1,
     advance s = Some (true, s1) -> eof s1 = false ->
     input_at (offset s1) = newline ->
     offset s1 = offset s + 1 /\ symbol s1 = newline /\
     line s1 = uint32_wrap (line s + 1) /\ column s1 = 1 /\
     forall s2,
       advance s1 = Some (true, s2) -> eof s2 = false ->
       input_at (offset s2) <> newline ->
       offset s2 = offset s1 + 1 /\ line s2 = line s1 /\ column s2 = 2) /\
  (0 < offset s < m_input_length ->
   input_at (offset s - 1) = newline -> input_at (offset s) <> newline ->
   column s = 2 /\ get_position s = (line s, 2) /\
   forall e s', set_error e s = Some (tt, s') ->
     pe_column (error s') = 2 /\ pe_line (error s') = line s).
Proof.
  intros Hr. split.
  - intros s1 Ea E1 Hn.
    assert (Hr1 : reachable s1) by (eapply reachable_advance; eassumption).
    pose proof (reachable_well_formed s1 Hr1) as [_ Hs1]. rewrite E1 in Hs1.
    pose proof (position_invariant_reachable s1 Hr1) as [Hc1 _].
    assert (E : eof s = false).
    { destruct (eof s) eqn:E; [| reflexivity].
      rewrite (advance_eof s E) in Ea. discriminate. }
    assert (E1' : offset s1 < m_input_length)
      by (unfold eof in E1; apply Z.leb_gt in E1; exact E1).
    unfold advance in Ea. rewrite E in Ea.
    destruct (m_input_length <=? offset s + 1) eqn:E2.
    { inversion Ea; subst. simpl in E1'. apply Z.leb_le in E2. lia. }
    destruct (input_at (offset s + 1) =? newline)%char eqn:E5;
      inversion Ea; subst s1; simpl in *;
      [| apply Ascii.eqb_neq in E5; congruence].
    split; [reflexivity |]. split; [exact Hn |].
    split; [reflexivity |]. split; [reflexivity |].
    intros s2 Ea2 E3 Hn2.
    unfold advance in Ea2. rewrite E1 in Ea2. simpl in Ea2.
    destruct (m_input_length <=? offset s + 1 + 1) eqn:E4.
    { inversion Ea2; subst s2. unfold eof in E3. simpl in E3. congruence. }
    destruct (input_at (offset s + 1 + 1) =? newline)%char eqn:E6;
      inversion Ea2; subst s2; simpl in *.
    + apply Ascii.eqb_eq in E6. congruence.
    + split; [reflexivity |]. split; reflexivity.
  - intros Ho Hp Hn.
    pose proof (position_invariant_reachable s Hr) as [_ Hc].
    specialize (Hc Ho Hp Hn). split; [exact Hc |].
    split; [unfold get_position; rewrite Hc; reflexivity |].
    intros e s' Ee. inversion Ee; subst; simpl. auto.
Qed.

(** ** Speculative reads (lines 105-134) *)

Lemma zero_fill_length k i values :
  length (zero_fill k i values) = length values.
Proof.
  revert i values. induction k as [| k IH]; intros i values; simpl;
    [reflexivity |].
  rewrite IH. apply length_insert.
Qed.

Lemma zero_fill_lookup_before k i values (j : nat) :
  0 <= i -> (j < Z.to_nat i)%nat ->
  zero_fill k i values !! j = values !! j.
Proof.
  revert i values. induction k as [| k IH]; intros i values Hi Hj; simpl;
    [reflexivity |].
  rewrite IH by lia. apply list_lookup_insert_ne. lia.
Qed.

Lemma zero_fill_lookup k i values (j : nat) :
  0 <= i -> (Z.to_nat i <= j < Z.to_nat i + k)%nat -> (j < length values)%nat ->
  zero_fill k i values !! j = Some double_zero.
Proof.
  revert i values. induction k as [| k IH]; intros i values Hi Hj Hl; simpl;
    [lia |].
  destruct (Nat.eq_dec j (Z.to_nat i)) as [-> | Hne].
  - rewrite zero_fill_lookup_before by lia.
    apply list_lookup_insert_eq. exact Hl.
  - apply IH; [lia | lia |]. unfold values_set. rewrite length_insert. exact Hl.
Qed.

Lemma always_advance (s : ParserState) (b : bool) (s' : ParserState) :
  True -> advance s = Some (b, s') -> True.
Proof. auto. Qed.

Lemma always_set_error (s : ParserState) (e : ErrorKind) (s' : ParserState) :
  True -> set_error e s = Some (tt, s') -> True.
Proof. auto. Qed.

(** C3: a [try_read] returns, and when it returns false the state is the
    one it was called in, in offset, line, column, symbol and error, and
    the output is reset: the view is the null view, and the elements of the
    array below [num_elements] are all [0.0]. *)
Theorem try_read_failure_restores (key : list ascii) (s : ParserState) :
  (forall value, exists ok value' s',
     try_read_StringView key value s = Some ((ok, value'), s') /\
     (ok = false -> s' = s /\ value' = StringView_null)) /\
  (forall values num_elements, exists ok values' s',
     try_read_doubles key values num_elements s = Some ((ok, values'), s') /\
     (ok = false ->
      s' = s /\ length values' = length values /\
      forall i : nat,
        (i < Z.to_nat num_elements)%nat -> (i < length values)%nat ->
        values' !! i = Some double_zero)).
Proof.
  split.
  - intros value.
    destruct (read_StringView_inv (fun _ => True) always_advance
                always_set_error key value s Logic.I)
      as ([ok value'] & s1 & E & _).
    unfold try_read_StringView, save_state, get, bind. rewrite E.
    destruct ok; simpl.
    + exists true, value', s1. split; [reflexivity | discriminate].
    + exists false, StringView_null, s. split; [reflexivity | auto].
  - intros values num_elements.
    destruct (read_doubles_member_inv (fun _ => True) always_advance
                always_set_error key values num_elements s Logic.I)
      as ([ok values'] & s1 & E & _ & Hl). simpl in Hl.
    unfold try_read_doubles, save_state, get, bind. rewrite E.
    destruct ok; simpl.
    + exists true, values', s1. split; [reflexivity | discriminate].
    + eexists false, _, s. split; [reflexivity |]. intros _.
      split; [reflexivity |]. split; [rewrite zero_fill_length; exact Hl |].
      intros i Hi Hv. apply zero_fill_lookup; [lia | lia | lia].
Qed.

(** ** The bytes under the cursor *)

Lemma skip_fail_if_eof_well_formed s s1 :
  well_formed s ->
  skip_comments_and_whitespace_fail_if_eof s = Some (true, s1) ->
  well_formed s1 /\ eof s1 = false.
Proof.
  intros Hw E.
  destruct (skip_comments_and_whitespace_fail_if_eof_inv well_formed
              well_formed_advance well_formed_set_error s Hw)
    as (ok & s' & E' & Hw' & He).
  rewrite E in E'. inversion E'; subst. auto.
Qed.

Lemma input_slice_nth o n l (k : nat) :
  0 <= o -> input_slice o n = l -> (k < length l)%nat ->
  input_at (o + Z.of_nat k) = nth k l zero /\ o + Z.of_nat k < m_input_length.
Proof.
  intros Ho <- Hk. unfold input_slice in *.
  rewrite length_firstn, length_skipn in Hk. split.
  - unfold input_at. rewrite nth_firstn, nth_skipn.
    replace (Z.to_nat (o + Z.of_nat k)) with (Z.to_nat o + k)%nat by lia.
    destruct (Nat.ltb_spec k (Z.to_nat n)); [reflexivity | lia].
  - unfold m_input_length. lia.
Qed.

Lemma skipn_input o :
  0 <= o < m_input_length ->
  skipn (Z.to_nat o) m_input = input_at o :: skipn (Z.to_nat (o + 1)) m_input.
Proof.
  intros Ho. unfold m_input_length in Ho. unfold input_at.
  replace (Z.to_nat (o + 1)) with (S (Z.to_nat o)) by lia.
  assert (H : (Z.to_nat o < length m_input)%nat) by lia.
  revert H. generalize (Z.to_nat o). clear Ho.
  induction m_input as [| c l IH]; intros n H; simpl in *; [lia |].
  destruct n as [| n]; [reflexivity |]. simpl. apply IH. lia.
Qed.

Lemma skipn_eof o :
  m_input_length <= o -> skipn (Z.to_nat o) m_input = [].
Proof.
  intros Ho. unfold m_input_length in Ho. apply skipn_all2. lia.
Qed.

Lemma skipn_cons_inv o x l :
  0 <= o -> skipn (Z.to_nat o) m_input = x :: l ->
  o < m_input_length /\ input_at o = x /\
  skipn (Z.to_nat (o + 1)) m_input = l.
Proof.
  intros Ho H. destruct (Z.lt_ge_cases o m_input_length) as [Hlt | Hge].
  - rewrite skipn_input in H by lia. inversion H. auto.
  - rewrite skipn_eof in H by lia. discriminate.
Qed.

(** The skip over a run [w] of whitespace in front of a byte [c] that is
    neither whitespace nor a slash stops on [c]. *)
Lemma skip_whitespace_run (w : list ascii) c rest s :
  well_formed s ->
  skipn (Z.to_nat (offset s)) m_input = w ++ c :: rest ->
  forallb isspace w = true -> isspace c = false -> (c =? "/")%char = false ->
  exists s1,
    skip_comments_and_whitespace_fail_if_eof s = Some (true, s1) /\
    offset s1 = offset s + Z.of_nat (length w) /\ error s1 = error s /\
    symbol s1 = c /\ well_formed s1.
Proof.
  intros Hw Hsk Hsp Hc Hslash.
  assert (Hloop : forall n s, well_formed s -> (remaining s < n)%nat ->
            skipn (Z.to_nat (offset s)) m_input = w ++ c :: rest ->
            exists s1, skip_comments_and_whitespace_loop n s = Some (true, s1) /\
              offset s1 = offset s + Z.of_nat (length w) /\
              error s1 = error s /\ symbol s1 = c /\ well_formed s1 /\
              eof s1 = false).
  { clear s Hw Hsk. induction w as [| x w IH]; intros n s Hw Hn Hsk.
    - destruct n as [| n]; [lia |]. simpl in *.
      pose proof Hw as [Ho Hs].
      destruct (skipn_cons_inv _ _ _ (proj1 Ho) Hsk) as (Hlt & Hat & _).
      assert (E : eof s = false) by (unfold eof; apply Z.leb_gt; exact Hlt).
      rewrite E in Hs. rewrite E, Hs, Hat, Hc, Hslash.
      exists s. split; [reflexivity |]. split; [lia |].
      split; [reflexivity |]. split; [congruence |]. split; [exact Hw | exact E].
    - destruct n as [| n]; [lia |]. simpl in Hsk, Hsp |- *.
      apply andb_true_iff in Hsp as [Hx Hsp].
      pose proof Hw as [Ho Hs].
      destruct (skipn_cons_inv _ _ _ (proj1 Ho) Hsk) as (Hlt & Hat & Hsk').
      assert (E : eof s = false) by (unfold eof; apply Z.leb_gt; exact Hlt).
      rewrite E in Hs. rewrite E, Hs, Hat, Hx.
      destruct (advance_not_eof s E) as (s' & Ea & Ho' & He' & _).
      rewrite (bind_eq _ _ _ _ _ Ea).
      destruct (IH Hsp n s') as (s1 & El & Ho1 & He1 & Hs1 & Hw1 & E1).
      + eapply well_formed_advance; eassumption.
      + pose proof (remaining_advance s s' E Ho'). lia.
      + rewrite Ho'. exact Hsk'.
      + exists s1. split; [exact El |]. split; [lia |].
        split; [congruence |]. auto. }
  destruct (Hloop (loop_bound s) s Hw (bounded_lt s) Hsk)
    as (s1 & El & Ho1 & He1 & Hs1 & Hw1 & E1).
  exists s1. split; [| auto].
  unfold skip_comments_and_whitespace_fail_if_eof.
  rewrite (bind_eq skip_comments_and_whitespace _ _ _ _ El). simpl.
  rewrite E1. reflexivity.
Qed.

Lemma advance_in_range s :
  offset s + 1 < m_input_length -> eof s = false ->
  exists s', advance s = Some (true, s') /\
    offset s' = offset s + 1 /\ error s' = error s /\
    symbol s' = input_at (offset s + 1) /\ eof s' = false.
Proof.
  intros Ho E. destruct (advance_not_eof s E) as (s' & Ea & Ho' & He & Hs).
  assert (E' : eof s' = false) by (unfold eof; apply Z.leb_gt; lia).
  exists s'. rewrite E', Ho' in Hs. auto.
Qed.

Lemma expect_then_advance c (rest : M bool) s s' :
  symbol s = c -> advance s = Some (true, s') ->
  and_then (symbol_is c) (and_then advance rest) s = rest s'.
Proof.
  intros Hs Ea. unfold and_then, symbol_is, bind.
  rewrite Hs, Ascii.eqb_refl, Ea. reflexivity.
Qed.

Lemma expect_then_last_advance c s :
  symbol s = c -> and_then (symbol_is c) advance s = advance s.
Proof.
  intros Hs. unfold and_then, symbol_is, bind.
  rewrite Hs, Ascii.eqb_refl. reflexivity.
Qed.

(** ** Booleans (lines 395-431) *)

(** [read_bool] at the literal: from a well-formed state, when the skip of
    whitespace and comments that [read_bool] starts with leaves the cursor
    where the input reads [true] (or [false]), the call returns true, sets
    the output to true (or false) and leaves the cursor 4 (or 5) bytes
    further, with the error as it was. *)
Lemma read_bool_literal (value : bool) (s s1 : ParserState) :
  well_formed s ->
  skip_comments_and_whitespace_fail_if_eof s = Some (true, s1) ->
  (input_slice (offset s1) 4 = literal_true ->
   exists s', read_bool value s = Some ((true, true), s') /\
     offset s' = offset s1 + 4 /\ error s' = error s1 /\ well_formed s') /\
  (input_slice (offset s1) 5 = literal_false ->
   exists s', read_bool value s = Some ((true, false), s') /\
     offset s' = offset s1 + 5 /\ error s' = error s1 /\ well_formed s').
Proof.
  intros Hw Hskip.
  destruct (skip_fail_if_eof_well_formed s s1 Hw Hskip) as [Hw1 E1].
  pose proof Hw1 as [Ho1 Hs1]. rewrite E1 in Hs1.
  split; intros Hb.
  - destruct (input_slice_nth _ _ _ 0 (proj1 Ho1) Hb) as [B0 _]; [simpl; lia |].
    destruct (input_slice_nth _ _ _ 1 (proj1 Ho1) Hb) as [B1 R1]; [simpl; lia |].
    destruct (input_slice_nth _ _ _ 2 (proj1 Ho1) Hb) as [B2 R2]; [simpl; lia |].
    destruct (input_slice_nth _ _ _ 3 (proj1 Ho1) Hb) as [B3 R3]; [simpl; lia |].
    simpl in B0, B1, B2, B3. rewrite Z.add_0_r in B0.
    change (Z.of_nat 1) with 1 in *. change (Z.of_nat 2) with 2 in *.
    change (Z.of_nat 3) with 3 in *.
    destruct (advance_in_range s1) as (s2 & Ea2 & Ho2 & He2 & Hs2 & E2);
      [lia | exact E1 |].
    destruct (advance_in_range s2) as (s3 & Ea3 & Ho3 & He3 & Hs3 & E3);
      [lia | exact E2 |].
    destruct (advance_in_range s3) as (s4 & Ea4 & Ho4 & He4 & Hs4 & E4);
      [lia | exact E3 |].
    destruct (advance_not_eof s4 E4) as (s5 & Ea5 & Ho5 & He5 & Hs5).
    exists s5. split.
    + unfold read_bool, save_state, get. unfold bind at 1. rewrite Hskip. simpl.
      unfold bind at 1. rewrite Hs1, B0. simpl.
      unfold bind at 1. rewrite Ea2. unfold bind at 1.
      rewrite (expect_then_advance "r" _ s2 s3)
        by (try assumption; rewrite Hs2; exact B1).
      rewrite (expect_then_advance "u" _ s3 s4)
        by (try assumption; rewrite Hs3, Ho2, <- Z.add_assoc; exact B2).
      rewrite expect_then_last_advance
        by (rewrite Hs4, Ho3, Ho2, <- !Z.add_assoc; exact B3).
      rewrite Ea5. reflexivity.
    + split; [lia |]. split; [congruence |].
      eapply well_formed_advance; [| exact Ea5].
      eapply well_formed_advance; [| exact Ea4].
      eapply well_formed_advance; [| exact Ea3].
      eapply well_formed_advance; [| exact Ea2]. exact Hw1.
  - destruct (input_slice_nth _ _ _ 0 (proj1 Ho1) Hb) as [B0 _]; [simpl; lia |].
    destruct (input_slice_nth _ _ _ 1 (proj1 Ho1) Hb) as [B1 R1]; [simpl; lia |].
    destruct (input_slice_nth _ _ _ 2 (proj1 Ho1) Hb) as [B2 R2]; [simpl; lia |].
    destruct (input_slice_nth _ _ _ 3 (proj1 Ho1) Hb) as [B3 R3]; [simpl; lia |].
    destruct (input_slice_nth _ _ _ 4 (proj1 Ho1) Hb) as [B4 R4]; [simpl; lia |].
    simpl in B0, B1, B2, B3, B4. rewrite Z.add_0_r in B0.
    change (Z.of_nat 1) with 1 in *. change (Z.of_nat 2) with 2 in *.
    change (Z.of_nat 3) with 3 in *. change (Z.of_nat 4) with 4 in *.
    destruct (advance_in_range s1) as (s2 & Ea2 & Ho2 & He2 & Hs2 & E2);
      [lia | exact E1 |].
    destruct (advance_in_range s2) as (s3 & Ea3 & Ho3 & He3 & Hs3 & E3);
      [lia | exact E2 |].
    destruct (advance_in_range s3) as (s4 & Ea4 & Ho4 & He4 & Hs4 & E4);
      [lia | exact E3 |].
    destruct (advance_in_range s4) as (s5 & Ea5 & Ho5 & He5 & Hs5 & E5);
      [lia | exact E4 |].
    destruct (advance_not_eof s5 E5) as (s6 & Ea6 & Ho6 & He6 & Hs6).
    exists s6. split.
    + unfold read_bool, save_state, get. unfold bind at 1. rewrite Hskip. simpl.
      unfold bind at 1. rewrite Hs1, B0. simpl.
      unfold bind at 1. rewrite Ea2. unfold bind at 1.
      rewrite (expect_then_advance "a" _ s2 s3)
        by (try assumption; rewrite Hs2; exact B1).
      rewrite (expect_then_advance "l" _ s3 s4)
        by (try assumption; rewrite Hs3, Ho2, <- Z.add_assoc; exact B2).
      rewrite (expect_then_advance "s" _ s4 s5)
        by (try assumption; rewrite Hs4, Ho3, Ho2, <- !Z.add_assoc; exact B3).
      rewrite expect_then_last_advance
        by (rewrite Hs5, Ho4, Ho3, Ho2, <- !Z.add_assoc; exact B4).
      rewrite Ea6. reflexivity.
    + split; [lia |]. split; [congruence |].
      eapply well_formed_advance; [| exact Ea6].
      eapply well_formed_advance; [| exact Ea5].
      eapply well_formed_advance; [| exact Ea4].
      eapply well_formed_advance; [| exact Ea3].
      eapply well_formed_advance; [| exact Ea2]. exact Hw1.
Qed.

Lemma skipn_offset_app o (w l : list ascii) :
  0 <= o -> skipn (Z.to_nat o) m_input = w ++ l ->
  skipn (Z.to_nat (o + Z.of_nat (length w))) m_input = l.
Proof.
  intros Ho H.
  replace (Z.to_nat (o + Z.of_nat (length w)))
    with (length w + Z.to_nat o)%nat by lia.
  rewrite <- skipn_skipn, H, skipn_app, skipn_all, Nat.sub_diag.
  reflexivity.
Qed.

(** [read_bool] on a literal, from the state its skip leaves.  From a
    well-formed state, when the skip of whitespace and comments that
    [read_bool] starts with leaves the cursor where the input reads [true]
    (or [false]), the call returns true, sets the output to true (or
    false) and leaves the cursor 4 (or 5) bytes further, on whatever byte
    follows, with the error as it was.  In particular when the input at the
    cursor is a run of whitespace, the literal and any bytes [rest]: the
    cursor is left on the first byte of [rest]. *)
Lemma read_bool_needs_no_delimiter (value : bool) (s : ParserState) :
  well_formed s ->
  (forall s1,
     skip_comments_and_whitespace_fail_if_eof s = Some (true, s1) ->
     (input_slice (offset s1) 4 = literal_true ->
      exists s', read_bool value s = Some ((true, true), s') /\
        offset s' = offset s1 + 4 /\ error s' = error s1 /\ well_formed s') /\
     (input_slice (offset s1) 5 = literal_false ->
      exists s', read_bool value s = Some ((true, false), s') /\
        offset s' = offset s1 + 5 /\ error s' = error s1 /\ well_formed s')) /\
  (forall w rest,
     forallb isspace w = true ->
     (skipn (Z.to_nat (offset s)) m_input = w ++ literal_true ++ rest ->
      exists s', read_bool value s = Some ((true, true), s') /\
        offset s' = offset s + Z.of_nat (length w) + 4 /\
        error s' = error s /\ well_formed s' /\
        skipn (Z.to_nat (offset s')) m_input = rest) /\
     (skipn (Z.to_nat (offset s)) m_input = w ++ literal_false ++ rest ->
      exists s', read_bool value s = Some ((true, false), s') /\
        offset s' = offset s + Z.of_nat (length w) + 5 /\
        error s' = error s /\ well_formed s' /\
        skipn (Z.to_nat (offset s')) m_input = rest)).
Proof.
  intros Hw. split; [intros s1; apply read_bool_literal; exact Hw |].
  intros w rest Hsp. pose proof Hw as [Ho _]. split; intros Hsk.
  - destruct (skip_whitespace_run w "t" (["r"; "u"; "e"]%char ++ rest) s Hw Hsk
                Hsp eq_refl eq_refl) as (s1 & Hskip & Ho1 & He1 & _ & Hw1).
    pose proof (skipn_offset_app _ _ _ (proj1 Ho) Hsk) as Hsk1.
    rewrite <- Ho1 in Hsk1.
    destruct (read_bool_literal value s s1 Hw Hskip) as [H _].
    destruct H as (s' & E & Ho' & He' & Hw').
    { unfold input_slice. rewrite Hsk1. reflexivity. }
    exists s'. split; [exact E |]. split; [lia |]. split; [congruence |].
    split; [exact Hw' |]. rewrite Ho'.
    apply (skipn_offset_app (offset s1) literal_true rest); [lia | exact Hsk1].
  - destruct (skip_whitespace_run w "f" (["a"; "l"; "s"; "e"]%char ++ rest) s Hw
                Hsk Hsp eq_refl eq_refl) as (s1 & Hskip & Ho1 & He1 & _ & Hw1).
    pose proof (skipn_offset_app _ _ _ (proj1 Ho) Hsk) as Hsk1.
    rewrite <- Ho1 in Hsk1.
    destruct (read_bool_literal value s s1 Hw Hskip) as [_ H].
    destruct H as (s' & E & Ho' & He' & Hw').
    { unfold input_slice. rewrite Hsk1. reflexivity. }
    exists s'. split; [exact E |]. split; [lia |]. split; [congruence |].
    split; [exact Hw' |]. rewrite Ho'.
    apply (skipn_offset_app (offset s1) literal_false rest); [lia | exact Hsk1].
Qed.

(** ** Strings (lines 299-342) *)

Lemma string_body_split_bounded (n : nat) l body :
  (length l <= n)%nat ->
  string_body l = Some body -> exists rest, l = body ++ quotation_mark :: rest.
Proof.
  revert l body. induction n as [| n IH]; intros l body Hl.
  { destruct l; [discriminate | simpl in Hl; lia]. }
  destruct l as [| c l']; [discriminate |]. simpl in *.
  destruct (c =? quotation_mark)%char eqn:Eq.
  - intros H. inversion H; subst. apply Ascii.eqb_eq in Eq. subst c.
    exists l'. reflexivity.
  - destruct (c =? backslash)%char.
    + destruct l' as [| d l'']; [discriminate |].
      destruct (string_body l'') as [b |] eqn:Eb; [| discriminate].
      intros H. inversion H; subst.
      destruct (IH l'' b ltac:(simpl in Hl; lia) Eb) as (rest & ->).
      exists rest. reflexivity.
    + destruct (string_body l') as [b |] eqn:Eb; [| discriminate].
      intros H. inversion H; subst.
      destruct (IH l' b ltac:(lia) Eb) as (rest & ->).
      exists rest. reflexivity.
Qed.

Lemma string_body_split l body :
  string_body l = Some body -> exists rest, l = body ++ quotation_mark :: rest.
Proof. apply (string_body_split_bounded (length l)). lia. Qed.

Lemma size_t_wrap_length start k :
  0 <= k < 2 ^ 64 ->
  size_t_wrap (size_t_wrap (size_t_wrap (start + k - 1) - start) + 1) = k.
Proof.
  intros Hk. unfold size_t_wrap.
  rewrite Zminus_mod_idemp_l, Zplus_mod_idemp_l.
  replace (start + k - 1 - start + 1) with k by lia.
  apply Z.mod_small. exact Hk.
Qed.

Lemma read_string_loop_spec n s :
  well_formed s -> (remaining s < n)%nat ->
  match string_body (skipn (Z.to_nat (offset s)) m_input) with
  | Some body =>
      exists s',
        read_string_loop n s =
          Some (Some (size_t_wrap (offset s + Z.of_nat (length body) - 1)), s') /\
        offset s' = offset s + Z.of_nat (length body) + 1 /\
        error s' = error s
  | None =>
      exists s',
        read_string_loop n s = Some (None, s') /\
        error s' = mkParserError InputTruncated (line s') (column s') /\
        eof s' = true
  end.
Proof.
  revert s. induction n as [| n IH]; intros s Hw Hn; [lia |].
  pose proof Hw as [Ho Hs]. simpl.
  destruct (eof s) eqn:E.
  { rewrite skipn_eof by (unfold eof in E; apply Z.leb_le in E; exact E).
    simpl. eexists. split; [reflexivity |]. split; [reflexivity | exact E]. }
  assert (Ho' : 0 <= offset s < m_input_length)
    by (unfold eof in E; apply Z.leb_gt in E; lia).
  rewrite (skipn_input _ Ho'), <- Hs. simpl.
  destruct (advance_not_eof s E) as (s1 & Ea1 & Ho1 & He1 & _).
  pose proof (well_formed_advance _ _ _ Hw Ea1) as Hw1.
  pose proof (remaining_advance s s1 E Ho1) as Hr1.
  destruct (symbol s =? quotation_mark)%char.
  { exists s1. rewrite (bind_eq _ _ _ _ _ Ea1). simpl.
    rewrite Z.add_0_r. split; [reflexivity |]. split; [lia | exact He1]. }
  destruct (symbol s =? backslash)%char.
  - rewrite !(bind_eq _ _ _ _ _ Ea1).
    destruct (eof s1) eqn:E1.
    + rewrite <- Ho1.
      rewrite skipn_eof by (unfold eof in E1; apply Z.leb_le in E1; exact E1).
      rewrite !(bind_eq _ _ _ _ _ (advance_eof s1 E1)).
      specialize (IH s1 Hw1 ltac:(lia)).
      rewrite skipn_eof in IH
        by (unfold eof in E1; apply Z.leb_le in E1; exact E1).
      exact IH.
    + assert (Ho1' : 0 <= offset s1 < m_input_length)
        by (unfold eof in E1; apply Z.leb_gt in E1; lia).
      rewrite <- Ho1, (skipn_input _ Ho1').
      destruct (advance_not_eof s1 E1) as (s2 & Ea2 & Ho2 & He2 & _).
      pose proof (well_formed_advance _ _ _ Hw1 Ea2) as Hw2.
      pose proof (remaining_advance s1 s2 E1 Ho2) as Hr2.
      rewrite !(bind_eq _ _ _ _ _ Ea2).
      specialize (IH s2 Hw2 ltac:(lia)). rewrite Ho2 in IH.
      destruct (string_body (skipn (Z.to_nat (offset s1 + 1)) m_input))
        as [body |]; simpl.
      * destruct IH as (s' & El & Ho'' & He'). exists s'.
        rewrite El. split; [f_equal; f_equal; f_equal; f_equal; lia |].
        split; [lia | congruence].
      * exact IH.
  - rewrite !(bind_eq _ _ _ _ _ Ea1).
    specialize (IH s1 Hw1 ltac:(lia)). rewrite Ho1 in IH.
    destruct (string_body (skipn (Z.to_nat (offset s + 1)) m_input))
      as [body |]; simpl.
    + destruct IH as (s' & El & Ho'' & He'). exists s'.
      rewrite El. split; [f_equal; f_equal; f_equal; f_equal; lia |].
      split; [lia | congruence].
    + exact IH.
Qed.

(** [read_string] at the opening quotation mark. *)
Lemma read_string_body (value : StringView) (s s1 : ParserState) :
  m_input_length < 2 ^ 64 ->
  well_formed s ->
  skip_comments_and_whitespace_fail_if_eof s = Some (true, s1) ->
  symbol s1 = quotation_mark ->
  match string_body (skipn (Z.to_nat (offset s1 + 1)) m_input) with
  | Some body =>
      let view := StringView_of (offset s1 + 1) (Z.of_nat (length body)) in
      exists s',
        read_string value s = Some ((true, view), s') /\
        StringView_bytes view = body /\
        input_at (offset s1) = quotation_mark /\
        input_at (offset s1 + 1 + Z.of_nat (length body)) = quotation_mark /\
        offset s' = offset s1 + Z.of_nat (length body) + 2 /\
        error s' = error s1
  | None =>
      exists s',
        read_string value s = Some ((false, value), s') /\
        pe_error (error s') = InputTruncated /\ eof s' = true
  end.
Proof.
  intros Hlen Hw Hskip Hq.
  destruct (skip_fail_if_eof_well_formed s s1 Hw Hskip) as [Hw1 E1].
  pose proof Hw1 as [Ho1 Hs1]. rewrite E1 in Hs1.
  destruct (advance_not_eof s1 E1) as (s2 & Ea2 & Ho2 & He2 & _).
  pose proof (well_formed_advance _ _ _ Hw1 Ea2) as Hw2.
  pose proof (read_string_loop_spec (loop_bound s2) s2 Hw2 (bounded_lt s2))
    as Hloop.
  rewrite Ho2 in Hloop.
  assert (Hread : read_string value s =
            bind (bounded read_string_loop) (fun r =>
              match r with
              | None => ret (false, value)
              | Some end_offset =>
                  ret (true, StringView_of (offset s2)
                         (size_t_wrap (size_t_wrap (end_offset - offset s2) + 1)))
              end) s2).
  { unfold read_string. rewrite (bind_eq _ _ _ _ _ Hskip). simpl.
    rewrite Hq, Ascii.eqb_refl. simpl.
    rewrite (bind_eq _ _ _ _ _ Ea2). reflexivity. }
  rewrite Hread.
  destruct (string_body (skipn (Z.to_nat (offset s1 + 1)) m_input))
    as [body |] eqn:Eb.
  - destruct Hloop as (s' & El & Ho' & He').
    destruct (string_body_split _ _ Eb) as (rest & Hsplit).
    assert (Hb : Z.of_nat (length body) < 2 ^ 64).
    { apply (f_equal (@length ascii)) in Hsplit.
      rewrite length_skipn, length_app in Hsplit. unfold m_input_length in Hlen.
      simpl in Hsplit. lia. }
    exists s'. rewrite (bind_eq (bounded read_string_loop) _ _ _ _ El). unfold ret.
    rewrite Ho2, size_t_wrap_length by lia.
    split; [reflexivity |].
    split.
    { unfold StringView_bytes, StringView_of; simpl. rewrite Hsplit.
      rewrite Nat2Z.id, firstn_app, firstn_all, Nat.sub_diag. simpl.
      apply app_nil_r. }
    split; [congruence |].
    split.
    { unfold input_at.
      replace (Z.to_nat (offset s1 + 1 + Z.of_nat (length body)))
        with (Z.to_nat (offset s1 + 1) + length body)%nat by lia.
      rewrite <- nth_skipn, Hsplit, app_nth2 by lia.
      rewrite Nat.sub_diag. reflexivity. }
    split; [lia | congruence].
  - destruct Hloop as (s' & El & He' & E').
    exists s'. rewrite (bind_eq (bounded read_string_loop) _ _ _ _ El). unfold ret.
    split; [reflexivity |]. split; [rewrite He'; reflexivity | exact E'].
Qed.

(** [read_string] from the state its skip leaves.  From a well-formed
    state, when the skip of whitespace and comments
    that [read_string] starts with leaves the cursor on a quotation mark,
    the call returns the view of exactly the bytes of [string_body]: those
    strictly between that mark and the first mark no backslash takes along,
    backslashes and the bytes behind them included, unchanged; the cursor
    ends behind the closing mark.  When the input ends before a closing
    mark the call returns false with the error [InputTruncated].  In
    particular when the input at the cursor is a run of whitespace and a
    quotation mark. *)
Lemma read_string_raw_slice (value : StringView) (s : ParserState) :
  m_input_length < 2 ^ 64 ->
  well_formed s ->
  (forall s1,
     skip_comments_and_whitespace_fail_if_eof s = Some (true, s1) ->
     symbol s1 = quotation_mark ->
     match string_body (skipn (Z.to_nat (offset s1 + 1)) m_input) with
     | Some body =>
         let view := StringView_of (offset s1 + 1) (Z.of_nat (length body)) in
         exists s',
           read_string value s = Some ((true, view), s') /\
           StringView_bytes view = body /\
           input_at (offset s1) = quotation_mark /\
           input_at (offset s1 + 1 + Z.of_nat (length body)) = quotation_mark /\
           offset s' = offset s1 + Z.of_nat (length body) + 2 /\
           error s' = error s1
     | None =>
         exists s',
           read_string value s = Some ((false, value), s') /\
           pe_error (error s') = InputTruncated /\ eof s' = true
     end) /\
  (forall w l,
     forallb isspace w = true ->
     skipn (Z.to_nat (offset s)) m_input = w ++ quotation_mark :: l ->
     match string_body l with
     | Some body =>
         let view :=
           StringView_of (offset s + Z.of_nat (length w) + 1)
             (Z.of_nat (length body)) in
         exists s',
           read_string value s = Some ((true, view), s') /\
           StringView_bytes view = body /\
           offset s' =
             offset s + Z.of_nat (length w) + Z.of_nat (length body) + 2 /\
           error s' = error s
     | None =>
         exists s',
           read_string value s = Some ((false, value), s') /\
           pe_error (error s') = InputTruncated /\ eof s' = true
     end).
Proof.
  intros Hlen Hw. split;
    [intros s1; apply read_string_body; assumption |].
  intros w l Hsp Hsk. pose proof Hw as [Ho _].
  destruct (skip_whitespace_run w quotation_mark l s Hw Hsk Hsp eq_refl eq_refl)
    as (s1 & Hskip & Ho1 & He1 & Hs1 & Hw1).
  assert (Hsk1 : skipn (Z.to_nat (offset s1 + 1)) m_input = l).
  { rewrite Ho1.
    replace (offset s + Z.of_nat (length w) + 1)
      with (offset s + Z.of_nat (length (w ++ [quotation_mark])))
      by (rewrite length_app; simpl; lia).
    apply skipn_offset_app; [lia |]. rewrite <- app_assoc. exact Hsk. }
  pose proof (read_string_body value s s1 Hlen Hw Hskip Hs1) as H.
  rewrite Hsk1 in H. rewrite <- Ho1.
  destruct (string_body l) as [body |].
  - destruct H as (s' & E & Hb & _ & _ & Ho' & He').
    exists s'. split; [exact E |]. split; [exact Hb |].
    split; [lia | congruence].
  - exact H.
Qed.

(** ** Keys (lines 270-297) *)

Lemma bytes_eqb_eq a b : bytes_eqb a b = true <-> a = b.
Proof.
  revert b. induction a as [| x a IH]; intros [| y b]; simpl;
    try (split; [discriminate | discriminate]); [tauto |].
  rewrite andb_true_iff, Ascii.eqb_eq, IH. split.
  - intros [-> ->]. reflexivity.
  - intros H. inversion H. auto.
Qed.

(** [read_key] behind the skip, on a token the key reader accepts. *)
Lemma read_key_mismatch (having_name : list ascii)
  (s start_of_key s2 : ParserState) (actual : StringView) :
  skip_comments_and_whitespace_fail_if_eof s = Some (true, start_of_key) ->
  (if (symbol start_of_key =? quotation_mark)%char
   then read_string StringView_null start_of_key
   else read_unquoted_key StringView_null start_of_key)
    = Some ((true, actual), s2) ->
  StringView_bytes actual <> having_name ->
  read_key having_name s = Some (false, with_error IncorrectKey start_of_key).
Proof.
  intros Hskip Hkey Hne.
  assert (Hd : StringView_differs actual having_name = true).
  { unfold StringView_differs. apply negb_true_iff.
    destruct (bytes_eqb (StringView_bytes actual) having_name) eqn:E;
      [| reflexivity].
    apply bytes_eqb_eq in E. contradiction. }
  unfold read_key. rewrite (bind_eq _ _ _ _ _ Hskip). simpl.
  unfold save_state.
  change (bind get ?f start_of_key) with (f start_of_key start_of_key).
  cbv beta.
  destruct (symbol start_of_key =? quotation_mark)%char;
    rewrite (bind_eq _ _ _ _ _ Hkey); simpl; rewrite Hd; reflexivity.
Qed.

Lemma key_end_not_quotation_mark d :
  key_end d = true -> (d =? quotation_mark)%char = false.
Proof.
  unfold key_end. intros H. destruct (d =? quotation_mark)%char eqn:E;
    [| reflexivity].
  apply Ascii.eqb_eq in E. subst d. discriminate.
Qed.

(** The loop of [read_unquoted_key] over a bare word [k] and the byte [d]
    that ends it. *)
Lemma read_unquoted_key_loop_word (k : list ascii) d rest start n s :
  well_formed s -> (remaining s < n)%nat ->
  skipn (Z.to_nat (offset s)) m_input = k ++ d :: rest ->
  forallb key_byte k = true -> key_end d = true ->
  start <= offset s -> (k = [] -> start < offset s) ->
  exists s',
    read_unquoted_key_loop n start s =
      Some (Some (size_t_wrap (offset s + Z.of_nat (length k) - 1)), s') /\
    error s' = error s.
Proof.
  revert n s. induction k as [| x k IH]; intros n s Hw Hn Hsk Hk Hd Hst Hne;
    (destruct n as [| n]; [lia |]); pose proof Hw as [Ho Hs];
    destruct (skipn_cons_inv _ _ _ (proj1 Ho) Hsk) as (Hlt & Hat & Hsk');
    assert (E : eof s = false) by (unfold eof; apply Z.leb_gt; exact Hlt);
    rewrite E in Hs; simpl; rewrite E, Hs, Hat.
  - rewrite (key_end_not_quotation_mark d Hd), Z.add_0_r.
    destruct (d =? "=")%char eqn:Ed.
    + specialize (Hne eq_refl).
      destruct (offset s =? start) eqn:Eo; [apply Z.eqb_eq in Eo; lia |].
      exists s. split; reflexivity.
    + unfold key_end in Hd. rewrite Ed, orb_false_r in Hd. rewrite Hd.
      destruct (advance_not_eof s E) as (s' & Ea & _ & He' & _).
      rewrite (bind_eq _ _ _ _ _ Ea). exists s'. split; [reflexivity | exact He'].
  - simpl in Hk. apply andb_true_iff in Hk as [Hx Hk]. unfold key_byte in Hx.
    apply andb_true_iff in Hx as [Hx Hq]. apply andb_true_iff in Hx as [Hsp Heq].
    apply negb_true_iff in Hq, Hsp, Heq. rewrite Hq, Heq, Hsp.
    destruct (advance_not_eof s E) as (s' & Ea & Ho' & He' & _).
    rewrite (bind_eq _ _ _ _ _ Ea).
    destruct (IH n s') as (s'' & El & He'').
    + eapply well_formed_advance; eassumption.
    + pose proof (remaining_advance s s' E Ho'). lia.
    + rewrite Ho'. exact Hsk'.
    + exact Hk.
    + exact Hd.
    + lia.
    + intros _. lia.
    + exists s''. rewrite El. split; [| congruence].
      f_equal. f_equal. f_equal. f_equal. simpl length. lia.
Qed.

(** [read_key] on a key other than the name, from the state its skip
    leaves.  When the skip of whitespace and comments succeeds, the key reader
    ([read_string] on a quotation mark, [read_unquoted_key] otherwise)
    accepts the token behind it, and the text of that token differs from
    the requested name in some byte, [read_key] returns false; the cursor
    (offset, line, column, symbol) is the one the key token started at, and
    the error is [IncorrectKey], recorded at that position.  In particular
    when the input at the cursor is a run of whitespace, a bare word other
    than the name, and whitespace or [=]. *)
Lemma read_key_incorrect_key (having_name : list ascii) (s : ParserState) :
  (forall start_of_key s2 actual,
     skip_comments_and_whitespace_fail_if_eof s = Some (true, start_of_key) ->
     (if (symbol start_of_key =? quotation_mark)%char
      then read_string StringView_null start_of_key
      else read_unquoted_key StringView_null start_of_key)
       = Some ((true, actual), s2) ->
     StringView_bytes actual <> having_name ->
     exists s',
       read_key having_name s = Some (false, s') /\
       offset s' = offset start_of_key /\ line s' = line start_of_key /\
       column s' = column start_of_key /\ symbol s' = symbol start_of_key /\
       error s' =
         mkParserError IncorrectKey (line start_of_key) (column start_of_key)) /\
  (forall w x k d rest,
     m_input_length < 2 ^ 64 -> well_formed s ->
     skipn (Z.to_nat (offset s)) m_input = w ++ (x :: k) ++ d :: rest ->
     forallb isspace w = true ->
     forallb key_byte (x :: k) = true -> (x =? "/")%char = false ->
     key_end d = true ->
     x :: k <> having_name ->
     exists start_of_key s',
       skip_comments_and_whitespace_fail_if_eof s = Some (true, start_of_key) /\
       offset start_of_key = offset s + Z.of_nat (length w) /\
       read_key having_name s = Some (false, s') /\
       offset s' = offset start_of_key /\ line s' = line start_of_key /\
       column s' = column start_of_key /\ symbol s' = x /\
       error s' =
         mkParserError IncorrectKey (line start_of_key) (column start_of_key)).
Proof.
  split.
  - intros start_of_key s2 actual Hskip Hkey Hne.
    exists (with_error IncorrectKey start_of_key).
    split; [| repeat split; reflexivity].
    eapply read_key_mismatch; eassumption.
  - intros w x k d rest Hlen Hw Hsk Hsp Hk Hslash Hd Hne.
    pose proof Hw as [Ho _].
    assert (Hx : key_byte x = true)
      by (simpl in Hk; apply andb_true_iff in Hk as [Hx _]; exact Hx).
    unfold key_byte in Hx. apply andb_true_iff in Hx as [Hx Hq].
    apply andb_true_iff in Hx as [Hxs _]. apply negb_true_iff in Hq, Hxs.
    destruct (skip_whitespace_run w x (k ++ d :: rest) s Hw Hsk Hsp Hxs Hslash)
      as (s1 & Hskip & Ho1 & He1 & Hs1 & Hw1).
    pose proof (skipn_offset_app _ _ _ (proj1 Ho) Hsk) as Hsk1.
    rewrite <- Ho1 in Hsk1. pose proof Hw1 as [Ho1' _].
    destruct (skipn_cons_inv _ _ _ (proj1 Ho1') Hsk1) as (Hlt & _ & _).
    assert (E1 : eof s1 = false) by (unfold eof; apply Z.leb_gt; exact Hlt).
    destruct (read_unquoted_key_loop_word (x :: k) d rest (offset s1)
                (loop_bound s1) s1 Hw1 (bounded_lt s1) Hsk1 Hk Hd)
      as (s2 & El & He2); [lia | discriminate |].
    assert (Hklen : Z.of_nat (length (x :: k)) < 2 ^ 64).
    { apply (f_equal (@length ascii)) in Hsk1.
      rewrite length_skipn, length_app in Hsk1.
      unfold m_input_length in Hlen. lia. }
    assert (Hkey : read_unquoted_key StringView_null s1 =
              Some ((true, StringView_of (offset s1)
                             (Z.of_nat (length (x :: k)))), s2)).
    { unfold read_unquoted_key. rewrite E1.
      rewrite (bind_eq (bounded _) _ _ _ _ El). unfold ret.
      rewrite size_t_wrap_length by lia. reflexivity. }
    exists s1, (with_error IncorrectKey s1).
    split; [exact Hskip |]. split; [exact Ho1 |].
    split; [| repeat split; try reflexivity; exact Hs1].
    apply (read_key_mismatch having_name s s1 s2
             (StringView_of (offset s1) (Z.of_nat (length (x :: k))))).
    + exact Hskip.
    + rewrite Hs1, Hq. exact Hkey.
    + unfold StringView_bytes, StringView_of. cbn [sv_start sv_length].
      rewrite Hsk1, Nat2Z.id, firstn_app, firstn_all, Nat.sub_diag.
      cbn [firstn]. rewrite app_nil_r. exact Hne.
Qed.

(** ** Numbers (lines 433-508) *)

Lemma offset_advance s b s' :
  advance s = Some (b, s') -> offset s <= offset s'.
Proof.
  intros Ea. destruct (advance_cases s) as [[_ E] | [_ (s1 & E & Ho & _)]];
    rewrite E in Ea; inversion Ea; subst; lia.
Qed.


(** * More of the parser *)

(** ** The cursor only moves forward *)

Lemma operations_keep_mono (I I' : ParserState -> Prop) s :
  (forall x, I x -> I' x) -> operations_keep I s -> operations_keep I' s.
Proof.
  intros H (H1 & H2 & H3). split; [| split].
  - intros op Hop. eapply returns_mono; [apply H1; exact Hop |].
    simpl. intros _ x. apply H.
  - intros name. destruct (H2 name) as (Ha & Hb & Hc).
    split; [| split]; (eapply returns_mono; [eassumption |]);
      simpl; intros _ x; apply H.
  - intros key view flag number values num_elements.
    destruct (H3 key view flag number values num_elements)
      as (Ha & Hb & Hc & Hd & He & Hf & Hg).
    repeat split; (eapply returns_mono; [eassumption |]);
      simpl; intros _ x; apply H.
Qed.

(** X1: no parsing operation of the public interface moves the cursor
    back.  Called in a well-formed state, each of them (the structural
    matches, the reads, the speculative ones, the skip and the check of the
    remainder) returns and leaves a well-formed state whose offset is at
    least the offset at the call and at most the length of the input; this
    holds for the speculative operations as well, since the states they
    restore were saved no earlier than the call.  [save_state] leaves the
    state alone.  The cursor goes back only where the caller says so:
    [restore_state] leaves exactly the state it is given, wherever its
    cursor is, and [reset_state] the initial state. *)
Theorem cursor_only_moves_forward (s : ParserState) :
  well_formed s ->
  operations_keep
    (fun s' => offset s <= offset s' <= m_input_length /\ well_formed s') s /\
  save_state s = Some (s, s) /\
  (forall saved, restore_state saved s = Some (tt, saved)) /\
  reset_state s = Some (tt, initial_state).
Proof.
  intros Hw. split; [| repeat split].
  apply operations_keep_mono
    with (I := fun x => well_formed x /\ offset s <= offset x).
  - intros x [[Ho Hs] Hle]. split; [lia | split; assumption].
  - apply operations_preserve.
    + intros x b x' [Hx Hox] Ea. split; [eapply well_formed_advance; eauto |].
      pose proof (offset_advance _ _ _ Ea). lia.
    + intros x e x' [Hx Hox] Ee. inversion Ee; subst. split; assumption.
    + split; [exact Hw | lia].
Qed.

(** ** At the end of the input *)

Lemma skip_at_eof s :
  eof s = true -> skip_comments_and_whitespace s = Some (true, s).
Proof.
  intros E. unfold skip_comments_and_whitespace, bounded, loop_bound. simpl.
  rewrite E. reflexivity.
Qed.

Lemma skip_fail_if_eof_at_eof s :
  eof s = true ->
  skip_comments_and_whitespace_fail_if_eof s
  = Some (false, with_error InputTruncated s).
Proof.
  intros E. unfold skip_comments_and_whitespace_fail_if_eof.
  rewrite (bind_eq _ _ _ _ _ (skip_at_eof s E)). simpl. rewrite E. reflexivity.
Qed.

(** X2: with the cursor at the end of the input, the skip and
    [remainder_is_comments_and_whitespace] return true and change nothing;
    every reader and every structural match returns false with the error
    [InputTruncated] recorded at the cursor, moves nothing and leaves its
    output as it was; the speculative reads return false and leave the
    state wholly as it was. *)
Theorem at_end_of_input (s : ParserState) :
  eof s = true ->
  let truncated := with_error InputTruncated s in
  skip_comments_and_whitespace s = Some (true, s) /\
  remainder_is_comments_and_whitespace s = Some (true, s) /\
  (forall expected reason,
     read_symbol expected reason s = Some (false, truncated)) /\
  (forall name,
     read_key name s = Some (false, truncated) /\
     object_begins_named name s = Some (false, truncated) /\
     array_begins_named name s = Some (false, truncated) /\
     try_array_begins name s = Some (false, s)) /\
  try_array_ends s = Some (false, s) /\
  (forall view, read_string view s = Some ((false, view), truncated)) /\
  (forall flag, read_bool flag s = Some ((false, flag), truncated)) /\
  (forall number, read_double number s = Some ((false, number), truncated)) /\
  (forall key view flag number values num_elements,
     read_StringView key view s = Some ((false, view), truncated) /\
     read_bool_member key flag s = Some ((false, flag), truncated) /\
     read_double_member key number s = Some ((false, number), truncated) /\
     read_doubles_member key values num_elements s
       = Some ((false, values), truncated) /\
     try_read_StringView key view s = Some ((false, StringView_null), s) /\
     try_read_doubles key values num_elements s
       = Some ((false, zero_fill (Z.to_nat num_elements) 0 values), s)).
Proof.
  intros E truncated.
  pose proof (skip_at_eof s E) as Hs.
  pose proof (skip_fail_if_eof_at_eof s E) as Hf. fold truncated in Hf.
  assert (Hsym : forall expected reason,
            read_symbol expected reason s = Some (false, truncated)).
  { intros. unfold read_symbol. rewrite (bind_eq _ _ _ _ _ Hf). reflexivity. }
  assert (Hkey : forall name, read_key name s = Some (false, truncated)).
  { intros. unfold read_key. rewrite (bind_eq _ _ _ _ _ Hf). reflexivity. }
  assert (Hke : forall name,
            and_then (read_key name) read_equal_sign s = Some (false, truncated)).
  { intros. unfold and_then. rewrite (bind_eq _ _ _ _ _ (Hkey name)).
    reflexivity. }
  assert (Hnamed : forall name (rest : M bool),
            and_then (read_key name) rest s = Some (false, truncated)).
  { intros. unfold and_then. rewrite (bind_eq _ _ _ _ _ (Hkey name)).
    reflexivity. }
  assert (Hmember : forall A key (reader : A -> M (bool * A)) value,
            read_member key reader value s = Some ((false, value), truncated)).
  { intros. unfold read_member. rewrite (bind_eq _ _ _ _ _ (Hke key)).
    reflexivity. }
  assert (Hdm : forall key values num_elements,
            read_doubles_member key values num_elements s
            = Some ((false, values), truncated)).
  { intros. unfold read_doubles_member.
    rewrite (bind_eq _ _ _ _ _ (Hnamed key _)). reflexivity. }
  split; [exact Hs |]. split.
  { unfold remainder_is_comments_and_whitespace.
    rewrite (bind_eq _ _ _ _ _ Hs). simpl. rewrite E. reflexivity. }
  split; [exact Hsym |]. split.
  { intros name. split; [apply Hkey |]. split; [apply Hnamed |].
    split; [apply Hnamed |].
    unfold try_array_begins, save_state.
    change (bind get ?f s) with (f s s). cbv beta.
    unfold array_begins_named. rewrite (bind_eq _ _ _ _ _ (Hnamed name _)).
    reflexivity. }
  split.
  { unfold try_array_ends, save_state.
    change (bind get ?f s) with (f s s). cbv beta.
    unfold array_ends, read_closing_bracket.
    rewrite (bind_eq _ _ _ _ _ (Hsym _ _)). reflexivity. }
  split.
  { intros. unfold read_string. rewrite (bind_eq _ _ _ _ _ Hf). reflexivity. }
  split.
  { intros. unfold read_bool. rewrite (bind_eq _ _ _ _ _ Hf). reflexivity. }
  split.
  { intros.
    assert (Hl : read_double_lexeme s = Some (None, truncated)).
    { unfold read_double_lexeme. rewrite (bind_eq _ _ _ _ _ Hf). reflexivity. }
    unfold read_double. rewrite (bind_eq _ _ _ _ _ Hl). reflexivity. }
  intros key view flag number values num_elements.
  split; [apply Hmember |]. split; [apply Hmember |]. split; [apply Hmember |].
  split; [apply Hdm |]. split.
  - unfold try_read_StringView, save_state.
    change (bind get ?f s) with (f s s). cbv beta.
    unfold read_StringView. rewrite (bind_eq _ _ _ _ _ (Hmember _ _ _ _)).
    reflexivity.
  - unfold try_read_doubles, save_state.
    change (bind get ?f s) with (f s s). cbv beta.
    rewrite (bind_eq _ _ _ _ _ (Hdm _ _ _)). reflexivity.
Qed.

(** ** Speculative array brackets (lines 56-80) *)

(** X3: [try_array_begins] and [try_array_ends] return what
    [array_begins] with a name and [array_ends] return, in every state;
    when that is true they leave the state those leave, and when it is
    false they leave the state of the call, cursor and error alike. *)
Theorem try_array_is_invisible_on_failure (having_name : list ascii)
  (s : ParserState) :
  (exists ok s1,
     array_begins_named having_name s = Some (ok, s1) /\
     try_array_begins having_name s = Some (ok, if ok then s1 else s)) /\
  (exists ok s1,
     array_ends s = Some (ok, s1) /\
     try_array_ends s = Some (ok, if ok then s1 else s)).
Proof.
  split.
  - destruct (array_begins_named_inv (fun _ => True) always_advance
                always_set_error having_name s Logic.I) as (ok & s1 & E & _).
    exists ok, s1. split; [exact E |].
    unfold try_array_begins, save_state.
    change (bind get ?f s) with (f s s). cbv beta.
    rewrite (bind_eq _ _ _ _ _ E). destruct ok; reflexivity.
  - destruct (read_symbol_inv (fun _ => True) always_advance always_set_error
                "]" ClosingBracketExpected s Logic.I) as (ok & s1 & E & _).
    exists ok, s1. split; [exact E |].
    unfold try_array_ends, save_state.
    change (bind get ?f s) with (f s s). cbv beta.
    unfold array_ends, read_closing_bracket.
    rewrite (bind_eq _ _ _ _ _ E). destruct ok; reflexivity.
Qed.

(** ** Arrays of doubles (lines 86-103, 119-134) *)

Lemma read_doubles_loop_outside k i num_elements values s ok values' s'
  (j : nat) :
  0 <= i ->
  read_doubles_loop k i num_elements values s = Some ((ok, values'), s') ->
  (j < Z.to_nat i \/ Z.to_nat i + k <= j)%nat ->
  values' !! j = values !! j.
Proof.
  revert i values s. induction k as [| k IH]; intros i values s Hi E Hj;
    simpl in E.
  - inversion E; subst. reflexivity.
  - apply bind_Some in E as ([okd v] & s1 & _ & E).
    assert (H1 : values_set values i v !! j = values !! j)
      by (apply list_lookup_insert_ne; lia).
    destruct okd; simpl in E; [| inversion E; subst; exact H1].
    destruct (i <? num_elements - 1).
    + apply bind_Some in E as (comma & s2 & _ & E).
      destruct comma; simpl in E; [| inversion E; subst; exact H1].
      rewrite (IH (i + 1) _ _ ltac:(lia) E ltac:(lia)). exact H1.
    + rewrite (IH (i + 1) _ _ ltac:(lia) E ltac:(lia)). exact H1.
Qed.

Lemma zero_fill_lookup_after k i values (j : nat) :
  0 <= i -> (Z.to_nat i + k <= j)%nat ->
  zero_fill k i values !! j = values !! j.
Proof.
  revert i values. induction k as [| k IH]; intros i values Hi Hj; simpl;
    [reflexivity |].
  rewrite IH by lia. apply list_lookup_insert_ne. lia.
Qed.

(** X4: the reads of an array of [num_elements] doubles return, keep the
    length of the array, and store nothing at an index of [num_elements]
    or above: whether they succeed or fail, and for [try_read] the
    zero-filling included, the elements from [num_elements] on are those
    of the call. *)
Theorem array_reads_stay_in_bounds (key : list ascii) (values : list double)
  (num_elements : Z) (s : ParserState) :
  let kept (values' : list double) :=
    length values' = length values /\
    forall j : nat, (Z.to_nat num_elements <= j)%nat ->
                    values' !! j = values !! j in
  (exists ok values' s',
     read_doubles values num_elements s = Some ((ok, values'), s') /\
     kept values') /\
  (exists ok values' s',
     read_doubles_member key values num_elements s = Some ((ok, values'), s') /\
     kept values') /\
  (exists ok values' s',
     try_read_doubles key values num_elements s = Some ((ok, values'), s') /\
     kept values').
Proof.
  intros kept.
  assert (Hrd : forall t ok values' t',
            read_doubles values num_elements t = Some ((ok, values'), t') ->
            forall j : nat, (Z.to_nat num_elements <= j)%nat ->
                            values' !! j = values !! j).
  { intros t ok values' t' E j Hj. unfold read_doubles in E.
    destruct (num_elements =? 0); [inversion E; subst; reflexivity |].
    apply (read_doubles_loop_outside _ 0 _ _ _ _ _ _ j ltac:(lia) E).
    right. simpl. lia. }
  assert (Hrm : forall ok values' s',
            read_doubles_member key values num_elements s
            = Some ((ok, values'), s') ->
            forall j : nat, (Z.to_nat num_elements <= j)%nat ->
                            values' !! j = values !! j).
  { intros ok values' s' E j Hj. unfold read_doubles_member in E.
    apply bind_Some in E as (ok1 & s1 & _ & E).
    destruct ok1; simpl in E; [| inversion E; subst; reflexivity].
    apply bind_Some in E as ([ok2 values2] & s2 & E2 & E).
    destruct ok2; simpl in E.
    - apply bind_Some in E as (ok3 & s3 & _ & E). inversion E; subst.
      eapply Hrd; eassumption.
    - inversion E; subst. eapply Hrd; eassumption. }
  split; [| split].
  - destruct (read_doubles_inv (fun _ => True) always_advance always_set_error
                values num_elements s Logic.I)
      as ([ok values'] & s' & E & _ & Hl).
    exists ok, values', s'. split; [exact E |]. split; [exact Hl |].
    eapply Hrd; exact E.
  - destruct (read_doubles_member_inv (fun _ => True) always_advance
                always_set_error key values num_elements s Logic.I)
      as ([ok values'] & s' & E & _ & Hl).
    exists ok, values', s'. split; [exact E |]. split; [exact Hl |].
    eapply Hrm; exact E.
  - destruct (read_doubles_member_inv (fun _ => True) always_advance
                always_set_error key values num_elements s Logic.I)
      as ([ok values'] & s' & E & _ & Hl). simpl in Hl.
    unfold try_read_doubles, save_state.
    change (bind get ?f s) with (f s s). cbv beta.
    rewrite (bind_eq _ _ _ _ _ E). destruct ok; simpl.
    + exists true, values', s'. split; [reflexivity |]. split; [exact Hl |].
      eapply Hrm; exact E.
    + eexists false, _, s. split; [reflexivity |].
      split; [rewrite zero_fill_length; exact Hl |].
      intros j Hj. rewrite zero_fill_lookup_after by lia.
      eapply Hrm; eassumption.
Qed.

(** ** What the cursor is in front of *)

Lemma reads_nil s : reads s [] -> eof s = true /\ symbol s = zero.
Proof.
  intros [[Ho Hs] Hsk].
  assert (E : eof s = true).
  { unfold eof. apply Z.leb_le. apply (f_equal (@length ascii)) in Hsk.
    rewrite length_skipn in Hsk. unfold m_input_length. simpl in Hsk. lia. }
  rewrite E in Hs. auto.
Qed.

Lemma reads_cons s c l :
  reads s (c :: l) ->
  eof s = false /\ symbol s = c /\
  exists s', advance s = Some (true, s') /\ reads s' l /\
             error s' = error s /\ offset s' = offset s + 1.
Proof.
  intros [Hw Hsk]. pose proof Hw as [Ho Hs].
  destruct (skipn_cons_inv _ _ _ (proj1 Ho) Hsk) as (Hlt & Hat & Hsk').
  assert (E : eof s = false) by (unfold eof; apply Z.leb_gt; exact Hlt).
  rewrite E in Hs. split; [exact E |]. split; [congruence |].
  destruct (advance_not_eof s E) as (s' & Ea & Ho' & He' & _).
  exists s'. split; [exact Ea |]. split; [| auto].
  split; [eapply well_formed_advance; eassumption | rewrite Ho'; exact Hsk'].
Qed.

Lemma reads_length s l : reads s l -> remaining s = length l.
Proof.
  intros [[Ho _] Hsk]. apply (f_equal (@length ascii)) in Hsk.
  rewrite length_skipn in Hsk. unfold remaining, m_input_length. lia.
Qed.

Lemma reads_offset s l : reads s l -> offset s = m_input_length - Z.of_nat (length l).
Proof.
  intros H. pose proof (reads_length s l H) as Hr. destruct H as [[Ho _] _].
  unfold remaining in Hr. lia.
Qed.

Lemma reads_initial : reads initial_state m_input.
Proof. split; [apply well_formed_initial | reflexivity]. Qed.

(** ** Whitespace and comments (lines 150-173, 218-268) *)

Lemma skip_loop_over_whitespace (w l : list ascii) n s :
  reads s (w ++ l) -> forallb isspace w = true ->
  exists s1,
    skip_comments_and_whitespace_loop (length w + n) s
    = skip_comments_and_whitespace_loop n s1 /\
    reads s1 l /\ error s1 = error s /\
    offset s1 = offset s + Z.of_nat (length w).
Proof.
  revert s. induction w as [| x w IH]; intros s Hr Hsp.
  - exists s. simpl. split; [reflexivity |]. split; [exact Hr |].
    split; [reflexivity | lia].
  - simpl in Hr, Hsp. apply andb_true_iff in Hsp as [Hx Hsp].
    destruct (reads_cons _ _ _ Hr) as (E & Hs & s' & Ea & Hr' & He' & Ho').
    destruct (IH s' Hr' Hsp) as (s1 & El & Hr1 & He1 & Ho1).
    exists s1. split; [| split; [exact Hr1 | split; [congruence |]]].
    + simpl. rewrite E, Hs, Hx, (bind_eq _ _ _ _ _ Ea). exact El.
    + rewrite Ho1, Ho'. simpl length. lia.
Qed.

(** The skip, seen from the input: a run of whitespace is consumed, and
    behind it the loop is composed of one more round. *)
Lemma skip_over_whitespace (w l : list ascii) s :
  reads s (w ++ l) -> forallb isspace w = true ->
  exists s1,
    skip_comments_and_whitespace s
    = skip_comments_and_whitespace_loop (S (length l)) s1 /\
    reads s1 l /\ error s1 = error s /\
    offset s1 = offset s + Z.of_nat (length w).
Proof.
  intros Hr Hsp.
  destruct (skip_loop_over_whitespace w l (S (length l)) s Hr Hsp)
    as (s1 & El & H).
  exists s1. split; [| exact H].
  rewrite <- El. unfold skip_comments_and_whitespace, bounded.
  change (loop_bound s) with (S (remaining s)).
  rewrite (reads_length _ _ Hr), length_app. f_equal. lia.
Qed.

Lemma read_comment_line_reads (l : list ascii) n s :
  reads s l -> (length l < n)%nat ->
  exists s', read_comment_line n s = Some (tt, s') /\
             reads s' (from_newline l) /\ error s' = error s.
Proof.
  revert n s. induction l as [| c l IH]; intros n s Hr Hn;
    (destruct n as [| n]; [lia |]); simpl.
  - destruct (reads_nil _ Hr) as [E _]. rewrite E. simpl.
    exists s. auto.
  - destruct (reads_cons _ _ _ Hr) as (E & Hs & s' & Ea & Hr' & He' & _).
    rewrite E, Hs. simpl. destruct (c =? newline)%char; simpl.
    + exists s. auto.
    + rewrite (bind_eq _ _ _ _ _ Ea).
      destruct (IH n s' Hr' ltac:(simpl in Hn; lia)) as (s'' & El & Hr'' & He'').
      exists s''. split; [exact El |]. split; [exact Hr'' | congruence].
Qed.

Lemma read_comment_block_reads (l : list ascii) n w s :
  reads s l -> (length l < n)%nat ->
  match (if w && starts_with "/" l then Some (tl l)
         else after_block_comment l) with
  | Some rest =>
      exists s', read_comment_block n w s = Some (true, s') /\
                 reads s' rest /\ error s' = error s
  | None =>
      exists s', read_comment_block n w s = Some (false, s') /\
                 reads s' [] /\
                 error s' = mkParserError InputTruncated (line s') (column s')
  end.
Proof.
  revert n w s. induction l as [| c l IH]; intros n w s Hr Hn;
    (destruct n as [| n]; [lia |]).
  - destruct (reads_nil _ Hr) as [E _]. rewrite andb_false_r.
    simpl. rewrite E. eexists. split; [reflexivity |].
    split; [exact Hr | reflexivity].
  - destruct (reads_cons _ _ _ Hr) as (E & Hs & s' & Ea & Hr' & He' & _).
    simpl read_comment_block. rewrite E, Hs. clear Hs.
    simpl starts_with. simpl after_block_comment. simpl tl.
    specialize (IH n). simpl in Hn.
    destruct (c =? "*")%char eqn:Ec.
    + apply Ascii.eqb_eq in Ec. subst c. simpl. rewrite andb_false_r.
      rewrite (bind_eq _ _ _ _ _ Ea).
      specialize (IH true s' Hr' ltac:(lia)). simpl in IH.
      destruct (starts_with "/" l).
      * destruct IH as (s'' & El & Hr'' & He''). exists s''.
        split; [exact El |]. split; [exact Hr'' | congruence].
      * destruct (after_block_comment l).
        -- destruct IH as (s'' & El & Hr'' & He''). exists s''.
           split; [exact El |]. split; [exact Hr'' | congruence].
        -- exact IH.
    + simpl. destruct (w && (c =? "/")%char) eqn:Ew.
      * rewrite (bind_eq _ _ _ _ _ Ea). exists s'. auto.
      * rewrite (bind_eq _ _ _ _ _ Ea).
        specialize (IH false s' Hr' ltac:(lia)). simpl in IH.
        destruct (after_block_comment l).
        -- destruct IH as (s'' & El & Hr'' & He''). exists s''.
           split; [exact El |]. split; [exact Hr'' | congruence].
        -- exact IH.
Qed.

Lemma skip_reads_end (w : list ascii) s :
  reads s w -> forallb isspace w = true ->
  exists s1, skip_comments_and_whitespace s = Some (true, s1) /\
             reads s1 [] /\ error s1 = error s.
Proof.
  intros Hr Hsp. rewrite <- (app_nil_r w) in Hr.
  destruct (skip_over_whitespace w [] s Hr Hsp) as (s1 & El & Hr1 & He1 & _).
  exists s1. split; [| auto]. rewrite El. simpl.
  destruct (reads_nil _ Hr1) as [E _]. rewrite E. reflexivity.
Qed.

Lemma skip_reads_content (w : list ascii) c rest s :
  reads s (w ++ c :: rest) -> forallb isspace w = true ->
  isspace c = false -> (c =? "/")%char = false ->
  exists s1, skip_comments_and_whitespace s = Some (true, s1) /\
             reads s1 (c :: rest) /\ error s1 = error s /\
             offset s1 = offset s + Z.of_nat (length w).
Proof.
  intros Hr Hsp Hc Hslash.
  destruct (skip_over_whitespace w (c :: rest) s Hr Hsp)
    as (s1 & El & Hr1 & He1 & Ho1).
  exists s1. split; [| auto]. rewrite El.
  destruct (reads_cons _ _ _ Hr1) as (E & Hs & _).
  simpl. rewrite E, Hs, Hc, Hslash. reflexivity.
Qed.

Lemma bool_bind_id (m : M bool) s :
  (ok <- m ;; if negb ok then ret false else ret true) s = m s.
Proof.
  unfold bind. destruct (m s) as [[[] s'] |]; reflexivity.
Qed.

Lemma skip_at_slash (w rest : list ascii) s :
  reads s (w ++ "/"%char :: rest) -> forallb isspace w = true ->
  exists s2, skip_comments_and_whitespace s = read_comment s2 /\
             reads s2 rest /\ error s2 = error s /\
             offset s2 = offset s + Z.of_nat (length w) + 1.
Proof.
  intros Hr Hsp.
  destruct (skip_over_whitespace w ("/"%char :: rest) s Hr Hsp)
    as (s1 & El & Hr1 & He1 & Ho1).
  destruct (reads_cons _ _ _ Hr1) as (E & Hs & s2 & Ea & Hr2 & He2 & Ho2).
  exists s2. split; [| split; [exact Hr2 | split; [congruence | lia]]].
  rewrite El. simpl. rewrite E, Hs. simpl.
  rewrite (bind_eq _ _ _ _ _ Ea). apply bool_bind_id.
Qed.

(** [read_comment] behind the slash, on the star of a block comment. *)
Lemma read_comment_at_block (l : list ascii) (s2 : ParserState) :
  reads s2 ("*"%char :: l) ->
  match after_block_comment l with
  | Some rest =>
      exists s', read_comment s2 = Some (true, s') /\
                 reads s' rest /\ error s' = error s2
  | None =>
      exists s', read_comment s2 = Some (false, s') /\
                 reads s' [] /\
                 error s' = mkParserError InputTruncated (line s') (column s')
  end.
Proof.
  intros Hr2.
  destruct (reads_cons _ _ _ Hr2) as (E & Hs & s3 & Ea & Hr3 & He3 & _).
  assert (Hc : read_comment s2 = read_comment_block (loop_bound s3) false s3).
  { unfold read_comment. rewrite E, Hs. simpl.
    rewrite (bind_eq _ _ _ _ _ Ea). reflexivity. }
  pose proof (read_comment_block_reads l (loop_bound s3) false s3 Hr3) as H.
  change (loop_bound s3) with (S (remaining s3)) in H.
  rewrite (reads_length _ _ Hr3) in H. specialize (H ltac:(lia)). simpl in H.
  change (loop_bound s3) with (S (remaining s3)) in Hc.
  rewrite (reads_length _ _ Hr3) in Hc. rewrite Hc.
  destruct (after_block_comment l).
  - destruct H as (s' & El' & Hr' & He'). exists s'.
    split; [exact El' |]. split; [exact Hr' | congruence].
  - exact H.
Qed.

(** [read_comment] behind the slash, on the second slash of a line
    comment. *)
Lemma read_comment_at_line (l : list ascii) (s2 : ParserState) :
  reads s2 ("/"%char :: l) ->
  exists s', read_comment s2 = Some (true, s') /\
             reads s' (from_newline l) /\ error s' = error s2.
Proof.
  intros Hr2.
  destruct (reads_cons _ _ _ Hr2) as (E & Hs & _).
  destruct (read_comment_line_reads _ (loop_bound s2) s2 Hr2)
    as (s' & El' & Hr' & He').
  { change (loop_bound s2) with (S (remaining s2)).
    rewrite (reads_length _ _ Hr2). lia. }
  exists s'. split; [| split; [exact Hr' | exact He']].
  unfold read_comment. rewrite E, Hs. simpl.
  rewrite (bind_eq (bounded read_comment_line) _ _ _ _ El'). reflexivity.
Qed.

(** X5: the skip at a block comment, after any whitespace.  The comment
    ends with the first star that a slash follows at once ([after_block_comment]);
    the skip then returns true with the cursor behind that slash and the
    error as it was.  When no such pair follows, the skip consumes the input
    to its end and returns false with the error [InputTruncated]. *)
Theorem skip_block_comment (w l : list ascii) (s : ParserState) :
  reads s (w ++ "/"%char :: "*"%char :: l) -> forallb isspace w = true ->
  match after_block_comment l with
  | Some rest =>
      exists s', skip_comments_and_whitespace s = Some (true, s') /\
                 reads s' rest /\ error s' = error s
  | None =>
      exists s', skip_comments_and_whitespace s = Some (false, s') /\
                 reads s' [] /\
                 error s' = mkParserError InputTruncated (line s') (column s')
  end.
Proof.
  intros Hr Hsp.
  destruct (skip_at_slash w _ s Hr Hsp) as (s2 & El & Hr2 & He2 & _).
  pose proof (read_comment_at_block l s2 Hr2) as H. rewrite El.
  destruct (after_block_comment l) as [rest |].
  - destruct H as (s' & Ec & Hr' & He'). exists s'.
    split; [exact Ec |]. split; [exact Hr' | congruence].
  - exact H.
Qed.

(** X6: the skip at a line comment, after any whitespace, returns true with
    the cursor on the first newline behind the two slashes, or at the end
    of the input when there is none; the newline itself is not consumed,
    and the error is as it was. *)
Theorem skip_line_comment (w l : list ascii) (s : ParserState) :
  reads s (w ++ "/"%char :: "/"%char :: l) -> forallb isspace w = true ->
  exists s', skip_comments_and_whitespace s = Some (true, s') /\
             reads s' (from_newline l) /\ error s' = error s.
Proof.
  intros Hr Hsp.
  destruct (skip_at_slash w _ s Hr Hsp) as (s2 & El & Hr2 & He2 & _).
  destruct (read_comment_at_line l s2 Hr2) as (s' & Ec & Hr' & He').
  exists s'. rewrite El.
  split; [exact Ec |]. split; [exact Hr' | congruence].
Qed.

(** X7: a slash that opens no comment.  After any whitespace, a slash at the
    very end of the input makes the skip return false with
    [InputTruncated]; a slash before a byte that is neither a slash nor a
    star makes it return false with [CommentBeginsIncorrectly].  In both
    cases the slash is consumed: the cursor is left behind it. *)
Theorem skip_slash_without_comment (w : list ascii) (s : ParserState) :
  forallb isspace w = true ->
  (reads s (w ++ ["/"%char]) ->
   exists s', skip_comments_and_whitespace s = Some (false, s') /\
              reads s' [] /\
              error s' = mkParserError InputTruncated (line s') (column s')) /\
  (forall c rest,
     reads s (w ++ "/"%char :: c :: rest) ->
     (c =? "/")%char = false -> (c =? "*")%char = false ->
     exists s', skip_comments_and_whitespace s = Some (false, s') /\
                reads s' (c :: rest) /\
                error s' =
                  mkParserError CommentBeginsIncorrectly (line s') (column s')).
Proof.
  intros Hsp. split.
  - intros Hr.
    destruct (skip_at_slash w _ s Hr Hsp) as (s2 & El & Hr2 & _).
    destruct (reads_nil _ Hr2) as [E _].
    exists (with_error InputTruncated s2). rewrite El. unfold read_comment.
    rewrite E. split; [reflexivity |]. split; [exact Hr2 | reflexivity].
  - intros c rest Hr Hslash Hstar.
    destruct (skip_at_slash w _ s Hr Hsp) as (s2 & El & Hr2 & _).
    destruct (reads_cons _ _ _ Hr2) as (E & Hs & _).
    exists (with_error CommentBeginsIncorrectly s2). rewrite El.
    unfold read_comment. rewrite E, Hs, Hslash, Hstar.
    split; [reflexivity |]. split; [exact Hr2 | reflexivity].
Qed.

(** ** Structural bytes (lines 196-216) *)

Lemma skip_fail_if_eof_reads_content (w : list ascii) c rest s :
  reads s (w ++ c :: rest) -> forallb isspace w = true ->
  isspace c = false -> (c =? "/")%char = false ->
  exists s1, skip_comments_and_whitespace_fail_if_eof s = Some (true, s1) /\
             reads s1 (c :: rest) /\ error s1 = error s /\
             offset s1 = offset s + Z.of_nat (length w).
Proof.
  intros Hr Hsp Hc Hslash.
  destruct (skip_reads_content w c rest s Hr Hsp Hc Hslash)
    as (s1 & El & Hr1 & H).
  exists s1. split; [| auto].
  unfold skip_comments_and_whitespace_fail_if_eof.
  rewrite (bind_eq _ _ _ _ _ El). simpl.
  destruct (reads_cons _ _ _ Hr1) as (E & _). rewrite E. reflexivity.
Qed.

Lemma skip_fail_if_eof_reads_end (w : list ascii) s :
  reads s w -> forallb isspace w = true ->
  exists s1,
    skip_comments_and_whitespace_fail_if_eof s
    = Some (false, with_error InputTruncated s1) /\
    reads s1 [] /\ error s1 = error s.
Proof.
  intros Hr Hsp.
  destruct (skip_reads_end w s Hr Hsp) as (s1 & El & Hr1 & He1).
  exists s1. split; [| auto].
  unfold skip_comments_and_whitespace_fail_if_eof.
  rewrite (bind_eq _ _ _ _ _ El). simpl.
  destruct (reads_nil _ Hr1) as [E _]. rewrite E. reflexivity.
Qed.

(** X8: a structural match ([read_symbol], so [object_begins],
    [object_ends], [array_begins], [array_ends], the equal sign and the
    comma), seen from the input.  Behind any whitespace, on a byte that is
    the expected one: true, the cursor behind that byte, the error as it
    was.  On another byte (that opens no comment): false, the byte not
    consumed, the reason recorded at its position.  On nothing but
    whitespace to the end of the input: false with [InputTruncated]. *)
Theorem read_symbol_on_input (expected : ascii) (reason : ErrorKind)
  (w : list ascii) (s : ParserState) :
  forallb isspace w = true ->
  (reads s w ->
   exists s', read_symbol expected reason s = Some (false, s') /\
              reads s' [] /\
              error s' = mkParserError InputTruncated (line s') (column s')) /\
  (forall c rest,
     reads s (w ++ c :: rest) ->
     isspace c = false -> (c =? "/")%char = false ->
     (c = expected ->
      exists s', read_symbol expected reason s = Some (true, s') /\
                 reads s' rest /\ error s' = error s /\
                 offset s' = offset s + Z.of_nat (length w) + 1) /\
     (c <> expected ->
      exists s', read_symbol expected reason s = Some (false, s') /\
                 reads s' (c :: rest) /\
                 offset s' = offset s + Z.of_nat (length w) /\
                 error s' = mkParserError reason (line s') (column s'))).
Proof.
  intros Hsp. split.
  - intros Hr.
    destruct (skip_fail_if_eof_reads_end w s Hr Hsp) as (s1 & El & Hr1 & _).
    exists (with_error InputTruncated s1). unfold read_symbol.
    rewrite (bind_eq _ _ _ _ _ El).
    split; [reflexivity |]. split; [exact Hr1 | reflexivity].
  - intros c rest Hr Hc Hslash.
    destruct (skip_fail_if_eof_reads_content w c rest s Hr Hsp Hc Hslash)
      as (s1 & El & Hr1 & He1 & Ho1).
    destruct (reads_cons _ _ _ Hr1) as (E & Hs & s2 & Ea & Hr2 & He2 & Ho2).
    split.
    + intros ->. exists s2. unfold read_symbol.
      rewrite (bind_eq _ _ _ _ _ El). simpl.
      rewrite Hs, Ascii.eqb_refl, (bind_eq _ _ _ _ _ Ea).
      split; [reflexivity |]. split; [exact Hr2 |].
      split; [congruence | lia].
    + intros Hne. exists (with_error reason s1). unfold read_symbol.
      rewrite (bind_eq _ _ _ _ _ El). simpl.
      apply Ascii.eqb_neq in Hne. rewrite Hs, Hne.
      split; [reflexivity |]. split; [exact Hr1 |].
      split; [exact Ho1 | reflexivity].
Qed.

(** ** The remainder (lines 136-148) *)

(** X9: [remainder_is_comments_and_whitespace], seen from the input.  On
    nothing but whitespace to the end of the input, and on whitespace and
    then a line comment without a newline or a block comment that closes
    with the last byte: true, with the cursor at the end and the error as
    it was.  On whitespace and then a byte that is neither whitespace nor a
    slash: false, the cursor on that byte, the error
    [UnexpectedContentAtEnd] recorded there. *)
Theorem remainder_on_input (w : list ascii) (s : ParserState) :
  forallb isspace w = true ->
  let at_end s' :=
    remainder_is_comments_and_whitespace s = Some (true, s') /\
    reads s' [] /\ error s' = error s in
  (reads s w -> exists s', at_end s') /\
  (forall l,
     reads s (w ++ "/"%char :: "/"%char :: l) -> from_newline l = [] ->
     exists s', at_end s') /\
  (forall l,
     reads s (w ++ "/"%char :: "*"%char :: l) ->
     after_block_comment l = Some [] ->
     exists s', at_end s') /\
  (forall c rest,
     reads s (w ++ c :: rest) ->
     isspace c = false -> (c =? "/")%char = false ->
     exists s',
       remainder_is_comments_and_whitespace s = Some (false, s') /\
       reads s' (c :: rest) /\
       offset s' = offset s + Z.of_nat (length w) /\
       error s' =
         mkParserError UnexpectedContentAtEnd (line s') (column s')).
Proof.
  intros Hsp at_end.
  assert (Hend : forall s1,
            skip_comments_and_whitespace s = Some (true, s1) ->
            reads s1 [] -> error s1 = error s -> at_end s1).
  { intros s1 El Hr1 He1. split; [| auto].
    unfold remainder_is_comments_and_whitespace.
    rewrite (bind_eq _ _ _ _ _ El). simpl.
    destruct (reads_nil _ Hr1) as [E _]. rewrite E. reflexivity. }
  split; [| split; [| split]].
  - intros Hr. destruct (skip_reads_end w s Hr Hsp) as (s1 & El & Hr1 & He1).
    exists s1. apply Hend; assumption.
  - intros l Hr Hl.
    destruct (skip_at_slash w _ s Hr Hsp) as (s2 & El & Hr2 & He2 & _).
    destruct (read_comment_at_line l s2 Hr2) as (s1 & Ec & Hr1 & He1).
    rewrite Hl in Hr1. exists s1.
    apply Hend; [rewrite El; exact Ec | exact Hr1 | congruence].
  - intros l Hr Hl.
    destruct (skip_at_slash w _ s Hr Hsp) as (s2 & El & Hr2 & He2 & _).
    pose proof (read_comment_at_block l s2 Hr2) as H.
    rewrite Hl in H. destruct H as (s1 & Ec & Hr1 & He1).
    exists s1. apply Hend; [rewrite El; exact Ec | exact Hr1 | congruence].
  - intros c rest Hr Hc Hslash.
    destruct (skip_reads_content w c rest s Hr Hsp Hc Hslash)
      as (s1 & El & Hr1 & He1 & Ho1).
    exists (with_error UnexpectedContentAtEnd s1).
    unfold remainder_is_comments_and_whitespace.
    rewrite (bind_eq _ _ _ _ _ El). simpl.
    destruct (reads_cons _ _ _ Hr1) as (E & _). rewrite E. simpl.
    split; [reflexivity |]. split; [exact Hr1 |].
    split; [exact Ho1 | reflexivity].
Qed.

(** ** Keys that are accepted, keys that are malformed (lines 270-297,
    344-393) *)










(** ** Booleans that are not there (lines 395-431) *)





(** ** Lines and columns, counted on the input (lines 524-551) *)

Lemma count_newlines_app l c :
  count_newlines (l ++ [c])
  = count_newlines l + (if (c =? newline)%char then 1 else 0).
Proof. induction l as [| x l IH]; simpl; [lia | rewrite IH; lia]. Qed.

Lemma since_newline_app l c :
  since_newline (l ++ [c])
  = if (c =? newline)%char then 0 else since_newline l + 1.
Proof.
  unfold since_newline. rewrite rev_app_distr. simpl.
  destruct (c =? newline)%char; simpl; lia.
Qed.

Lemma uint32_wrap_succ x : uint32_wrap (uint32_wrap x + 1) = uint32_wrap (x + 1).
Proof. unfold uint32_wrap. apply Zplus_mod_idemp_l. Qed.

Lemma landed_advance s s' :
  well_formed s -> eof s = false -> advance s = Some (true, s') ->
  (eof s' = true /\ landed s' = landed s /\
   line s' = line s /\ column s' = column s) \/
  (eof s' = false /\ landed s' = landed s ++ [symbol s'] /\
   (if (symbol s' =? newline)%char
    then line s' = uint32_wrap (line s + 1) /\ column s' = 1
    else line s' = line s /\ column s' = uint32_wrap (column s + 1))).
Proof.
  intros [Ho _] E Ea. unfold advance in Ea. rewrite E in Ea.
  unfold eof in E. apply Z.leb_gt in E.
  destruct (m_input_length <=? offset s + 1) eqn:E1.
  - left. inversion Ea; subst s'; clear Ea. unfold eof, landed; simpl.
    rewrite E1. apply Z.leb_le in E1. split; [reflexivity |].
    split; [| auto]. unfold m_input_length in *.
    rewrite !firstn_all2; [reflexivity | |];
      destruct m_input; simpl in *; lia.
  - right. apply Z.leb_gt in E1.
    assert (Hl : firstn (Z.to_nat (offset s + 1)) (tl m_input)
                 = firstn (Z.to_nat (offset s)) (tl m_input)
                   ++ [input_at (offset s + 1)]).
    { unfold input_at, m_input_length in *.
      replace (Z.to_nat (offset s + 1)) with (S (Z.to_nat (offset s))) by lia.
      destruct m_input as [| c0 l0]; simpl in *; [lia |].
      assert (Hn : (Z.to_nat (offset s) < length l0)%nat) by lia.
      revert Hn. generalize (Z.to_nat (offset s)). clear.
      induction l0 as [| x l0 IH]; intros n Hn; simpl in *; [lia |].
      destruct n as [| n]; [reflexivity |]. simpl. f_equal. apply IH. lia. }
    destruct (input_at (offset s + 1) =? newline)%char eqn:E2;
      inversion Ea; subst s'; clear Ea; unfold eof, landed; simpl;
      (split; [apply Z.leb_gt; exact E1 |]); (split; [exact Hl |]);
      rewrite E2; auto.
Qed.

(** X13: the position, counted on the input.  In every reachable state the
    line is one more than the number of newlines among the bytes the cursor
    has landed on (those at the offsets 1 to the cursor's: the first byte
    of the input is never counted), and the column is one more than the
    number of bytes landed on since the last of these newlines; both as
    32-bit numbers.  So the position is a function of the offset: two
    reachable states at the same offset have the same line and column. *)
Theorem position_counts_landed_bytes (s : ParserState) :
  reachable s ->
  line s = uint32_wrap (1 + count_newlines (landed s)) /\
  column s = uint32_wrap (1 + since_newline (landed s)) /\
  forall t, reachable t -> offset t = offset s ->
            line t = line s /\ column t = column s /\ symbol t = symbol s.
Proof.
  assert (H : forall x, reachable x ->
            line x = uint32_wrap (1 + count_newlines (landed x)) /\
            column x = uint32_wrap (1 + since_newline (landed x))).
  { induction 1 as [| x b x' Hr IH Ea | x e x' _ IH Ee].
    - unfold landed, initial_state; simpl. split; reflexivity.
    - destruct (eof x) eqn:E.
      { rewrite (advance_eof x E) in Ea. inversion Ea; subst. exact IH. }
      pose proof (reachable_well_formed x Hr) as Hw.
      destruct (advance_not_eof x E) as (x1 & Ea1 & _).
      rewrite Ea1 in Ea. inversion Ea; subst b x1. clear Ea.
      destruct IH as [IHl IHc].
      destruct (landed_advance x x' Hw E Ea1)
        as [(_ & Hl & Hli & Hco) | (_ & Hl & Hpos)].
      + rewrite Hl, Hli, Hco. auto.
      + rewrite Hl, count_newlines_app, since_newline_app.
        destruct (symbol x' =? newline)%char; destruct Hpos as [Hli Hco];
          rewrite Hli, Hco, ?IHl, ?IHc, ?uint32_wrap_succ.
        * split; [f_equal; lia | reflexivity].
        * split; [f_equal; lia | f_equal; lia].
    - inversion Ee; subst. exact IH. }
  intros Hr. destruct (H s Hr) as [Hl Hc].
  split; [exact Hl |]. split; [exact Hc |].
  intros t Ht Ho. destruct (H t Ht) as [Hlt Hct].
  assert (Hland : landed t = landed s) by (unfold landed; rewrite Ho; reflexivity).
  rewrite Hlt, Hct, Hland. split; [auto |]. split; [auto |].
  destruct (reachable_well_formed s Hr) as [_ Hs].
  destruct (reachable_well_formed t Ht) as [_ Hst].
  unfold eof in *. rewrite Hs, Hst, Ho. reflexivity.
Qed.

(** ** The grammar of numbers (lines 433-508) *)

Lemma read_double_grammar_parts s :
  read_double_grammar s
  = ((if (symbol s =? "-")%char then advance ;;; ret tt else ret tt) ;;;
     grammar_integer (offset s)) s.
Proof. reflexivity. Qed.

Lemma skip_digits_reads (l : list ascii) n s :
  reads s l -> (length l < n)%nat ->
  exists s', skip_digits n s = Some (tt, s') /\
             reads s' (skipn (digit_run l) l) /\ error s' = error s.
Proof.
  revert n s. induction l as [| c l IH]; intros n s Hr Hn;
    (destruct n as [| n]; [lia |]); simpl.
  - destruct (reads_nil _ Hr) as [_ Hs]. rewrite Hs. simpl. exists s. auto.
  - destruct (reads_cons _ _ _ Hr) as (E & Hs & s' & Ea & Hr' & He' & _).
    rewrite Hs. destruct (isdigit c); simpl; [| exists s; auto].
    rewrite (bind_eq _ _ _ _ _ Ea).
    destruct (IH n s' Hr' ltac:(simpl in Hn; lia)) as (s'' & El & Hr'' & He'').
    exists s''. split; [exact El |]. split; [exact Hr'' | congruence].
Qed.

Lemma bounded_skip_digits_reads (l : list ascii) s :
  reads s l ->
  exists s', bounded skip_digits s = Some (tt, s') /\
             reads s' (skipn (digit_run l) l) /\ error s' = error s.
Proof.
  intros Hr. apply skip_digits_reads; [exact Hr |].
  change (loop_bound s) with (S (remaining s)).
  rewrite (reads_length _ _ Hr). lia.
Qed.

Lemma reads_with_error e s l : reads s l -> reads (with_error e s) l.
Proof. intros H. exact H. Qed.

Lemma scans_shift r s s1 start (l : list ascii) k res :
  error s1 = error s ->
  scans r s1 start (skipn k l) res -> scans r s start l (shift k res).
Proof.
  intros He. destruct res as [n | e c]; simpl;
    intros (s' & Er & Hr & He'); exists s'; rewrite skipn_skipn in Hr;
    (split; [exact Er |]); (split; [| congruence]).
  - replace (k + n)%nat with (n + k)%nat by lia. exact Hr.
  - replace (k + c)%nat with (c + k)%nat by lia. exact Hr.
Qed.

Lemma grammar_exponent_scans start (l : list ascii) s :
  reads s l -> scans (grammar_exponent start s) s start l (lex_exponent l).
Proof.
  intros Hr. unfold grammar_exponent.
  change (bind get ?f s) with (f s s). cbv beta.
  destruct l as [| c l1].
  - destruct (reads_nil _ Hr) as [_ Hs]. rewrite Hs. simpl.
    exists s. auto.
  - destruct (reads_cons _ _ _ Hr) as (E & Hs & s4 & Ea & Hr4 & He4 & _).
    rewrite Hs. simpl lex_exponent.
    destruct ((c =? "e")%char || (c =? "E")%char); [| exists s; simpl; auto].
    assert (Hin : forall (K : M bool) r,
              K s4 = r ->
              bind (advance ;;; K) (fun ok : bool =>
                if negb ok then ret None else ret (Some start)) s
              = bind K (fun ok : bool =>
                  if negb ok then ret None else ret (Some start)) s4).
    { intros K r _. unfold bind at 1 2. rewrite Ea. reflexivity. }
    erewrite Hin by reflexivity. clear Hin.
    change (bind (bind get ?f) ?g s4) with (bind (f s4) g s4). cbv beta.
    destruct l1 as [| d l2].
    + destruct (reads_nil _ Hr4) as [_ Hs4]. rewrite Hs4. simpl.
      exists (with_error InvalidNumber s4).
      split; [reflexivity |]. split; [exact Hr4 | reflexivity].
    + destruct (reads_cons _ _ _ Hr4) as (E4 & Hs4 & s5 & Ea5 & Hr5 & He5 & _).
      rewrite Hs4.
      destruct ((d =? "+")%char || (d =? "-")%char).
      * destruct (bounded_skip_digits_reads l2 s5 Hr5) as (s6 & El & Hr6 & He6).
        exists s6. unfold bind at 1 2 3. rewrite Ea5. simpl.
        unfold bind at 1. rewrite El. simpl.
        split; [reflexivity |]. split; [exact Hr6 | congruence].
      * destruct (isdigit d) eqn:Ed; simpl negb; cbv iota.
        -- destruct (bounded_skip_digits_reads (d :: l2) s4 Hr4)
             as (s6 & El & Hr6 & He6).
           exists s6. unfold bind at 1 2. simpl.
           unfold bind at 1. rewrite El. simpl.
           split; [reflexivity |]. split; [exact Hr6 | congruence].
        -- exists (with_error InvalidNumber s4).
           split; [reflexivity |]. split; [exact Hr4 | reflexivity].
Qed.

Lemma grammar_fraction_scans start (l : list ascii) s :
  reads s l -> scans (grammar_fraction start s) s start l (lex_fraction l).
Proof.
  intros Hr. unfold grammar_fraction.
  change (bind get ?f s) with (f s s). cbv beta.
  destruct l as [| c l1].
  - destruct (reads_nil _ Hr) as [_ Hs]. rewrite Hs. simpl.
    pose proof (grammar_exponent_scans start [] s Hr) as H. simpl in H.
    destruct H as (s' & Er & H). exists s'. split; [| exact H].
    unfold bind at 1. simpl. exact Er.
  - destruct (reads_cons _ _ _ Hr) as (E & Hs & s3 & Ea & Hr3 & He3 & _).
    rewrite Hs. simpl lex_fraction. destruct (c =? ".")%char.
    + destruct (bounded_skip_digits_reads l1 s3 Hr3) as (s4 & El & Hr4 & He4).
      assert (Hrun : ((advance ;;; bounded skip_digits) ;;;
                      grammar_exponent start) s
                     = grammar_exponent start s4).
      { unfold bind at 1 2. rewrite Ea. cbv beta iota. rewrite El.
        reflexivity. }
      rewrite Hrun.
      apply (scans_shift _ s s4 start (c :: l1) (1 + digit_run l1));
        [congruence |].
      simpl skipn. apply grammar_exponent_scans. exact Hr4.
    + change ((ret tt ;;; grammar_exponent start) s)
        with (grammar_exponent start s).
      apply grammar_exponent_scans. exact Hr.
Qed.

Lemma grammar_integer_scans start (l : list ascii) s :
  reads s l -> scans (grammar_integer start s) s start l (lex_integer l).
Proof.
  intros Hr. unfold grammar_integer.
  change (bind get ?f s) with (f s s). cbv beta.
  destruct l as [| c l1].
  - destruct (reads_nil _ Hr) as [_ Hs]. rewrite Hs. simpl.
    exists (with_error NumberExpected s).
    split; [reflexivity |]. split; [exact Hr | reflexivity].
  - destruct (reads_cons _ _ _ Hr) as (E & Hs & s2 & Ea & Hr2 & He2 & _).
    rewrite Hs. simpl lex_integer. destruct (c =? "0")%char.
    + assert (Hrun : bind (advance ;;; ret true) (fun ok : bool =>
                  if negb ok then ret None else grammar_fraction start) s
                = grammar_fraction start s2).
      { unfold bind at 1 2. rewrite Ea. reflexivity. }
      rewrite Hrun.
      apply (scans_shift _ s s2 start (c :: l1) 1); [congruence |].
      simpl skipn. apply grammar_fraction_scans. exact Hr2.
    + destruct (isdigit c) eqn:Ed.
      * destruct (bounded_skip_digits_reads (c :: l1) s Hr)
          as (s3 & El & Hr3 & He3).
        assert (Hrun : bind (bounded skip_digits ;;; ret true)
                    (fun ok : bool =>
                       if negb ok then ret None else grammar_fraction start) s
                  = grammar_fraction start s3).
        { unfold bind at 1 2. rewrite El. reflexivity. }
        rewrite Hrun.
        assert (Hd : digit_run (c :: l1) = S (digit_run l1))
          by (simpl; rewrite Ed; reflexivity).
        rewrite Hd in Hr3.
        apply (scans_shift _ s s3 start (c :: l1) (S (digit_run l1)));
          [congruence |].
        apply grammar_fraction_scans. exact Hr3.
      * exists (with_error NumberExpected s).
        split; [reflexivity |]. split; [exact Hr | reflexivity].
Qed.

Lemma read_double_grammar_scans (l : list ascii) s :
  reads s l -> l <> [] ->
  scans (read_double_grammar s) s (offset s) l (number_lexeme l).
Proof.
  intros Hr Hne. rewrite read_double_grammar_parts.
  destruct l as [| c l1]; [contradiction |].
  destruct (reads_cons _ _ _ Hr) as (E & Hs & s1 & Ea & Hr1 & He1 & _).
  rewrite Hs. simpl number_lexeme. destruct (c =? "-")%char.
  - assert (Hrun : ((advance ;;; ret tt) ;;; grammar_integer (offset s)) s
                   = grammar_integer (offset s) s1).
    { unfold bind at 1 2. rewrite Ea. reflexivity. }
    rewrite Hrun.
    apply (scans_shift _ s s1 (offset s) (c :: l1) 1); [congruence |].
    simpl skipn. apply grammar_integer_scans. exact Hr1.
  - change ((ret tt ;;; grammar_integer (offset s)) s)
      with (grammar_integer (offset s) s).
    apply grammar_integer_scans. exact Hr.
Qed.

Lemma digit_run_le (l : list ascii) : (digit_run l <= length l)%nat.
Proof.
  induction l as [| c l IH]; simpl; [lia |]. destruct (isdigit c); lia.
Qed.

Lemma shift_fits k r (l : list ascii) :
  (k <= length l)%nat -> fits r (skipn k l) -> fits (shift k r) l.
Proof.
  intros Hk. destruct r as [n | e c]; simpl; [| trivial].
  rewrite length_skipn. lia.
Qed.

Lemma lex_exponent_fits (l : list ascii) : fits (lex_exponent l) l.
Proof.
  destruct l as [| c [| d l2]]; simpl; try lia.
  - destruct ((c =? "e")%char || (c =? "E")%char); simpl; [trivial | lia].
  - pose proof (digit_run_le l2).
    destruct ((c =? "e")%char || (c =? "E")%char); simpl; [| lia].
    destruct ((d =? "+")%char || (d =? "-")%char); simpl; [lia |].
    destruct (isdigit d); simpl; [lia | trivial].
Qed.

Lemma lex_fraction_fits (l : list ascii) : fits (lex_fraction l) l.
Proof.
  destruct l as [| c l1]; [simpl; lia |].
  unfold lex_fraction. destruct (c =? ".")%char; [| apply lex_exponent_fits].
  pose proof (digit_run_le l1).
  apply shift_fits; [simpl; lia |]. apply lex_exponent_fits.
Qed.

Lemma lex_integer_fits (l : list ascii) : fits (lex_integer l) l.
Proof.
  destruct l as [| c l1]; [simpl; trivial |].
  unfold lex_integer. destruct (c =? "0")%char.
  - apply shift_fits; [simpl; lia |]. apply lex_fraction_fits.
  - destruct (isdigit c); [| simpl; trivial].
    apply shift_fits; [apply digit_run_le |]. apply lex_fraction_fits.
Qed.

Lemma number_lexeme_fits (l : list ascii) : fits (number_lexeme l) l.
Proof.
  destruct l as [| c l1]; [simpl; trivial |].
  unfold number_lexeme. destruct (c =? "-")%char; [| apply lex_integer_fits].
  apply shift_fits; [simpl; lia |]. apply lex_integer_fits.
Qed.

(** X14: [read_double] matches the grammar of numbers: behind white
    space, on input that starts with the byte [c], not a slash, it reads
    the longest prefix the grammar [number_lexeme] accepts and leaves the
    cursor behind it.  A lexeme of 64 bytes or more is NumberIsTooLong and
    leaves [value] as it was; a shorter one is handed to [strtod], as these
    bytes and no others, and the read succeeds with its value when [strtod]
    used them all, and is NumberCouldNotBeConverted, with [value]
    overwritten, when it did not.  Where the grammar fails, the read fails
    with the grammar's error, recorded at the byte that broke it, and
    leaves [value] as it was. *)
Theorem read_double_follows_grammar (value : double) (w : list ascii)
  (c : ascii) (rest : list ascii) (s : ParserState) :
  m_input_length < 2 ^ 64 ->
  reads s (w ++ c :: rest) -> forallb isspace w = true ->
  isspace c = false -> (c =? "/")%char = false ->
  match number_lexeme (c :: rest) with
  | Lexeme n =>
      exists s', reads s' (skipn n (c :: rest)) /\ error s' = error s /\
        read_double value s =
          if 64 <=? Z.of_nat n
          then Some ((false, value), with_error NumberIsTooLong s')
          else
            let '(v, last_used_symbol) := strtod (firstn n (c :: rest)) in
            if last_used_symbol =? Z.of_nat n then Some ((true, v), s')
            else Some ((false, v), with_error NumberCouldNotBeConverted s')
  | LexemeError e k =>
      exists s', read_double value s = Some ((false, value), s') /\
                 reads s' (skipn k (c :: rest)) /\
                 error s' = mkParserError e (line s') (column s')
  end.
Proof.
  intros Hlen Hr Hsp Hc Hslash.
  destruct (skip_fail_if_eof_reads_content w c rest s Hr Hsp Hc Hslash)
    as (s1 & Eskip & Hr1 & He1 & _).
  pose proof (read_double_grammar_scans (c :: rest) s1 Hr1 ltac:(discriminate))
    as Hscan.
  pose proof (number_lexeme_fits (c :: rest)) as Hfit.
  destruct (number_lexeme (c :: rest)) as [n | e k]; simpl in Hscan, Hfit.
  - destruct Hscan as (s' & Eg & Hr' & He').
    exists s'. split; [exact Hr' |]. split; [congruence |].
    assert (Elex : read_double_lexeme s = Some (Some (offset s1), s')).
    { unfold read_double_lexeme. rewrite (bind_eq _ _ _ _ _ Eskip).
      simpl. exact Eg. }
    unfold read_double. rewrite (bind_eq _ _ _ _ _ Elex).
    unfold read_double_convert.
    assert (Ho : offset s' = offset s1 + Z.of_nat n).
    { rewrite (reads_offset _ _ Hr'), (reads_offset _ _ Hr1), length_skipn.
      cbn [length]. lia. }
    assert (Hn : 0 <= Z.of_nat n < 2 ^ 64).
    { pose proof (reads_offset _ _ Hr1) as Ho1. cbn [length] in Ho1.
      destruct Hr1 as [[Hb _] _]. lia. }
    rewrite Ho, (size_t_wrap_length _ _ Hn).
    unfold MAX_NUMBER_LENGTH, input_slice.
    destruct Hr1 as [[Hb _] Hsk]. rewrite Hsk, Nat2Z.id.
    destruct (64 <=? Z.of_nat n); [reflexivity |].
    destruct (strtod (firstn n (c :: rest))) as [v used].
    destruct (used =? Z.of_nat n); reflexivity.
  - destruct Hscan as (s' & Eg & Hr' & He').
    exists s'. split; [| split; [exact Hr' | exact He']].
    assert (Elex : read_double_lexeme s = Some (None, s')).
    { unfold read_double_lexeme. rewrite (bind_eq _ _ _ _ _ Eskip).
      simpl. exact Eg. }
    unfold read_double. rewrite (bind_eq _ _ _ _ _ Elex). reflexivity.
Qed.

(** ** Errors and results *)

Lemma settles_ret {A} (okf : A -> bool) (a : A) :
  okf a = true -> settles okf (ret a).
Proof.
  intros H s a' s' E. inversion E; subst. unfold settled. rewrite H.
  reflexivity.
Qed.

Lemma relays_ret {A} (okf : A -> bool) (a : A) :
  okf a = false -> relays okf (ret a).
Proof. intros H s a' s' Hf E. inversion E; subst. auto. Qed.

Lemma settles_bind {A B} (okA : A -> bool) (okB : B -> bool)
  (m : M A) (k : A -> M B) :
  settles okA m ->
  (forall a, okA a = true -> settles okB (k a)) ->
  (forall a, okA a = false -> relays okB (k a)) ->
  settles okB (bind m k).
Proof.
  intros Hm Ht Hf s b s'' E.
  apply bind_Some in E as (a & s' & Em & Ek).
  pose proof (Hm _ _ _ Em) as H. unfold settled in *.
  destruct (okA a) eqn:Ea.
  - pose proof (Ht a Ea _ _ _ Ek) as H'. unfold settled in H'.
    destruct (okB b); [congruence | exact H'].
  - destruct (Hf a Ea _ _ _ H Ek) as [Eb H']. rewrite Eb. exact H'.
Qed.

Lemma settles_then {A B} (okB : B -> bool) (m : M A) (k : A -> M B) :
  settles (fun _ => true) m -> (forall a, settles okB (k a)) ->
  settles okB (bind m k).
Proof.
  intros Hm Hk. apply (settles_bind (fun _ => true)); [exact Hm | auto |].
  intros a Ha. discriminate.
Qed.

Lemma settles_get {B} (okB : B -> bool) (k : ParserState -> M B) :
  (forall x, settles okB (k x)) -> settles okB (bind get k).
Proof.
  intros Hk. apply settles_then; [| exact Hk].
  intros s a s' E. inversion E; subst. reflexivity.
Qed.

Lemma settles_advance : settles (fun _ => true) advance.
Proof.
  intros s b s' E. unfold advance in E. simpl.
  destruct (eof s); [inversion E; reflexivity |].
  destruct (m_input_length <=? offset s + 1); [inversion E; reflexivity |].
  destruct (input_at (offset s + 1) =? newline)%char;
    inversion E; reflexivity.
Qed.

Lemma settles_fail {A} (okf : A -> bool) e (a : A) :
  e <> None_ -> okf a = false -> settles okf (set_error e ;;; ret a).
Proof.
  intros He Ha s a' s' E. inversion E; subst. unfold settled. rewrite Ha.
  split; [exact He | split; reflexivity].
Qed.

Lemma settles_bounded {A} (okf : A -> bool) (loop : nat -> M A) :
  (forall n, settles okf (loop n)) -> settles okf (bounded loop).
Proof. intros H s a s' E. exact (H _ _ _ _ E). Qed.

Lemma settles_and_then (a b : M bool) :
  settles (fun ok => ok) a -> settles (fun ok => ok) b ->
  settles (fun ok => ok) (and_then a b).
Proof.
  intros Ha Hb. apply (settles_bind (fun ok => ok)); [exact Ha | |].
  - intros x ->. exact Hb.
  - intros x ->. apply relays_ret. reflexivity.
Qed.

Lemma quiet_and_then (a b : M bool) :
  settles (fun _ => true) a -> settles (fun _ => true) b ->
  settles (fun _ => true) (and_then a b).
Proof.
  intros Ha Hb. apply settles_then; [exact Ha |].
  intros [|]; [exact Hb | apply settles_ret; reflexivity].
Qed.

Lemma quiet_symbol_is c : settles (fun _ => true) (symbol_is c).
Proof. intros s a s' E. inversion E; subst. reflexivity. Qed.

Lemma read_comment_line_settles n :
  settles (fun _ => true) (read_comment_line n).
Proof.
  induction n as [| n IH]; intros s a s' E; [discriminate |].
  cbn [read_comment_line] in E.
  destruct (negb (eof s) && negb (symbol s =? newline)%char).
  - exact (settles_then _ _ _ settles_advance (fun _ => IH) _ _ _ E).
  - inversion E; subst. reflexivity.
Qed.

Lemma read_comment_block_settles n w :
  settles (fun ok => ok) (read_comment_block n w).
Proof.
  revert w. induction n as [| n IH]; intros w s a s' E; [discriminate |].
  cbn [read_comment_block] in E.
  destruct (eof s).
  { refine (settles_fail (fun ok => ok) _ _ _ _ _ _ _ E);
      [discriminate | reflexivity]. }
  destruct (symbol s =? "*")%char.
  { exact (settles_then _ _ _ settles_advance (fun _ => IH true) _ _ _ E). }
  destruct (w && (symbol s =? "/")%char).
  - exact (settles_then (fun ok => ok) _ _ settles_advance
             (fun _ => settles_ret (fun ok => ok) true eq_refl) _ _ _ E).
  - exact (settles_then _ _ _ settles_advance (fun _ => IH false) _ _ _ E).
Qed.

Lemma read_comment_settles : settles (fun ok => ok) read_comment.
Proof.
  intros s a s' E. unfold read_comment in E.
  destruct (eof s).
  { refine (settles_fail (fun ok => ok) _ _ _ _ _ _ _ E);
      [discriminate | reflexivity]. }
  destruct (symbol s =? "/")%char.
  { refine (settles_then (fun ok => ok) _ _ _ _ _ _ _ E).
    - apply settles_bounded. apply read_comment_line_settles.
    - intros _. apply settles_ret. reflexivity. }
  destruct (symbol s =? "*")%char.
  - refine (settles_then (fun ok => ok) _ _ settles_advance _ _ _ _ E).
    intros _. apply settles_bounded. intros n.
    apply read_comment_block_settles.
  - refine (settles_fail (fun ok => ok) _ _ _ _ _ _ _ E);
      [discriminate | reflexivity].
Qed.

Lemma relay_settles (m : M bool) :
  settles (fun ok => ok) m ->
  settles (fun ok => ok) (ok <- m ;; if negb ok then ret false else ret true).
Proof.
  intros Hm. apply (settles_bind (fun ok => ok)); [exact Hm | |].
  - intros x ->. apply settles_ret. reflexivity.
  - intros x ->. apply relays_ret. reflexivity.
Qed.

Lemma skip_loop_settles n :
  settles (fun ok => ok) (skip_comments_and_whitespace_loop n).
Proof.
  induction n as [| n IH]; intros s a s' E; [discriminate |].
  cbn [skip_comments_and_whitespace_loop] in E.
  destruct (eof s); [inversion E; subst; reflexivity |].
  destruct (isspace (symbol s)).
  { exact (settles_then _ _ _ settles_advance (fun _ => IH) _ _ _ E). }
  destruct (symbol s =? "/")%char; [| inversion E; subst; reflexivity].
  refine (settles_then (fun ok => ok) _ _ settles_advance _ _ _ _ E).
  intros _. apply relay_settles. exact read_comment_settles.
Qed.

Lemma skip_settles : settles (fun ok => ok) skip_comments_and_whitespace.
Proof. apply settles_bounded. exact skip_loop_settles. Qed.

Lemma skip_fail_if_eof_settles :
  settles (fun ok => ok) skip_comments_and_whitespace_fail_if_eof.
Proof.
  apply (settles_bind (fun ok => ok)); [exact skip_settles | |].
  - intros x ->. intros s a s' E. cbn [negb] in E.
    destruct (eof s).
    + refine (settles_fail (fun ok => ok) _ _ _ _ _ _ _ E);
      [discriminate | reflexivity].
    + inversion E; subst. reflexivity.
  - intros x ->. apply relays_ret. reflexivity.
Qed.

Lemma remainder_settles :
  settles (fun ok => ok) remainder_is_comments_and_whitespace.
Proof.
  apply (settles_bind (fun ok => ok)); [exact skip_settles | |].
  - intros x ->. intros s a s' E. cbn [negb] in E.
    destruct (negb (eof s)).
    + refine (settles_fail (fun ok => ok) _ _ _ _ _ _ _ E);
      [discriminate | reflexivity].
    + inversion E; subst. reflexivity.
  - intros x ->. apply relays_ret. reflexivity.
Qed.

Lemma read_symbol_settles expected reason :
  reason <> None_ -> settles (fun ok => ok) (read_symbol expected reason).
Proof.
  intros Hreason.
  apply (settles_bind (fun ok => ok)); [exact skip_fail_if_eof_settles | |].
  - intros x ->. intros s a s' E. cbn [negb] in E.
    destruct (symbol s =? expected)%char.
    + exact (settles_then (fun ok => ok) _ _ settles_advance
               (fun _ => settles_ret (fun ok => ok) true eq_refl) _ _ _ E).
    + exact (settles_fail (fun ok => ok) _ _ Hreason eq_refl _ _ _ E).
  - intros x ->. apply relays_ret. reflexivity.
Qed.

Lemma read_string_loop_settles n : settles found (read_string_loop n).
Proof.
  induction n as [| n IH]; intros s a s' E; [discriminate |].
  cbn [read_string_loop] in E.
  destruct (eof s).
  { refine (settles_fail found _ _ _ _ _ _ _ E);
      [discriminate | reflexivity]. }
  destruct (symbol s =? quotation_mark)%char.
  { exact (settles_then found _ _ settles_advance
             (fun _ => settles_ret found (Some _) eq_refl) _ _ _ E). }
  destruct (symbol s =? backslash)%char.
  - refine (settles_then found _ _ settles_advance _ _ _ _ E).
    intros _. apply settles_then; [exact settles_advance |].
    intros _. exact IH.
  - exact (settles_then _ _ _ settles_advance (fun _ => IH) _ _ _ E).
Qed.

Lemma read_string_settles value : settles fst (read_string value).
Proof.
  apply (settles_bind (fun ok => ok)); [exact skip_fail_if_eof_settles | |].
  - intros x ->. intros s a s' E. cbn [negb] in E.
    destruct (negb (symbol s =? quotation_mark)%char).
    + refine (settles_fail fst _ _ _ _ _ _ _ E);
      [discriminate | reflexivity].
    + refine (settles_then fst _ _ settles_advance _ _ _ _ E).
      intros _. apply settles_get. intros s1.
      apply (settles_bind found).
      * apply settles_bounded. exact read_string_loop_settles.
      * intros [end_offset |] Hr; [| discriminate].
        apply settles_ret. reflexivity.
      * intros [end_offset |] Hr; [discriminate |].
        apply relays_ret. reflexivity.
  - intros x ->. apply relays_ret. reflexivity.
Qed.

Lemma read_unquoted_key_loop_settles n start :
  settles found (read_unquoted_key_loop n start).
Proof.
  induction n as [| n IH]; intros s a s' E; [discriminate |].
  cbn [read_unquoted_key_loop] in E.
  destruct (eof s); [inversion E; subst; reflexivity |].
  destruct (symbol s =? quotation_mark)%char.
  { refine (settles_fail found _ _ _ _ _ _ _ E);
      [discriminate | reflexivity]. }
  destruct (symbol s =? "=")%char.
  { destruct (offset s =? start).
    - refine (settles_fail found _ _ _ _ _ _ _ E);
      [discriminate | reflexivity].
    - inversion E; subst. reflexivity. }
  destruct (isspace (symbol s)).
  - exact (settles_then found _ _ settles_advance
             (fun _ => settles_ret found (Some _) eq_refl) _ _ _ E).
  - exact (settles_then _ _ _ settles_advance (fun _ => IH) _ _ _ E).
Qed.

Lemma read_unquoted_key_settles value : settles fst (read_unquoted_key value).
Proof.
  intros s a s' E. unfold read_unquoted_key in E.
  destruct (eof s).
  { refine (settles_fail fst _ _ _ _ _ _ _ E);
      [discriminate | reflexivity]. }
  refine (settles_bind found fst _ _ _ _ _ _ _ _ E).
  - apply settles_bounded. intros n. apply read_unquoted_key_loop_settles.
  - intros [end_offset |] Hr; [| discriminate].
    apply settles_ret. reflexivity.
  - intros [end_offset |] Hr; [discriminate |].
    apply relays_ret. reflexivity.
Qed.

Lemma read_key_settles having_name :
  settles (fun ok => ok) (read_key having_name).
Proof.
  apply (settles_bind (fun ok => ok)); [exact skip_fail_if_eof_settles | |].
  - intros x ->. cbn [negb]. unfold save_state.
    apply settles_get. intros start_of_key.
    apply (settles_bind fst).
    + destruct (symbol start_of_key =? quotation_mark)%char;
        [apply read_string_settles | apply read_unquoted_key_settles].
    + intros [ok actual] Hok. simpl in Hok. subst ok. cbn [negb].
      destruct (StringView_differs actual having_name).
      * intros s a s' E. inversion E; subst.
        split; [discriminate | split; reflexivity].
      * apply settles_ret. reflexivity.
    + intros [ok actual] Hok. simpl in Hok. subst ok.
      apply relays_ret. reflexivity.
  - intros x ->. apply relays_ret. reflexivity.
Qed.

Lemma read_bool_settles value : settles fst (read_bool value).
Proof.
  assert (Hmis : forall start,
            settles fst (restore_state start ;;;
                         set_error TrueOrFalseExpected ;;;
                         ret (false, value))).
  { intros start s a s' E. inversion E; subst.
    split; [discriminate | split; reflexivity]. }
  assert (Hq := quiet_and_then).
  apply (settles_bind (fun ok => ok)); [exact skip_fail_if_eof_settles | |].
  - intros x ->. cbn [negb]. unfold save_state.
    apply settles_get. intros start.
    destruct (symbol start =? "t")%char; [| destruct (symbol start =? "f")%char].
    + apply settles_then; [exact settles_advance |]. intros _.
      apply settles_then.
      * repeat first [ apply Hq | apply quiet_symbol_is
                     | exact settles_advance ].
      * intros [|]; [apply settles_ret; reflexivity | apply Hmis].
    + apply settles_then; [exact settles_advance |]. intros _.
      apply settles_then.
      * repeat first [ apply Hq | apply quiet_symbol_is
                     | exact settles_advance ].
      * intros [|]; [apply settles_ret; reflexivity | apply Hmis].
    + apply Hmis.
  - intros x ->. apply relays_ret. reflexivity.
Qed.

Lemma skip_digits_settles n : settles (fun _ => true) (skip_digits n).
Proof.
  induction n as [| n IH]; intros s a s' E; [discriminate |].
  cbn [skip_digits] in E.
  destruct (isdigit (symbol s)).
  - exact (settles_then _ _ _ settles_advance (fun _ => IH) _ _ _ E).
  - inversion E; subst. reflexivity.
Qed.

Lemma bounded_skip_digits_settles :
  settles (fun _ => true) (bounded skip_digits).
Proof. apply settles_bounded. exact skip_digits_settles. Qed.

Lemma quiet_then_true (m : M unit) :
  settles (fun _ => true) m -> settles (fun ok : bool => ok) (m ;;; ret true).
Proof.
  intros H. apply settles_then; [exact H |].
  intros _. apply settles_ret. reflexivity.
Qed.

Lemma read_double_grammar_settles : settles found read_double_grammar.
Proof.
  assert (Hstep : forall (m : M bool) (k : M (option Z)),
            settles (fun ok => ok) m -> settles found k ->
            settles found (ok <- m ;; if negb ok then ret None else k)).
  { intros m k Hm Hk. apply (settles_bind (fun ok => ok)); [exact Hm | |].
    - intros x ->. exact Hk.
    - intros x ->. apply relays_ret. reflexivity. }
  unfold read_double_grammar.
  apply settles_get. intros s0.
  apply settles_then.
  { destruct (symbol s0 =? "-")%char.
    - apply settles_then; [exact settles_advance |].
      intros _. apply settles_ret. reflexivity.
    - apply settles_ret. reflexivity. }
  intros _. apply settles_get. intros s1. apply Hstep.
  { destruct (symbol s1 =? "0")%char.
    - apply settles_then; [exact settles_advance |].
      intros _. apply settles_ret. reflexivity.
    - destruct (isdigit (symbol s1)).
      + apply quiet_then_true. exact bounded_skip_digits_settles.
      + apply settles_fail; [discriminate | reflexivity]. }
  apply settles_get. intros s2. apply settles_then.
  { destruct (symbol s2 =? ".")%char.
    - apply settles_then; [exact settles_advance |].
      intros _. exact bounded_skip_digits_settles.
    - apply settles_ret. reflexivity. }
  intros _. apply settles_get. intros s3. apply Hstep.
  - destruct ((symbol s3 =? "e")%char || (symbol s3 =? "E")%char);
      [| apply settles_ret; reflexivity].
    apply settles_then; [exact settles_advance |]. intros _.
    apply settles_get. intros s4.
    apply (settles_bind (fun ok => ok)).
    + destruct ((symbol s4 =? "+")%char || (symbol s4 =? "-")%char).
      * apply settles_then; [exact settles_advance |].
        intros _. apply settles_ret. reflexivity.
      * destruct (negb (isdigit (symbol s4))).
        -- apply settles_fail; [discriminate | reflexivity].
        -- apply settles_ret. reflexivity.
    + intros x ->. apply quiet_then_true. exact bounded_skip_digits_settles.
    + intros x ->. apply relays_ret. reflexivity.
  - apply settles_ret. reflexivity.
Qed.

Lemma read_double_settles value : settles fst (read_double value).
Proof.
  apply (settles_bind found).
  - apply (settles_bind (fun ok => ok)); [exact skip_fail_if_eof_settles | |].
    + intros x ->. exact read_double_grammar_settles.
    + intros x ->. apply relays_ret. reflexivity.
  - intros [start |] Hr; [| discriminate].
    intros s a s' E. unfold read_double_convert in E.
    destruct (MAX_NUMBER_LENGTH <=? _).
    { refine (settles_fail fst _ _ _ _ _ _ _ E);
      [discriminate | reflexivity]. }
    destruct (strtod _) as [v used].
    destruct (negb (used =? _)).
    + refine (settles_fail fst _ _ _ _ _ _ _ E);
      [discriminate | reflexivity].
    + inversion E; subst. reflexivity.
  - intros [start |] Hr; [discriminate |].
    apply relays_ret. reflexivity.
Qed.

Lemma read_equal_sign_settles : settles (fun ok => ok) read_equal_sign.
Proof. apply read_symbol_settles. discriminate. Qed.

Lemma read_opening_bracket_settles :
  settles (fun ok => ok) read_opening_bracket.
Proof. apply read_symbol_settles. discriminate. Qed.

Lemma read_member_settles {A} key (reader : A -> M (bool * A)) value :
  (forall v, settles fst (reader v)) ->
  settles fst (read_member key reader value).
Proof.
  intros Hreader. apply (settles_bind (fun ok => ok)).
  - apply settles_and_then;
      [apply read_key_settles | exact read_equal_sign_settles].
  - intros x ->. apply Hreader.
  - intros x ->. apply relays_ret. reflexivity.
Qed.

Lemma read_doubles_loop_settles k i num_elements values :
  settles fst (read_doubles_loop k i num_elements values).
Proof.
  revert i values. induction k as [| k IH]; intros i values;
    cbn [read_doubles_loop]; [apply settles_ret; reflexivity |].
  apply (settles_bind fst); [apply read_double_settles | |].
  - intros [ok v] Hok. simpl in Hok. subst ok. cbn [negb].
    destruct (i <? num_elements - 1); [| apply IH].
    apply (settles_bind (fun ok => ok));
      [apply read_symbol_settles; discriminate | |].
    + intros x ->. apply IH.
    + intros x ->. apply relays_ret. reflexivity.
  - intros [ok v] Hok. simpl in Hok. subst ok.
    apply relays_ret. reflexivity.
Qed.

Lemma read_doubles_settles values num_elements :
  settles fst (read_doubles values num_elements).
Proof.
  unfold read_doubles. destruct (num_elements =? 0);
    [apply settles_ret; reflexivity | apply read_doubles_loop_settles].
Qed.

Lemma array_begins_named_settles name :
  settles (fun ok => ok) (array_begins_named name).
Proof.
  apply settles_and_then; [apply read_key_settles |].
  apply settles_and_then;
    [exact read_equal_sign_settles | exact read_opening_bracket_settles].
Qed.

Lemma read_doubles_member_settles key values num_elements :
  settles fst (read_doubles_member key values num_elements).
Proof.
  apply (settles_bind (fun ok => ok)); [apply array_begins_named_settles | |].
  - intros x ->. cbn [negb].
    apply (settles_bind fst); [apply read_doubles_settles | |].
    + intros [ok values'] Hok. simpl in Hok. subst ok. cbn [negb].
      apply (settles_bind (fun ok => ok));
        [apply read_symbol_settles; discriminate | |].
      * intros x ->. apply settles_ret. reflexivity.
      * intros x ->. apply relays_ret. reflexivity.
    + intros [ok values'] Hok. simpl in Hok. subst ok.
      apply relays_ret. reflexivity.
  - intros x ->. apply relays_ret. reflexivity.
Qed.

(** An operation that tries: run [m] and, where it fails, restore the
    state saved before it. *)
Lemma try_keeps_error {A B} (okf : A -> bool) (m : M A)
  (k : ParserState -> A -> M B) :
  settles okf m ->
  (forall x a, okf a = true -> settles (fun _ => true) (k x a)) ->
  (forall x a, okf a = false -> forall s b s',
     k x a s = Some (b, s') -> s' = x) ->
  settles (fun _ => true) (x <- save_state ;; a <- m ;; k x a).
Proof.
  intros Hm Ht Hf s b s'' E. simpl.
  change ((x <- save_state ;; a <- m ;; k x a) s)
    with ((a <- m ;; k s a) s) in E.
  apply bind_Some in E as (a & s' & Em & Ek).
  pose proof (Hm _ _ _ Em) as H. unfold settled in H.
  destruct (okf a) eqn:Ea.
  - pose proof (Ht s a Ea _ _ _ Ek) as H'. simpl in H'. congruence.
  - rewrite (Hf s a Ea _ _ _ Ek). reflexivity.
Qed.

Lemma try_array_begins_settles name :
  settles (fun _ => true) (try_array_begins name).
Proof.
  apply (try_keeps_error (fun ok => ok)).
  - apply array_begins_named_settles.
  - intros x a ->. apply settles_ret. reflexivity.
  - intros x a -> s b s' E. inversion E. reflexivity.
Qed.

Lemma try_array_ends_settles : settles (fun _ => true) try_array_ends.
Proof.
  apply (try_keeps_error (fun ok => ok)).
  - apply read_symbol_settles. discriminate.
  - intros x a ->. apply settles_ret. reflexivity.
  - intros x a -> s b s' E. inversion E. reflexivity.
Qed.

Lemma try_read_StringView_settles key value :
  settles (fun _ => true) (try_read_StringView key value).
Proof.
  apply (try_keeps_error fst).
  - apply read_member_settles. exact read_string_settles.
  - intros x [ok v] Hok. simpl in Hok. subst ok.
    apply settles_ret. reflexivity.
  - intros x [ok v] Hok s b s' E. simpl in Hok. subst ok.
    inversion E. reflexivity.
Qed.

Lemma try_read_doubles_settles key values num_elements :
  settles (fun _ => true) (try_read_doubles key values num_elements).
Proof.
  apply (try_keeps_error fst).
  - apply read_doubles_member_settles.
  - intros x [ok v] Hok. simpl in Hok. subst ok.
    apply settles_ret. reflexivity.
  - intros x [ok v] Hok s b s' E. simpl in Hok. subst ok.
    inversion E. reflexivity.
Qed.

Lemma returns_settled {A} (okf : A -> bool) (m : M A) s
  (Q : A -> ParserState -> Prop) :
  settles okf m -> returns_at (m s) Q ->
  returns_at (m s) (fun a => settled s (okf a)).
Proof.
  intros Hm (a & s' & E & _). exists a, s'. split; [exact E |].
  exact (Hm _ _ _ E).
Qed.

(** X15: The result of an operation tells what became of the error.  Every
    parsing operation of the public interface returns, in whatever state it is
    called; one that returns true has left the error as it was before the
    call, and one that returns false has recorded an error, other than
    None, whose line and column are those of the cursor it leaves.  The
    operations that try, which restore the state on failure, leave the
    error as it was whatever they return. *)
Theorem result_tells_the_error (s : ParserState) : operations_settle s.
Proof.
  destruct (operations_return s) as (H1 & H2 & H3).
  split; [| split; [| split]].
  - intros op Hop.
    assert (Hin : In op [object_begins; object_ends; array_begins; array_ends;
                         try_array_ends; skip_comments_and_whitespace;
                         remainder_is_comments_and_whitespace])
      by (simpl in *; tauto).
    refine (returns_settled (fun ok => ok) _ s _ _ (H1 op Hin)).
    simpl in Hop.
    repeat (destruct Hop as [<- | Hop]); try contradiction;
      first [ apply read_symbol_settles; discriminate
            | exact skip_settles | exact remainder_settles ].
  - intros name. destruct (H2 name) as (Ha & Hb & Hc).
    split; [| split].
    + refine (returns_settled (fun ok => ok) _ s _ _ Ha).
      apply settles_and_then; [apply read_key_settles |].
      apply settles_and_then; [exact read_equal_sign_settles |].
      apply read_symbol_settles. discriminate.
    + refine (returns_settled (fun ok => ok) _ s _ _ Hb).
      apply array_begins_named_settles.
    + exact (returns_settled _ _ s _ (try_array_begins_settles name) Hc).
  - refine (returns_settled _ _ s _ try_array_ends_settles (H1 _ _)).
    simpl. tauto.
  - intros key view flag number values num_elements.
    destruct (H3 key view flag number values num_elements)
      as (Ha & Hb & Hc & Hd & He & Hf & Hg).
    split.
    { refine (returns_settled fst _ s _ _ Ha).
      apply read_member_settles. exact read_string_settles. }
    split.
    { refine (returns_settled fst _ s _ _ Hb).
      apply read_member_settles. exact read_bool_settles. }
    split.
    { refine (returns_settled fst _ s _ _ Hc).
      apply read_member_settles. exact read_double_settles. }
    split.
    { refine (returns_settled fst _ s _ _ Hd).
      apply read_doubles_settles. }
    split.
    { refine (returns_settled fst _ s _ _ He).
      apply read_doubles_member_settles. }
    split.
    { exact (returns_settled _ _ s _
               (try_read_StringView_settles key view) Hf). }
    exact (returns_settled _ _ s _
             (try_read_doubles_settles key values num_elements) Hg).
Qed.

(** ** Members (lines 48-89) *)





(** ** The error is write-only *)

Lemma same_cursor_refl s : same_cursor s s.
Proof. repeat split. Qed.

Lemma same_cursor_eof s t : same_cursor s t -> eof s = eof t.
Proof. intros (Ho & _). unfold eof. rewrite Ho. reflexivity. Qed.

Lemma same_cursor_with_error e1 e2 s t :
  same_cursor s t -> same_cursor (with_error e1 s) (with_error e2 t).
Proof. intros H. exact H. Qed.

Lemma agree_bind {A B} (m1 m2 : M A) (k1 k2 : A -> M B) s t :
  same_cursor s t -> alike m1 m2 -> (forall a, alike (k1 a) (k2 a)) ->
  agree (bind m1 k1 s) (bind m2 k2 t).
Proof.
  intros H Hm Hk. specialize (Hm s t H). unfold bind, agree in *.
  destruct (m1 s) as [[a s'] |], (m2 t) as [[b t'] |]; try contradiction;
    [| exact I].
  destruct Hm as [<- H']. exact (Hk a s' t' H').
Qed.

Lemma alike_bind {A B} (m1 m2 : M A) (k1 k2 : A -> M B) :
  alike m1 m2 -> (forall a, alike (k1 a) (k2 a)) ->
  alike (bind m1 k1) (bind m2 k2).
Proof. intros Hm Hk s t H. apply agree_bind; assumption. Qed.

Lemma alike_get {B} (k1 k2 : ParserState -> M B) :
  (forall x y, same_cursor x y -> alike (k1 x) (k2 y)) ->
  alike (bind get k1) (bind get k2).
Proof. intros Hk s t H. exact (Hk s t H s t H). Qed.

Lemma alike_ret {A} (a : A) : alike (ret a) (ret a).
Proof. intros s t H. split; [reflexivity | exact H]. Qed.

Lemma alike_advance : alike advance advance.
Proof.
  intros s t H. unfold advance. rewrite (same_cursor_eof s t H).
  destruct H as (Ho & Hl & Hc & Hs). rewrite Ho, Hl, Hc.
  destruct (eof t); [split; [reflexivity | repeat split; assumption] |].
  destruct (m_input_length <=? offset t + 1);
    [split; [reflexivity | repeat split; reflexivity] |].
  destruct (input_at (offset t + 1) =? newline)%char;
    (split; [reflexivity | repeat split; reflexivity]).
Qed.

Lemma alike_set_error e : alike (set_error e) (set_error e).
Proof. intros s t H. split; [reflexivity | exact H]. Qed.

Lemma alike_restore x y :
  same_cursor x y -> alike (restore_state x) (restore_state y).
Proof. intros Hxy s t _. split; [reflexivity | exact Hxy]. Qed.

Lemma alike_fail {A} e (a : A) :
  alike (set_error e ;;; ret a) (set_error e ;;; ret a).
Proof. intros s t H. split; [reflexivity | exact H]. Qed.

Lemma alike_symbol_is c : alike (symbol_is c) (symbol_is c).
Proof.
  intros s t H. unfold symbol_is. pose proof H as (_ & _ & _ & Hs).
  rewrite Hs. split; [reflexivity | exact H].
Qed.

Lemma alike_bounded {A} (loop : nat -> M A) :
  (forall n, alike (loop n) (loop n)) -> alike (bounded loop) (bounded loop).
Proof.
  intros Hl s t H. unfold bounded, loop_bound.
  pose proof H as (Ho & _). rewrite Ho. apply Hl. exact H.
Qed.

Lemma alike_and_then (a b : M bool) :
  alike a a -> alike b b -> alike (and_then a b) (and_then a b).
Proof.
  intros Ha Hb. apply alike_bind; [exact Ha |].
  intros [|]; [exact Hb | apply alike_ret].
Qed.

Lemma alike_then {A B} (m : M A) (k : M B) :
  alike m m -> alike k k -> alike (m ;;; k) (m ;;; k).
Proof. intros Hm Hk. apply alike_bind; [exact Hm | intros _; exact Hk]. Qed.

Lemma read_comment_line_alike n :
  alike (read_comment_line n) (read_comment_line n).
Proof.
  induction n as [| n IH]; intros s t H; [exact I |].
  cbn [read_comment_line]. rewrite (same_cursor_eof s t H).
  pose proof H as (_ & _ & _ & Hs). rewrite Hs.
  destruct (negb (eof t) && negb (symbol t =? newline)%char).
  - exact (alike_then _ _ alike_advance IH s t H).
  - split; [reflexivity | exact H].
Qed.

Lemma read_comment_block_alike n w :
  alike (read_comment_block n w) (read_comment_block n w).
Proof.
  revert w. induction n as [| n IH]; intros w s t H; [exact I |].
  cbn [read_comment_block]. rewrite (same_cursor_eof s t H).
  pose proof H as (_ & _ & _ & Hs). rewrite Hs.
  destruct (eof t); [exact (alike_fail _ _ s t H) |].
  destruct (symbol t =? "*")%char.
  { exact (alike_then _ _ alike_advance (IH true) s t H). }
  destruct (w && (symbol t =? "/")%char).
  - exact (alike_then _ _ alike_advance (alike_ret true) s t H).
  - exact (alike_then _ _ alike_advance (IH false) s t H).
Qed.

Lemma read_comment_alike : alike read_comment read_comment.
Proof.
  intros s t H. unfold read_comment. rewrite (same_cursor_eof s t H).
  pose proof H as (_ & _ & _ & Hs). rewrite Hs.
  destruct (eof t); [exact (alike_fail _ _ s t H) |].
  destruct (symbol t =? "/")%char.
  { refine (alike_then _ _ _ (alike_ret true) s t H).
    apply alike_bounded. exact read_comment_line_alike. }
  destruct (symbol t =? "*")%char; [| exact (alike_fail _ _ s t H)].
  refine (alike_then _ _ alike_advance _ s t H).
  apply alike_bounded. intros n. apply read_comment_block_alike.
Qed.

Lemma skip_loop_alike n :
  alike (skip_comments_and_whitespace_loop n)
    (skip_comments_and_whitespace_loop n).
Proof.
  induction n as [| n IH]; intros s t H; [exact I |].
  cbn [skip_comments_and_whitespace_loop]. rewrite (same_cursor_eof s t H).
  pose proof H as (_ & _ & _ & Hs). rewrite Hs.
  destruct (eof t); [split; [reflexivity | exact H] |].
  destruct (isspace (symbol t)).
  { exact (alike_then _ _ alike_advance IH s t H). }
  destruct (symbol t =? "/")%char; [| split; [reflexivity | exact H]].
  refine (alike_then _ _ alike_advance _ s t H).
  apply alike_bind; [exact read_comment_alike |].
  intros [|]; apply alike_ret.
Qed.

Lemma skip_alike :
  alike skip_comments_and_whitespace skip_comments_and_whitespace.
Proof. apply alike_bounded. exact skip_loop_alike. Qed.

Lemma skip_fail_if_eof_alike :
  alike skip_comments_and_whitespace_fail_if_eof
    skip_comments_and_whitespace_fail_if_eof.
Proof.
  apply alike_bind; [exact skip_alike |].
  intros [|]; cbn [negb]; [| apply alike_ret].
  intros s t H. rewrite (same_cursor_eof s t H).
  destruct (eof t); [exact (alike_fail _ _ s t H) |].
  split; [reflexivity | exact H].
Qed.

Lemma remainder_alike :
  alike remainder_is_comments_and_whitespace
    remainder_is_comments_and_whitespace.
Proof.
  apply alike_bind; [exact skip_alike |].
  intros [|]; cbn [negb]; [| apply alike_ret].
  intros s t H. rewrite (same_cursor_eof s t H).
  destruct (negb (eof t)); [exact (alike_fail _ _ s t H) |].
  split; [reflexivity | exact H].
Qed.

Lemma read_symbol_alike expected reason :
  alike (read_symbol expected reason) (read_symbol expected reason).
Proof.
  apply alike_bind; [exact skip_fail_if_eof_alike |].
  intros [|]; cbn [negb]; [| apply alike_ret].
  intros s t H. pose proof H as (_ & _ & _ & Hs). rewrite Hs.
  destruct (symbol t =? expected)%char.
  - exact (alike_then _ _ alike_advance (alike_ret true) s t H).
  - exact (alike_fail _ _ s t H).
Qed.

Lemma read_string_loop_alike n :
  alike (read_string_loop n) (read_string_loop n).
Proof.
  induction n as [| n IH]; intros s t H; [exact I |].
  cbn [read_string_loop]. rewrite (same_cursor_eof s t H).
  pose proof H as (Ho & _ & _ & Hs). rewrite Hs, Ho.
  destruct (eof t); [exact (alike_fail _ _ s t H) |].
  destruct (symbol t =? quotation_mark)%char.
  { exact (alike_then _ _ alike_advance (alike_ret _) s t H). }
  destruct (symbol t =? backslash)%char.
  - exact (alike_then _ _ alike_advance (alike_then _ _ alike_advance IH)
             s t H).
  - exact (alike_then _ _ alike_advance IH s t H).
Qed.

Lemma read_string_alike value : alike (read_string value) (read_string value).
Proof.
  apply alike_bind; [exact skip_fail_if_eof_alike |].
  intros [|]; cbn [negb]; [| apply alike_ret].
  intros s t H. pose proof H as (_ & _ & _ & Hs). rewrite Hs.
  destruct (negb (symbol t =? quotation_mark)%char);
    [exact (alike_fail _ _ s t H) |].
  refine (alike_then _ _ alike_advance _ s t H).
  apply alike_get. intros x y (Ho & _). rewrite Ho.
  apply alike_bind; [apply alike_bounded; exact read_string_loop_alike |].
  intros [end_offset |]; apply alike_ret.
Qed.

Lemma read_unquoted_key_loop_alike n start :
  alike (read_unquoted_key_loop n start) (read_unquoted_key_loop n start).
Proof.
  induction n as [| n IH]; intros s t H; [exact I |].
  cbn [read_unquoted_key_loop]. rewrite (same_cursor_eof s t H).
  pose proof H as (Ho & _ & _ & Hs). rewrite Hs, Ho.
  destruct (eof t); [split; [reflexivity | exact H] |].
  destruct (symbol t =? quotation_mark)%char;
    [exact (alike_fail _ _ s t H) |].
  destruct (symbol t =? "=")%char.
  { destruct (offset t =? start); [exact (alike_fail _ _ s t H) |].
    split; [reflexivity | exact H]. }
  destruct (isspace (symbol t)).
  - exact (alike_then _ _ alike_advance (alike_ret _) s t H).
  - exact (alike_then _ _ alike_advance IH s t H).
Qed.

Lemma read_unquoted_key_alike value :
  alike (read_unquoted_key value) (read_unquoted_key value).
Proof.
  intros s t H. unfold read_unquoted_key. rewrite (same_cursor_eof s t H).
  pose proof H as (Ho & _). rewrite Ho.
  destruct (eof t); [exact (alike_fail _ _ s t H) |].
  apply agree_bind; [exact H | |].
  - apply alike_bounded. intros n. apply read_unquoted_key_loop_alike.
  - intros [end_offset |]; apply alike_ret.
Qed.

Lemma read_key_alike name : alike (read_key name) (read_key name).
Proof.
  apply alike_bind; [exact skip_fail_if_eof_alike |].
  intros [|]; cbn [negb]; [| apply alike_ret].
  unfold save_state. apply alike_get. intros x y Hxy.
  pose proof Hxy as (_ & _ & _ & Hs). rewrite Hs.
  apply alike_bind.
  { destruct (symbol y =? quotation_mark)%char;
      [apply read_string_alike | apply read_unquoted_key_alike]. }
  intros [[|] actual]; cbn [negb]; [| apply alike_ret].
  destruct (StringView_differs actual name); [| apply alike_ret].
  apply alike_bind; [apply alike_restore; exact Hxy |].
  intros _. apply alike_fail.
Qed.

Lemma read_bool_alike value : alike (read_bool value) (read_bool value).
Proof.
  apply alike_bind; [exact skip_fail_if_eof_alike |].
  intros [|]; cbn [negb]; [| apply alike_ret].
  unfold save_state. apply alike_get. intros x y Hxy.
  pose proof Hxy as (_ & _ & _ & Hs). rewrite Hs.
  assert (Hmis : alike
            (restore_state x ;;; set_error TrueOrFalseExpected ;;;
             ret (false, value))
            (restore_state y ;;; set_error TrueOrFalseExpected ;;;
             ret (false, value))).
  { apply alike_bind; [apply alike_restore; exact Hxy |].
    intros _. apply alike_fail. }
  assert (Hchain := alike_and_then).
  destruct (symbol y =? "t")%char; [| destruct (symbol y =? "f")%char].
  - apply alike_bind; [exact alike_advance |]. intros _.
    apply alike_bind.
    + repeat first [ apply Hchain | apply alike_symbol_is
                   | exact alike_advance ].
    + intros [|]; [apply alike_ret | exact Hmis].
  - apply alike_bind; [exact alike_advance |]. intros _.
    apply alike_bind.
    + repeat first [ apply Hchain | apply alike_symbol_is
                   | exact alike_advance ].
    + intros [|]; [apply alike_ret | exact Hmis].
  - exact Hmis.
Qed.

Lemma skip_digits_alike n : alike (skip_digits n) (skip_digits n).
Proof.
  induction n as [| n IH]; intros s t H; [exact I |].
  cbn [skip_digits]. pose proof H as (_ & _ & _ & Hs). rewrite Hs.
  destruct (isdigit (symbol t)).
  - exact (alike_then _ _ alike_advance IH s t H).
  - split; [reflexivity | exact H].
Qed.

Lemma bounded_skip_digits_alike :
  alike (bounded skip_digits) (bounded skip_digits).
Proof. apply alike_bounded. exact skip_digits_alike. Qed.

Lemma read_double_grammar_alike :
  alike read_double_grammar read_double_grammar.
Proof.
  unfold read_double_grammar.
  apply alike_get. intros x0 y0 (Ho0 & _ & _ & Hs0). rewrite Hs0, Ho0.
  apply alike_bind.
  { destruct (symbol y0 =? "-")%char;
      [apply alike_then; [exact alike_advance | apply alike_ret]
      | apply alike_ret]. }
  intros _. apply alike_get. intros x1 y1 (_ & _ & _ & Hs1). rewrite Hs1.
  apply alike_bind.
  { destruct (symbol y1 =? "0")%char;
      [apply alike_then; [exact alike_advance | apply alike_ret] |].
    destruct (isdigit (symbol y1)).
    - apply alike_then; [exact bounded_skip_digits_alike | apply alike_ret].
    - apply alike_fail. }
  intros [|]; cbn [negb]; [| apply alike_ret].
  apply alike_get. intros x2 y2 (_ & _ & _ & Hs2). rewrite Hs2.
  apply alike_bind.
  { destruct (symbol y2 =? ".")%char; [| apply alike_ret].
    apply alike_then; [exact alike_advance | exact bounded_skip_digits_alike]. }
  intros _. apply alike_get. intros x3 y3 (_ & _ & _ & Hs3). rewrite Hs3.
  apply alike_bind; [| intros [|]; apply alike_ret].
  destruct ((symbol y3 =? "e")%char || (symbol y3 =? "E")%char);
    [| apply alike_ret].
  apply alike_then; [exact alike_advance |].
  apply alike_get. intros x4 y4 (_ & _ & _ & Hs4). rewrite Hs4.
  apply alike_bind.
  { destruct ((symbol y4 =? "+")%char || (symbol y4 =? "-")%char);
      [apply alike_then; [exact alike_advance | apply alike_ret] |].
    destruct (negb (isdigit (symbol y4))); [apply alike_fail | apply alike_ret]. }
  intros [|]; cbn [negb]; [| apply alike_ret].
  apply alike_then; [exact bounded_skip_digits_alike | apply alike_ret].
Qed.

Lemma read_double_alike value : alike (read_double value) (read_double value).
Proof.
  apply alike_bind.
  { apply alike_bind; [exact skip_fail_if_eof_alike |].
    intros [|]; cbn [negb];
      [exact read_double_grammar_alike | apply alike_ret]. }
  intros [start |]; [| apply alike_ret].
  intros s t H. unfold read_double_convert. pose proof H as (Ho & _).
  rewrite Ho.
  destruct (MAX_NUMBER_LENGTH <=? _); [exact (alike_fail _ _ s t H) |].
  destruct (strtod _) as [v used].
  destruct (negb (used =? _)); [exact (alike_fail _ _ s t H) |].
  split; [reflexivity | exact H].
Qed.

Lemma read_member_alike {A} key (reader : A -> M (bool * A)) value :
  (forall v, alike (reader v) (reader v)) ->
  alike (read_member key reader value) (read_member key reader value).
Proof.
  intros Hreader. apply alike_bind.
  - apply alike_and_then; [apply read_key_alike | apply read_symbol_alike].
  - intros [|]; [apply Hreader | apply alike_ret].
Qed.

Lemma read_doubles_loop_alike k i num_elements values :
  alike (read_doubles_loop k i num_elements values)
    (read_doubles_loop k i num_elements values).
Proof.
  revert i values. induction k as [| k IH]; intros i values;
    cbn [read_doubles_loop]; [apply alike_ret |].
  apply alike_bind; [apply read_double_alike |].
  intros [[|] v]; cbn [negb]; [| apply alike_ret].
  destruct (i <? num_elements - 1); [| apply IH].
  apply alike_bind; [apply read_symbol_alike |].
  intros [|]; cbn [negb]; [apply IH | apply alike_ret].
Qed.

Lemma read_doubles_alike values num_elements :
  alike (read_doubles values num_elements) (read_doubles values num_elements).
Proof.
  unfold read_doubles. destruct (num_elements =? 0);
    [apply alike_ret | apply read_doubles_loop_alike].
Qed.

Lemma named_alike name (m : M bool) :
  alike m m ->
  alike (and_then (read_key name) (and_then read_equal_sign m))
    (and_then (read_key name) (and_then read_equal_sign m)).
Proof.
  intros Hm. apply alike_and_then; [apply read_key_alike |].
  apply alike_and_then; [apply read_symbol_alike | exact Hm].
Qed.

Lemma read_doubles_member_alike key values num_elements :
  alike (read_doubles_member key values num_elements)
    (read_doubles_member key values num_elements).
Proof.
  apply alike_bind; [apply named_alike; apply read_symbol_alike |].
  intros [|]; cbn [negb]; [| apply alike_ret].
  apply alike_bind; [apply read_doubles_alike |].
  intros [[|] values']; cbn [negb]; [| apply alike_ret].
  apply alike_bind; [apply read_symbol_alike | intros ok; apply alike_ret].
Qed.

Lemma try_alike {A B} (m : M A) (k : ParserState -> A -> M B) :
  alike m m ->
  (forall x y a, same_cursor x y -> alike (k x a) (k y a)) ->
  alike (x <- save_state ;; a <- m ;; k x a)
    (x <- save_state ;; a <- m ;; k x a).
Proof.
  intros Hm Hk. unfold save_state. apply alike_get. intros x y Hxy.
  apply alike_bind; [exact Hm |]. intros a. apply Hk. exact Hxy.
Qed.

Lemma try_array_begins_alike name :
  alike (try_array_begins name) (try_array_begins name).
Proof.
  apply try_alike; [apply named_alike; apply read_symbol_alike |].
  intros x y [|] Hxy; cbn [negb]; [apply alike_ret |].
  apply alike_bind; [apply alike_restore; exact Hxy |].
  intros _. apply alike_ret.
Qed.

Lemma try_array_ends_alike : alike try_array_ends try_array_ends.
Proof.
  apply try_alike; [apply read_symbol_alike |].
  intros x y [|] Hxy; cbn [negb]; [apply alike_ret |].
  apply alike_bind; [apply alike_restore; exact Hxy |].
  intros _. apply alike_ret.
Qed.

Lemma try_read_StringView_alike key value :
  alike (try_read_StringView key value) (try_read_StringView key value).
Proof.
  apply try_alike; [apply read_member_alike; exact read_string_alike |].
  intros x y [[|] v] Hxy; cbn [negb]; [apply alike_ret |].
  apply alike_bind; [apply alike_restore; exact Hxy |].
  intros _. apply alike_ret.
Qed.

Lemma try_read_doubles_alike key values num_elements :
  alike (try_read_doubles key values num_elements)
    (try_read_doubles key values num_elements).
Proof.
  apply try_alike; [apply read_doubles_member_alike |].
  intros x y [[|] v] Hxy; cbn [negb]; [apply alike_ret |].
  apply alike_bind; [apply alike_restore; exact Hxy |].
  intros _. apply alike_ret.
Qed.

Lemma alike_echoes {A} (m : M A) s t (Q : A -> ParserState -> Prop) :
  alike m m -> same_cursor s t -> returns_at (m s) Q -> echoes m s t.
Proof.
  intros Hm H (a & s' & E & _). specialize (Hm s t H).
  rewrite E in Hm. unfold agree in Hm.
  destruct (m t) as [[b t'] |] eqn:Et; [| contradiction].
  destruct Hm as [<- H']. exists a, s'. split; [exact E |].
  exists t'. split; [exact Et | exact H'].
Qed.

(** X17: The error is written, never read.  Two states with the same
    cursor (offset, line, column and symbol), whatever error each holds:
    every parsing operation of the public interface returns the same result in
    both, values read included, and leaves the same cursor in both.  So
    an error left by an earlier call changes nothing in what a later call
    does with the input. *)
Theorem error_is_never_read (s t : ParserState) :
  same_cursor s t -> operations_echo s t.
Proof.
  intros H. destruct (operations_return s) as (H1 & H2 & H3).
  split; [| split].
  - intros op Hop. refine (alike_echoes op s t _ _ H (H1 op Hop)).
    simpl in Hop.
    repeat (destruct Hop as [<- | Hop]); try contradiction;
      first [ apply read_symbol_alike | exact try_array_ends_alike
            | exact skip_alike | exact remainder_alike ].
  - intros name. destruct (H2 name) as (Ha & Hb & Hc).
    split; [| split].
    + refine (alike_echoes _ s t _ _ H Ha).
      apply named_alike. apply read_symbol_alike.
    + refine (alike_echoes _ s t _ _ H Hb).
      apply named_alike. apply read_symbol_alike.
    + exact (alike_echoes _ s t _ (try_array_begins_alike name) H Hc).
  - intros key view flag number values num_elements.
    destruct (H3 key view flag number values num_elements)
      as (Ha & Hb & Hc & Hd & He & Hf & Hg).
    split.
    { refine (alike_echoes _ s t _ _ H Ha).
      apply read_member_alike. exact read_string_alike. }
    split.
    { refine (alike_echoes _ s t _ _ H Hb).
      apply read_member_alike. exact read_bool_alike. }
    split.
    { refine (alike_echoes _ s t _ _ H Hc).
      apply read_member_alike. exact read_double_alike. }
    split; [exact (alike_echoes _ s t _ (read_doubles_alike _ _) H Hd) |].
    split; [exact (alike_echoes _ s t _ (read_doubles_member_alike _ _ _) H He) |].
    split; [exact (alike_echoes _ s t _ (try_read_StringView_alike _ _) H Hf) |].
    exact (alike_echoes _ s t _ (try_read_doubles_alike _ _ _) H Hg).
Qed.

(** ** A string that does not open (lines 299-313) *)

(** X18: [read_string] wants the opening quotation mark.  Behind any
    whitespace, on a byte that is not a quotation mark (and opens no
    comment), it returns false, consumes nothing but the whitespace,
    leaves [value] as it was and records [QuotationMarkExpected] at that
    byte.  On whitespace to the end of the input it is [InputTruncated]. *)
Theorem read_string_needs_opening_mark (value : StringView)
  (w : list ascii) (s : ParserState) :
  forallb isspace w = true ->
  (reads s w ->
   exists s', read_string value s = Some ((false, value), s') /\
              reads s' [] /\
              error s' = mkParserError InputTruncated (line s') (column s')) /\
  (forall c rest,
     reads s (w ++ c :: rest) ->
     isspace c = false -> (c =? "/")%char = false ->
     (c =? quotation_mark)%char = false ->
     exists s', read_string value s = Some ((false, value), s') /\
                reads s' (c :: rest) /\
                offset s' = offset s + Z.of_nat (length w) /\
                error s' =
                  mkParserError QuotationMarkExpected (line s') (column s')).
Proof.
  intros Hsp. split.
  - intros Hr.
    destruct (skip_fail_if_eof_reads_end w s Hr Hsp) as (s1 & El & Hr1 & _).
    exists (with_error InputTruncated s1). unfold read_string.
    rewrite (bind_eq _ _ _ _ _ El).
    split; [reflexivity |]. split; [exact Hr1 | reflexivity].
  - intros c rest Hr Hc Hslash Hq.
    destruct (skip_fail_if_eof_reads_content w c rest s Hr Hsp Hc Hslash)
      as (s1 & El & Hr1 & He1 & Ho1).
    destruct (reads_cons _ _ _ Hr1) as (E & Hs & _).
    exists (with_error QuotationMarkExpected s1). unfold read_string.
    rewrite (bind_eq _ _ _ _ _ El). simpl. rewrite Hs, Hq.
    split; [reflexivity |]. split; [exact Hr1 |].
    split; [exact Ho1 | reflexivity].
Qed.

(** ** Readers behind whitespace (lines 270-297, 299-342, 395-431) *)


(** On a byte that is neither whitespace nor a slash the skip stays. *)
Lemma skip_fail_if_eof_stays c (rest : list ascii) s :
  reads s (c :: rest) -> isspace c = false -> (c =? "/")%char = false ->
  skip_comments_and_whitespace_fail_if_eof s = Some (true, s).
Proof.
  intros Hr Hc Hslash. destruct (reads_cons _ _ _ Hr) as (E & Hs & _).
  unfold skip_comments_and_whitespace_fail_if_eof,
    skip_comments_and_whitespace, bounded, loop_bound.
  cbn [skip_comments_and_whitespace_loop]. unfold bind.
  rewrite E, Hs, Hc, Hslash. cbn [negb]. rewrite E. reflexivity.
Qed.

(** [read_string] with the cursor on the opening mark. *)
Lemma read_string_at_mark value (l : list ascii) s :
  m_input_length < 2 ^ 64 -> reads s (quotation_mark :: l) ->
  match string_body l with
  | Some body =>
      exists s' rest,
        l = body ++ quotation_mark :: rest /\
        read_string value s
        = Some ((true, StringView_of (offset s + 1) (Z.of_nat (length body))),
                s') /\
        StringView_bytes (StringView_of (offset s + 1) (Z.of_nat (length body)))
        = body /\
        reads s' rest /\ error s' = error s
  | None =>
      exists s',
        read_string value s = Some ((false, value), s') /\
        reads s' [] /\
        error s' = mkParserError InputTruncated (line s') (column s')
  end.
Proof.
  intros Hlen Hr.
  pose proof (skip_fail_if_eof_stays _ _ s Hr eq_refl eq_refl) as El.
  destruct (reads_cons _ _ _ Hr) as (_ & Hs & sq & _ & [_ Hskq] & _ & Hoq).
  rewrite Hoq in Hskq.
  pose proof (read_string_body value s s Hlen (proj1 Hr) El Hs) as H.
  rewrite Hskq in H.
  assert (Hw' : forall r s', read_string value s = Some (r, s') ->
                             well_formed s').
  { intros r s' E.
    destruct (read_string_inv well_formed well_formed_advance
                well_formed_set_error value s (proj1 Hr))
      as (r0 & t & Er & Ht).
    rewrite E in Er. inversion Er; subst. exact Ht. }
  destruct (string_body l) as [body |] eqn:Eb.
  - destruct (string_body_split _ _ Eb) as (rest & Hsplit).
    cbv zeta in H. destruct H as (s' & E & Hb & _ & _ & Ho' & He').
    exists s', rest. split; [exact Hsplit |]. split; [exact E |].
    split; [exact Hb |]. split; [| exact He'].
    split; [exact (Hw' _ _ E) |]. rewrite Ho'.
    replace (offset s + Z.of_nat (length body) + 2)
      with (offset s + 1 + Z.of_nat (length (body ++ [quotation_mark])))
      by (rewrite length_app; simpl; lia).
    apply skipn_offset_app; [destruct Hr as [[Ho _] _]; lia |].
    rewrite <- app_assoc. rewrite Hskq. exact Hsplit.
  - destruct H as (s' & E & Hpe & Heof).
    exists s'. split; [exact E |]. split.
    + split; [exact (Hw' _ _ E) |]. apply skipn_eof.
      unfold eof in Heof. apply Z.leb_le in Heof. exact Heof.
    + destruct (read_string_settles value s _ _ E) as (_ & Hl & Hc).
      destruct (error s') as [e pl pc]. simpl in *. subst. reflexivity.
Qed.


(** X20: [read_string] returns the raw bytes.  Behind any whitespace, on a
    quotation mark: the view covers exactly the bytes of [string_body],
    those between that mark and the first mark that no backslash takes
    along, backslashes and the bytes behind them included and unchanged,
    and the cursor is behind the closing mark with the error as it was.
    When the input ends before a closing mark the call returns false,
    leaves [value] as it was, and records [InputTruncated] at the end of
    the input. *)
Theorem read_string_returns_raw_bytes (value : StringView)
  (w l : list ascii) (s : ParserState) :
  m_input_length < 2 ^ 64 ->
  reads s (w ++ quotation_mark :: l) -> forallb isspace w = true ->
  match string_body l with
  | Some body =>
      let view :=
        StringView_of (offset s + Z.of_nat (length w) + 1)
          (Z.of_nat (length body)) in
      exists s' rest,
        l = body ++ quotation_mark :: rest /\
        read_string value s = Some ((true, view), s') /\
        StringView_bytes view = body /\
        reads s' rest /\ error s' = error s
  | None =>
      exists s',
        read_string value s = Some ((false, value), s') /\
        reads s' [] /\
        error s' = mkParserError InputTruncated (line s') (column s')
  end.
Proof.
  intros Hlen Hr Hsp.
  destruct (skip_fail_if_eof_reads_content w quotation_mark l s Hr Hsp
              eq_refl eq_refl) as (s1 & El & Hr1 & He1 & Ho1).
  pose proof (skip_fail_if_eof_stays _ _ s1 Hr1 eq_refl eq_refl) as El1.
  assert (Hsame : read_string value s = read_string value s1).
  { unfold read_string. rewrite (bind_eq _ _ _ _ _ El).
    rewrite (bind_eq _ _ _ _ _ El1). reflexivity. }
  pose proof (read_string_at_mark value l s1 Hlen Hr1) as H.
  destruct (string_body l) as [body |].
  - cbv zeta. destruct H as (s' & rest & Hsplit & E & Hb & Hr' & He').
    exists s', rest. rewrite Hsame, <- Ho1.
    split; [exact Hsplit |]. split; [exact E |]. split; [exact Hb |].
    split; [exact Hr' | congruence].
  - destruct H as (s' & E & Hr' & He').
    exists s'. rewrite Hsame. split; [exact E |]. split; assumption.
Qed.

(** X21: [read_bool] asks for no delimiter behind the literal.  Behind any
    whitespace, on input that reads [true] (or [false]) and then any bytes
    [rest], the call returns true, sets the output to true (or false) and
    leaves the cursor behind the 4 (or 5) bytes of the literal, on the
    first byte of [rest] whatever it is, with the error as it was. *)
Theorem read_bool_reads_literal (value : bool) (w rest : list ascii)
  (s : ParserState) :
  forallb isspace w = true ->
  (reads s (w ++ literal_true ++ rest) ->
   exists s', read_bool value s = Some ((true, true), s') /\
              reads s' rest /\
              offset s' = offset s + Z.of_nat (length w) + 4 /\
              error s' = error s) /\
  (reads s (w ++ literal_false ++ rest) ->
   exists s', read_bool value s = Some ((true, false), s') /\
              reads s' rest /\
              offset s' = offset s + Z.of_nat (length w) + 5 /\
              error s' = error s).
Proof.
  intros Hsp. split; intros [Hw Hsk];
    destruct (read_bool_needs_no_delimiter value s Hw) as [_ H];
    destruct (H w rest Hsp) as [Ht Hf].
  - destruct (Ht Hsk) as (s' & E & Ho & He & Hw' & Hrest).
    exists s'. split; [exact E |]. split; [split; assumption |].
    split; assumption.
  - destruct (Hf Hsk) as (s' & E & Ho & He & Hw' & Hrest).
    exists s'. split; [exact E |]. split; [split; assumption |].
    split; assumption.
Qed.

End Properties.

(** * The scenarios, run *)

(** C1: on the bytes of [// a], a newline and [x], a single
    [skip_comments_and_whitespace] from the initial state returns true and
    leaves the cursor at offset 4, on the newline right behind the comment:
    a whitespace byte, with the input not at its end.  Likewise the skip
    stops on the space between two block comments, and
    [remainder_is_comments_and_whitespace] rejects a file whose remainder
    is a line comment and a newline. *)
Theorem skip_stops_behind_first_comment :
  (exists s',
     skip_comments_and_whitespace (input := comment_line_input)
       (initial_state (input := comment_line_input)) = Some (true, s') /\
     offset s' = 4 /\ symbol s' = newline /\
     isspace (symbol s') = true /\
     eof (input := comment_line_input) s' = false) /\
  (exists s',
     skip_comments_and_whitespace (input := two_comments_input)
       (initial_state (input := two_comments_input)) = Some (true, s') /\
     offset s' = 5 /\ isspace (symbol s') = true /\
     input_at (input := two_comments_input) (offset s' + 1) = "/"%char /\
     eof (input := two_comments_input) s' = false) /\
  (exists s',
     remainder_is_comments_and_whitespace (input := trailing_comment_input)
       (initial_state (input := trailing_comment_input)) = Some (false, s') /\
     pe_error (error s') = UnexpectedContentAtEnd).
Proof.
  split; [| split].
  - exists (state_at 4 2 1 newline). repeat split; reflexivity.
  - exists (state_at 5 1 6 " "%char). repeat split; reflexivity.
  - exists (with_error UnexpectedContentAtEnd (state_at 4 2 1 newline)).
    split; reflexivity.
Qed.

(** C4: [read_key] behind a comment that whitespace follows.  On the bytes
    of [/*c*/ name = 1] the skip stops on the space behind the comment, so
    the key reader takes the empty text in front of that space for the key
    and never reaches the token [name] at offset 6: [read_key] of the name
    [Name] returns false with [IncorrectKey] and leaves the cursor at
    offset 5, on the space, one byte before the key; [read_key] of the
    empty name returns true although the key is [name].  Likewise behind a
    line comment: the cursor is left at offset 4, on the newline. *)
Theorem read_key_behind_comment :
  (exists s',
     read_key (input := commented_key_input) (bytes "Name")
       (initial_state (input := commented_key_input)) = Some (false, s') /\
     offset s' = 5 /\ symbol s' = " "%char /\
     skipn 6 commented_key_input = bytes "name = 1" /\
     error s' = mkParserError IncorrectKey 1 6) /\
  (exists s',
     read_key (input := commented_key_input) []
       (initial_state (input := commented_key_input)) = Some (true, s') /\
     offset s' = 6 /\ symbol s' = "n"%char /\
     pe_error (error s') = None_) /\
  (exists s',
     read_key (input := commented_key_line_input) (bytes "Name")
       (initial_state (input := commented_key_line_input))
     = Some (false, s') /\
     offset s' = 4 /\ symbol s' = newline /\
     skipn 5 commented_key_line_input = bytes "name = 1" /\
     error s' = mkParserError IncorrectKey 2 1).
Proof.
  split; [| split].
  - exists (with_error IncorrectKey (state_at 5 1 6 " "%char)).
    repeat split; reflexivity.
  - exists (state_at 6 1 7 "n"%char). repeat split; reflexivity.
  - exists (with_error IncorrectKey (state_at 4 2 1 newline)).
    repeat split; reflexivity.
Qed.

(** C5: [read_string] behind a comment that whitespace follows.  On the
    bytes of [/*c*/], a space and the quoted string [ab], the skip stops on
    the space behind the comment and [read_string] returns false with
    [QuotationMarkExpected], the cursor at offset 5 on the space, although
    the next token is a quoted string whose text is [ab].  Likewise behind
    a line comment: the cursor is left at offset 4, on the newline. *)
Theorem read_string_behind_comment :
  (exists s',
     read_string (input := commented_string_input) StringView_null
       (initial_state (input := commented_string_input))
     = Some ((false, StringView_null), s') /\
     offset s' = 5 /\ symbol s' = " "%char /\
     skipn 6 commented_string_input
     = quotation_mark :: skipn 7 commented_string_input /\
     string_body (skipn 7 commented_string_input) = Some (bytes "ab") /\
     error s' = mkParserError QuotationMarkExpected 1 6) /\
  (exists s',
     read_string (input := commented_string_line_input) StringView_null
       (initial_state (input := commented_string_line_input))
     = Some ((false, StringView_null), s') /\
     offset s' = 4 /\ symbol s' = newline /\
     skipn 5 commented_string_line_input
     = quotation_mark :: skipn 6 commented_string_line_input /\
     string_body (skipn 6 commented_string_line_input) = Some (bytes "ab") /\
     error s' = mkParserError QuotationMarkExpected 2 1).
Proof.
  split.
  - exists (with_error QuotationMarkExpected (state_at 5 1 6 " "%char)).
    repeat split; reflexivity.
  - exists (with_error QuotationMarkExpected (state_at 4 2 1 newline)).
    repeat split; reflexivity.
Qed.

(** C10: [read_bool] behind a comment that whitespace follows.  On the
    bytes of [/*c*/ true] the skip stops on the space behind the comment
    and [read_bool] returns false with [TrueOrFalseExpected], the output
    as it was and the cursor at offset 5 on the space, although the bytes
    behind the comment and the space are [true].  Likewise behind a line
    comment: the cursor is left at offset 4, on the newline. *)
Theorem read_bool_behind_comment :
  (exists s',
     read_bool (input := commented_true_input) false
       (initial_state (input := commented_true_input))
     = Some ((false, false), s') /\
     offset s' = 5 /\ symbol s' = " "%char /\
     skipn 6 commented_true_input = literal_true /\
     error s' = mkParserError TrueOrFalseExpected 1 6) /\
  (exists s',
     read_bool (input := commented_true_line_input) false
       (initial_state (input := commented_true_line_input))
     = Some ((false, false), s') /\
     offset s' = 4 /\ symbol s' = newline /\
     skipn 5 commented_true_line_input = literal_true /\
     error s' = mkParserError TrueOrFalseExpected 2 1).
Proof.
  split.
  - exists (with_error TrueOrFalseExpected (state_at 5 1 6 " "%char)).
    repeat split; reflexivity.
  - exists (with_error TrueOrFalseExpected (state_at 4 2 1 newline)).
    repeat split; reflexivity.
Qed.

(** The scenario as section 8 of the specification tells it, with the cursor
    at the end of the input behind the second read, does not happen. *)
Lemma config_scenario_not_at_eof :
  ~ (exists slice d s',
       config_scenario = Some (false, (true, slice), (true, d), s') /\
       StringView_bytes (input := config_input) slice = bytes "hello" /\
       d = double_3_5 /\
       eof (input := config_input) s' = true).
Proof.
  intros (slice & d & s' & E & _ & _ & He).
  vm_compute in E. inversion E; subst. vm_compute in He. discriminate.
Qed.

(** C2: on the configuration input, [object_begins()] returns false; the
    two reads behind it return true, with the view of the 5 bytes [hello]
    and the double 3.5.  The cursor is then on the newline that ends the
    input, one byte before its end, so [eof()] is false;
    [remainder_is_comments_and_whitespace()] takes it to the end. *)
Theorem config_scenario_result :
  exists slice d s',
    config_scenario = Some (false, (true, slice), (true, d), s') /\
    StringView_bytes (input := config_input) slice = bytes "hello" /\
    sv_length slice = 5 /\
    d = double_3_5 /\
    offset s' = m_input_length (input := config_input) - 1 /\
    symbol s' = newline /\
    eof (input := config_input) s' = false /\
    exists s'',
      remainder_is_comments_and_whitespace (input := config_input) s'
        = Some (true, s'') /\
      eof (input := config_input) s'' = true.
Proof.
  eexists _, _, _. split; [vm_compute; reflexivity |].
  repeat split; try reflexivity.
  eexists. split; [vm_compute; reflexivity | reflexivity].
Qed.

(** A failed [try_read] of the key [Name] on [name = 1], and a failed
    [try_read] of two doubles on an array whose second element is [x], after
    the first element was stored. *)
Lemma try_read_failure_restores_witness :
  (exists value' s',
     try_read_StringView (input := name_input) (bytes "Name")
       (StringView_of 0 4) (initial_state (input := name_input))
       = Some ((false, value'), s') /\
     s' = initial_state (input := name_input) /\
     value' = StringView_null) /\
  (exists values' s',
     try_read_doubles (conversion := strtod_decimal)
       (input := broken_array_input) (bytes "v")
       [double_3_5; double_3_5; double_3_5] 2
       (initial_state (input := broken_array_input))
       = Some ((false, values'), s') /\
     s' = initial_state (input := broken_array_input) /\
     values' !! 0%nat = Some double_zero /\
     values' !! 1%nat = Some double_zero).
Proof.
  split.
  - destruct (try_read_failure_restores (conversion := strtod_decimal)
                (input := name_input) (bytes "Name")
                (initial_state (input := name_input))) as [H _].
    destruct (H (StringView_of 0 4)) as (ok & value' & s' & E & Hr).
    assert (Hok : ok = false).
    { vm_compute in E. inversion E. reflexivity. }
    subst ok. destruct (Hr eq_refl) as [Hs Hv].
    exists value', s'. split; [exact E | split; assumption].
  - destruct (try_read_failure_restores (conversion := strtod_decimal)
                (input := broken_array_input) (bytes "v")
                (initial_state (input := broken_array_input))) as [_ H].
    destruct (H [double_3_5; double_3_5; double_3_5] 2)
      as (ok & values' & s' & E & Hr).
    assert (Hok : ok = false).
    { vm_compute in E. inversion E. reflexivity. }
    subst ok. destruct (Hr eq_refl) as (Hs & Hl & Hz).
    exists values', s'. split; [exact E |]. split; [exact Hs |].
    split; apply Hz; simpl; lia.
Defined.


(** Saving on the first byte of [a], newline, [b], advancing, restoring. *)
Lemma save_restore_round_trip_witness :
  (saved <- save_state ;;
   advance (input := two_lines_input) ;;;
   restore_state saved) (initial_state (input := two_lines_input))
  = Some (tt, initial_state (input := two_lines_input)).
Proof.
  apply (proj2 (proj2 (save_restore_round_trip
                         (initial_state (input := two_lines_input))
                         (state_at 1 2 1 newline)))
           bool (advance (input := two_lines_input)) true).
  reflexivity.
Defined.

(** The end of the one-byte input [x]. *)
Lemma eof_iff_offset_is_length_witness :
  reachable (input := bytes "x") (state_at 1 1 1 zero) /\
  (eof (input := bytes "x") (state_at 1 1 1 zero) = true <->
   offset (state_at 1 1 1 zero) = m_input_length (input := bytes "x")) /\
  (eof (input := bytes "x") (state_at 1 1 1 zero) = true ->
   advance (input := bytes "x") (state_at 1 1 1 zero)
   = Some (false, state_at 1 1 1 zero)).
Proof.
  assert (Hr : reachable (input := bytes "x") (state_at 1 1 1 zero)).
  { apply (reachable_advance (input := bytes "x")
             (initial_state (input := bytes "x")) true);
      [apply reachable_initial | reflexivity]. }
  split; [exact Hr |].
  apply (eof_iff_offset_is_length (input := bytes "x")). exact Hr.
Defined.

(** [a], newline, [b]: the newline is at line 2, column 1, and [b] at line
    2, column 2. *)
Lemma column_follows_landing_byte_witness :
  reachable (input := two_lines_input) (state_at 2 2 2 "b"%char) /\
  advance (input := two_lines_input) (initial_state (input := two_lines_input))
    = Some (true, state_at 1 2 1 newline) /\
  advance (input := two_lines_input) (state_at 1 2 1 newline)
    = Some (true, state_at 2 2 2 "b"%char) /\
  column (state_at 2 2 2 "b"%char) = 2 /\
  get_position (state_at 2 2 2 "b"%char) = (2, 2).
Proof.
  assert (Hr : reachable (input := two_lines_input) (state_at 2 2 2 "b"%char)).
  { apply (reachable_advance (input := two_lines_input)
             (state_at 1 2 1 newline) true); [| reflexivity].
    apply (reachable_advance (input := two_lines_input)
             (initial_state (input := two_lines_input)) true);
      [apply reachable_initial | reflexivity]. }
  split; [exact Hr |]. split; [reflexivity |]. split; [reflexivity |].
  destruct (column_follows_landing_byte (input := two_lines_input)
              (initial_state (input := two_lines_input))
              (reachable_initial (input := two_lines_input))) as [H1 _].
  destruct (H1 (state_at 1 2 1 newline) eq_refl eq_refl eq_refl)
    as (_ & _ & _ & _ & H2).
  destruct (H2 (state_at 2 2 2 "b"%char) eq_refl eq_refl
              ltac:(vm_compute; discriminate)) as (_ & _ & Hc).
  split; [exact Hc |].
  destruct (column_follows_landing_byte (input := two_lines_input)
              (state_at 2 2 2 "b"%char) Hr) as [_ H3].
  destruct H3 as (_ & Hp & _);
    [vm_compute; split; reflexivity | reflexivity
    | vm_compute; discriminate | exact Hp].
Defined.

(** * More of the parser, on the scenarios *)

(** On the configuration, whatever is called first leaves the cursor in the
    input; behind the first byte, a restore of the initial state takes the
    cursor back to offset 0. *)
Lemma cursor_only_moves_forward_witness :
  operations_keep (conversion := strtod_decimal) (input := config_input)
    (fun s' =>
       0 <= offset s' <= m_input_length (input := config_input) /\
       well_formed (input := config_input) s')
    (initial_state (input := config_input)) /\
  restore_state (initial_state (input := config_input))
    (state_at 1 1 2 "/"%char)
  = Some (tt, initial_state (input := config_input)).
Proof.
  split.
  - apply (cursor_only_moves_forward (conversion := strtod_decimal)
             (input := config_input) (initial_state (input := config_input))).
    split; [vm_compute; split; discriminate | reflexivity].
  - destruct (cursor_only_moves_forward (conversion := strtod_decimal)
                (input := config_input) (state_at 1 1 2 "/"%char))
      as (_ & _ & Hrestore & _).
    + split; [vm_compute; split; discriminate | reflexivity].
    + apply Hrestore.
Defined.

(** On the empty input a double is not read, and a try of it leaves no
    trace. *)
Lemma at_end_of_input_witness :
  read_double (conversion := strtod_decimal) (input := empty_input) double_3_5
    (initial_state (input := empty_input))
  = Some ((false, double_3_5),
          with_error InputTruncated (initial_state (input := empty_input))) /\
  try_array_ends (input := empty_input) (initial_state (input := empty_input))
  = Some (false, initial_state (input := empty_input)).
Proof.
  pose proof (at_end_of_input (conversion := strtod_decimal)
                (input := empty_input) (initial_state (input := empty_input))
                eq_refl) as H.
  cbv zeta in H. destruct H as (_ & _ & _ & _ & Hends & _ & _ & Hdouble & _).
  split; [apply Hdouble | exact Hends].
Defined.

(** An array of three read for two elements on [v = [1, 2]: the third is
    as it was. *)
Lemma array_reads_stay_in_bounds_witness :
  exists ok values' s',
    read_doubles_member (conversion := strtod_decimal)
      (input := open_array_input) (bytes "v")
      [double_zero; double_zero; double_3_5] 2
      (initial_state (input := open_array_input))
    = Some ((ok, values'), s') /\
    length values' = 3%nat /\ values' !! 2%nat = Some double_3_5.
Proof.
  destruct (array_reads_stay_in_bounds (conversion := strtod_decimal)
              (input := open_array_input) (bytes "v")
              [double_zero; double_zero; double_3_5] 2
              (initial_state (input := open_array_input)))
    as (_ & (ok & values' & s' & E & Hl & Hk) & _).
  exists ok, values', s'. split; [exact E |]. split; [exact Hl |].
  apply (Hk 2%nat). simpl. lia.
Defined.

(** The first of two block comments is skipped, the second is not. *)
Lemma skip_block_comment_witness :
  exists s',
    skip_comments_and_whitespace (input := two_comments_input)
      (initial_state (input := two_comments_input)) = Some (true, s') /\
    reads (input := two_comments_input) s' (bytes " /*b*/x") /\
    error s' = error (initial_state (input := two_comments_input)).
Proof.
  apply (skip_block_comment (input := two_comments_input) []
           (bytes "a*/ /*b*/x") (initial_state (input := two_comments_input))).
  - split; [split; [vm_compute; split; discriminate | reflexivity]
           | reflexivity].
  - reflexivity.
Defined.

(** A line comment is skipped up to its newline. *)
Lemma skip_line_comment_witness :
  exists s',
    skip_comments_and_whitespace (input := comment_line_input)
      (initial_state (input := comment_line_input)) = Some (true, s') /\
    reads (input := comment_line_input) s' (newline :: bytes "x") /\
    error s' = error (initial_state (input := comment_line_input)).
Proof.
  apply (skip_line_comment (input := comment_line_input) []
           (bytes " a" ++ newline :: bytes "x")
           (initial_state (input := comment_line_input))).
  - split; [split; [vm_compute; split; discriminate | reflexivity]
           | reflexivity].
  - reflexivity.
Defined.

(** A slash and an [x]. *)
Lemma skip_slash_without_comment_witness :
  exists s',
    skip_comments_and_whitespace (input := stray_slash_input)
      (initial_state (input := stray_slash_input)) = Some (false, s') /\
    reads (input := stray_slash_input) s' (bytes "x") /\
    error s' = mkParserError CommentBeginsIncorrectly (line s') (column s').
Proof.
  destruct (skip_slash_without_comment (input := stray_slash_input)
              (bytes " ") (initial_state (input := stray_slash_input))
              eq_refl) as [_ H].
  apply (H "x"%char []); [| reflexivity | reflexivity].
  split; [split; [vm_compute; split; discriminate | reflexivity]
         | reflexivity].
Defined.

(** The opening brace behind a space. *)
Lemma read_symbol_on_input_witness :
  exists s',
    object_begins (input := braces_input)
      (initial_state (input := braces_input)) = Some (true, s') /\
    reads (input := braces_input) s' (bytes " }") /\
    error s' = error (initial_state (input := braces_input)) /\
    offset s' = 2.
Proof.
  destruct (read_symbol_on_input (input := braces_input) "{"
              OpeningBraceExpected (bytes " ")
              (initial_state (input := braces_input)) eq_refl) as [_ H].
  destruct (H "{"%char (bytes " }")) as [Hmatch _];
    [| reflexivity | reflexivity | exact (Hmatch eq_refl)].
  split; [split; [vm_compute; split; discriminate | reflexivity]
         | reflexivity].
Defined.

(** [name = 1] is not a remainder of whitespace and comments. *)
Lemma remainder_on_input_witness :
  exists s',
    remainder_is_comments_and_whitespace (input := name_input)
      (initial_state (input := name_input)) = Some (false, s') /\
    reads (input := name_input) s' (bytes "name = 1") /\
    offset s' = 0 /\
    error s' = mkParserError UnexpectedContentAtEnd (line s') (column s').
Proof.
  pose proof (remainder_on_input (input := name_input) []
                (initial_state (input := name_input)) eq_refl) as H.
  cbv zeta in H. destruct H as (_ & _ & _ & H).
  apply (H "n"%char (bytes "ame = 1")); [| reflexivity | reflexivity].
  split; [split; [vm_compute; split; discriminate | reflexivity]
         | reflexivity].
Defined.




(** [a], newline, [b]: on the [b] one newline was landed on, and nothing
    since. *)
Lemma position_counts_landed_bytes_witness :
  line (state_at 2 2 2 "b"%char) = 2 /\ column (state_at 2 2 2 "b"%char) = 2 /\
  landed (input := two_lines_input) (state_at 2 2 2 "b"%char)
  = [newline; "b"%char].
Proof.
  assert (Hr : reachable (input := two_lines_input) (state_at 2 2 2 "b"%char)).
  { apply (reachable_advance (input := two_lines_input)
             (state_at 1 2 1 newline) true); [| reflexivity].
    apply (reachable_advance (input := two_lines_input)
             (initial_state (input := two_lines_input)) true);
      [apply reachable_initial | reflexivity]. }
  destruct (position_counts_landed_bytes (input := two_lines_input)
              (state_at 2 2 2 "b"%char) Hr) as (Hl & Hc & _).
  split; [exact Hl |]. split; [exact Hc | reflexivity].
Defined.

(** [3.5] in front of a closing bracket. *)
Lemma read_double_follows_grammar_witness :
  exists s',
    reads (input := last_element_input) s' (bytes "]") /\
    error s' = error (initial_state (input := last_element_input)) /\
    read_double (conversion := strtod_decimal) (input := last_element_input)
      double_zero (initial_state (input := last_element_input))
    = Some ((true, double_3_5), s').
Proof.
  apply (read_double_follows_grammar (conversion := strtod_decimal)
           (input := last_element_input) double_zero (bytes " ") "3"%char
           (bytes ".5]") (initial_state (input := last_element_input)));
    try reflexivity.
  split; [split; [vm_compute; split; discriminate | reflexivity]
         | reflexivity].
Defined.


(** A parser on [name = 1] that holds an error does what a fresh one
    does. *)
Lemma error_is_never_read_witness :
  operations_echo (conversion := strtod_decimal) (input := name_input)
    (initial_state (input := name_input))
    (with_error IncorrectKey (initial_state (input := name_input))).
Proof.
  apply (error_is_never_read (conversion := strtod_decimal)
           (input := name_input)).
  repeat split.
Defined.

(** A number where a string is wanted. *)
Lemma read_string_needs_opening_mark_witness :
  exists s',
    read_string (input := last_element_input) StringView_null
      (initial_state (input := last_element_input))
    = Some ((false, StringView_null), s') /\
    reads (input := last_element_input) s' (bytes "3.5]") /\
    offset s' = 1 /\
    error s' = mkParserError QuotationMarkExpected (line s') (column s').
Proof.
  destruct (read_string_needs_opening_mark (input := last_element_input)
              StringView_null (bytes " ")
              (initial_state (input := last_element_input)) eq_refl)
    as [_ H].
  apply (H "3"%char (bytes ".5]")); try reflexivity.
  split; [split; [vm_compute; split; discriminate | reflexivity]
         | reflexivity].
Defined.


(** [readString] on quote, a, backslash, quote, b, quote: the 4 bytes a,
    backslash, quote, b, and the cursor at the end of the input. *)
Lemma read_string_returns_raw_bytes_witness :
  exists s' rest,
    read_string (input := escaped_input) StringView_null
      (initial_state (input := escaped_input))
    = Some ((true, StringView_of 1 4), s') /\
    StringView_bytes (input := escaped_input) (StringView_of 1 4)
    = ["a"%char; backslash; quotation_mark; "b"%char] /\
    reads (input := escaped_input) s' rest /\ rest = [].
Proof.
  pose proof (read_string_returns_raw_bytes (input := escaped_input)
                StringView_null []
                ["a"%char; backslash; quotation_mark; "b"%char; quotation_mark]
                (initial_state (input := escaped_input))) as H.
  destruct H as (s' & rest & Hsplit & E & Hb & Hr & _).
  - vm_compute. reflexivity.
  - split; [split; [vm_compute; split; discriminate | reflexivity]
           | reflexivity].
  - reflexivity.
  - exists s', rest. split; [exact E |]. split; [exact Hb |].
    split; [exact Hr |]. inversion Hsplit. reflexivity.
Defined.

(** [truest]: true, with the cursor on the [s]. *)
Lemma read_bool_reads_literal_witness :
  exists s',
    read_bool (input := truest_input) false
      (initial_state (input := truest_input)) = Some ((true, true), s') /\
    reads (input := truest_input) s' (bytes "st") /\
    offset s' = 4.
Proof.
  destruct (read_bool_reads_literal (input := truest_input) false []
              (bytes "st") (initial_state (input := truest_input)) eq_refl)
    as [H _].
  destruct H as (s' & E & Hr & Ho & _).
  - split; [split; [vm_compute; split; discriminate | reflexivity]
           | reflexivity].
  - exists s'. split; [exact E |]. split; [exact Hr | exact Ho].
Defined.
